(** * JSON to ZIP converter: tree builder and tree utilities

    A shallow embedding of the JSON-to-file-tree transformation
    ([createFileTree], [generateFileStructure], [sanitizeFilename]), of
    the tree utilities ([flattenTree], [getFilePaths], [findNodeByPath],
    [getTreeStats], [sortTree], [isValidTree], [createTreeFromPaths], ...)
    and of the trees made for display ([createHierarchicalTree],
    [buildFileTree]) with the set of expanded folders ([toggleFolder]),
    followed by the properties stated about them.

    Modelling conventions.
    - A JavaScript string is the list of its UTF-16 code units.
    - A value is what [JSON.parse] can produce: a primitive ([null], a
      boolean, a number, a string), an array, or a plain object.  Numbers
      are integer valued and printed in decimal, which is what [String]
      does for integers of magnitude below 10^21.
    - A plain object is the list of its own enumerable properties in the
      order in which [Object.keys] enumerates them: canonical array
      indices first, by ascending numeric value, then the other keys in
      order of creation.  Keys are pairwise distinct.  What an object
      inherits from [Object.prototype] is no value of the model: the
      functions that read inherited names ([findNodeByPath] with [in],
      [buildFileTree]) or write through the [__proto__] accessor
      ([sortTree], [createTreeFromPaths]) say what they do there: see
      [getProperty], [assignOne], [insertParts] and [inheritedNames].
    - A function that can throw, or whose walk can leave the model,
      returns an [option]; its comment says what [None] stands for. *)

From Stdlib Require Import List NArith ZArith Bool Ascii String Lia.
From Stdlib Require Import Permutation Sorted DecimalN FinFun.
Import ListNotations.

Set Implicit Arguments.

(** ** Strings *)

Module JsString.

Local Open Scope N_scope.

Definition jsstr := list N.

(** Code units of an ASCII literal. *)
Definition str (s : string) : jsstr :=
  map N_of_ascii (list_ascii_of_string s).

Fixpoint eqb (a b : jsstr) : bool :=
  match a, b with
  | [], [] => true
  | x :: a', y :: b' => N.eqb x y && eqb a' b'
  | _, _ => false
  end.

(** [a < b] by code units, the default comparison of [Array.prototype.sort]. *)
Fixpoint ltb (a b : jsstr) : bool :=
  match a, b with
  | _, [] => false
  | [], _ :: _ => true
  | x :: a', y :: b' =>
      if N.ltb x y then true
      else if N.eqb x y then ltb a' b' else false
  end.

Definition leb (a b : jsstr) : bool := negb (ltb b a).

(** A string is truthy when it is not empty. *)
Definition truthy (s : jsstr) : bool :=
  match s with [] => false | _ :: _ => true end.

Definition slash : N := 47.
Definition underscore : N := 95.
Definition dquote : N := 34.

(** [s.split(sep)] for a one-unit separator: always at least one piece. *)
Fixpoint split (sep : N) (s : jsstr) : list jsstr :=
  match s with
  | [] => [[]]
  | c :: r =>
      if N.eqb c sep then [] :: split sep r
      else match split sep r with
           | [] => [[c]]
           | piece :: pieces => (c :: piece) :: pieces
           end
  end.

(** Decimal digits of a natural number, most significant first. *)
Fixpoint uint_units (d : Decimal.uint) : jsstr :=
  match d with
  | Decimal.Nil => []
  | Decimal.D0 d => 48 :: uint_units d
  | Decimal.D1 d => 49 :: uint_units d
  | Decimal.D2 d => 50 :: uint_units d
  | Decimal.D3 d => 51 :: uint_units d
  | Decimal.D4 d => 52 :: uint_units d
  | Decimal.D5 d => 53 :: uint_units d
  | Decimal.D6 d => 54 :: uint_units d
  | Decimal.D7 d => 55 :: uint_units d
  | Decimal.D8 d => 56 :: uint_units d
  | Decimal.D9 d => 57 :: uint_units d
  end.

Definition decimal (n : N) : jsstr := uint_units (N.to_uint n).

Definition decimalZ (z : Z) : jsstr :=
  if Z.ltb z 0 then 45 :: decimal (Z.to_N (Z.opp z)) else decimal (Z.to_N z).

Definition is_digit (c : N) : bool := N.leb 48 c && N.leb c 57.

(** Value of a non-empty string of decimal digits. *)
Fixpoint digits_value (acc : N) (s : jsstr) : option N :=
  match s with
  | [] => Some acc
  | c :: r =>
      if is_digit c then digits_value (acc * 10 + (c - 48)) r else None
  end.

(** [array_index k] is [Some i] when [k] is an array index: the canonical
    decimal form of an integer [i] with [0 <= i < 2^32 - 1]. *)
Definition array_index (k : jsstr) : option N :=
  match k with
  | [] => None
  | _ :: _ =>
      match digits_value 0 k with
      | Some i =>
          if eqb (decimal i) k && N.ltb i 4294967295 then Some i else None
      | None => None
      end
  end.

(** The white space and line terminator code units, matched by [\s] and
    removed by [trim]. *)
Definition is_space (c : N) : bool :=
  (N.leb 9 c && N.leb c 13) || N.eqb c 32 || N.eqb c 160 || N.eqb c 5760
  || (N.leb 8192 c && N.leb c 8202) || N.eqb c 8232 || N.eqb c 8233
  || N.eqb c 8239 || N.eqb c 8287 || N.eqb c 12288 || N.eqb c 65279.

Fixpoint trimStart (s : jsstr) : jsstr :=
  match s with
  | [] => []
  | c :: r => if is_space c then trimStart r else s
  end.

Definition trim (s : jsstr) : jsstr :=
  rev (trimStart (rev (trimStart s))).

Definition hex_digit (n : N) : N :=
  if N.ltb n 10 then 48 + n else 87 + n.

(** The escape [\uXXXX] of a code unit, lower-case hexadecimal. *)
Definition unicode_escape (c : N) : jsstr :=
  [92; 117; hex_digit (N.shiftr c 12 mod 16); hex_digit (N.shiftr c 8 mod 16);
   hex_digit (N.shiftr c 4 mod 16); hex_digit (c mod 16)].

Definition is_high_surrogate (c : N) : bool := N.leb 55296 c && N.leb c 56319.
Definition is_low_surrogate (c : N) : bool := N.leb 56320 c && N.leb c 57343.

Definition quote_unit (c : N) : jsstr :=
  if N.eqb c 8 then [92; 98]
  else if N.eqb c 9 then [92; 116]
  else if N.eqb c 10 then [92; 110]
  else if N.eqb c 12 then [92; 102]
  else if N.eqb c 13 then [92; 114]
  else if N.eqb c 34 then [92; 34]
  else if N.eqb c 92 then [92; 92]
  else if N.ltb c 32 || is_high_surrogate c || is_low_surrogate c
       then unicode_escape c
  else [c].

(** Body of [QuoteJSONString]: a surrogate pair is kept, a lone
    surrogate is escaped. *)
Fixpoint quote_units (s : jsstr) : jsstr :=
  match s with
  | [] => []
  | c :: r =>
      match r with
      | d :: r' =>
          if is_high_surrogate c && is_low_surrogate d
          then c :: d :: quote_units r'
          else quote_unit c ++ quote_units r
      | [] => quote_unit c
      end
  end.

(** [JSON.stringify] of a string. *)
Definition quoteJSONString (s : jsstr) : jsstr :=
  dquote :: quote_units s ++ [dquote].

End JsString.

(** ** Plain objects as ordered property lists *)

Module JsObject.
Import JsString.

Section Props.
Variable V : Type.

Definition props := list (jsstr * V).

Definition keys (o : props) : list jsstr := map fst o.

(** [o[k]] on an own property. *)
Fixpoint get (o : props) (k : jsstr) : option V :=
  match o with
  | [] => None
  | (k', v) :: r => if eqb k' k then Some v else get r k
  end.

Definition has (o : props) (k : jsstr) : bool :=
  match get o k with Some _ => true | None => false end.

(** Assignment to an existing property keeps its place. *)
Fixpoint replace (o : props) (k : jsstr) (v : V) : props :=
  match o with
  | [] => []
  | (k', v') :: r =>
      if eqb k' k then (k', v) :: r else (k', v') :: replace r k v
  end.

(** A new array index goes after the smaller indices. *)
Fixpoint insertIndex (i : N) (k : jsstr) (v : V) (o : props) : props :=
  match o with
  | [] => [(k, v)]
  | (k', v') :: r =>
      match array_index k' with
      | Some i' =>
          if N.ltb i' i then (k', v') :: insertIndex i k v r
          else (k, v) :: o
      | None => (k, v) :: o
      end
  end.

(** [o[k] = v]. *)
Definition set (o : props) (k : jsstr) (v : V) : props :=
  if has o k then replace o k v
  else match array_index k with
       | Some i => insertIndex i k v o
       | None => o ++ [(k, v)]
       end.

End Props.

End JsObject.

(** ** Values *)

Module JsValue.
Import JsString.

Inductive Prim : Type :=
| PNull
| PBool (b : bool)
| PNum (n : Z)
| PStr (s : jsstr).

Unset Elimination Schemes.

Inductive JSValue : Type :=
| JPrim (p : Prim)
| JArr (items : list JSValue)
| JObj (props : list (jsstr * JSValue)).

Set Elimination Schemes.

Abbreviation JNull := (JPrim PNull).
Abbreviation JBool b := (JPrim (PBool b)).
Abbreviation JNum n := (JPrim (PNum n)).
Abbreviation JStr s := (JPrim (PStr s)).

(** Induction over values, with the hypothesis for every element of an
    array and every property value of an object. *)
Definition JSValue_ind (P : JSValue -> Prop)
    (HPrim : forall p, P (JPrim p))
    (HArr : forall items, Forall P items -> P (JArr items))
    (HObj : forall props, Forall (fun kv => P (snd kv)) props -> P (JObj props))
  : forall v, P v :=
  fix go (v : JSValue) : P v :=
    match v with
    | JPrim p => HPrim p
    | JArr items =>
        HArr items
          ((fix all (l : list JSValue) : Forall P l :=
              match l with
              | [] => Forall_nil P
              | x :: r => Forall_cons x (go x) (all r)
              end) items)
    | JObj props =>
        HObj props
          ((fix all (l : list (jsstr * JSValue))
              : Forall (fun kv => P (snd kv)) l :=
              match l with
              | [] => Forall_nil _
              | kv :: r => Forall_cons kv (go (snd kv)) (all r)
              end) props)
    end.

(** [!!v] *)
Definition truthy (v : JSValue) : bool :=
  match v with
  | JPrim PNull => false
  | JPrim (PBool b) => b
  | JPrim (PNum n) => negb (Z.eqb n 0)
  | JPrim (PStr s) => JsString.truthy s
  | JArr _ | JObj _ => true
  end.

(** [typeof v === 'object'] *)
Definition typeofObject (v : JSValue) : bool :=
  match v with
  | JPrim PNull | JArr _ | JObj _ => true
  | JPrim _ => false
  end.

(** [typeof v === 'string'] *)
Definition typeofString (v : JSValue) : bool :=
  match v with
  | JPrim (PStr _) => true
  | _ => false
  end.

(** [Array.isArray(v)] *)
Definition isArray (v : JSValue) : bool :=
  match v with
  | JArr _ => true
  | _ => false
  end.

(** The test that tells a directory from a file in the tree utilities:
    [value && typeof value === 'object' && !Array.isArray(value)]. *)
Definition isDirectory (v : JSValue) : bool :=
  truthy v && typeofObject v && negb (isArray v).

(** [String(p)] *)
Definition toString (p : Prim) : jsstr :=
  match p with
  | PNull => str "null"
  | PBool true => str "true"
  | PBool false => str "false"
  | PNum n => decimalZ n
  | PStr s => s
  end.

(** [JSON.stringify(p, null, 2)] *)
Definition stringify (p : Prim) : jsstr :=
  match p with
  | PStr s => quoteJSONString s
  | _ => toString p
  end.

(** The own enumerable properties of an array: its indices. *)
Fixpoint indexed (index : nat) (items : list JSValue)
  : list (jsstr * JSValue) :=
  match items with
  | [] => []
  | item :: r => (decimal (N.of_nat index), item) :: indexed (S index) r
  end.

(** What [Object.keys(v)] with [v[key]] enumerates. *)
Definition ownProps (v : JSValue) : list (jsstr * JSValue) :=
  match v with
  | JPrim _ => []
  | JArr items => indexed 0 items
  | JObj props => props
  end.

(** An array seen through [Object.keys] and [tree[key]]: the object of
    its indices. *)
Definition asObject (v : JSValue) : JSValue :=
  match v with
  | JArr items => JObj (indexed 0 items)
  | _ => v
  end.

End JsValue.

(** ** Tree utilities *)

Module TreeUtils.
Import JsString JsValue.

(** [basePath ? `${basePath}/${key}` : key] *)
Definition childPath (basePath key : jsstr) : jsstr :=
  if JsString.truthy basePath then basePath ++ slash :: key else key.

(** [getFilePaths] on a tree that is not an array. *)
Fixpoint getFilePathsIn (tree : JSValue) (basePath : jsstr) : list jsstr :=
  match tree with
  | JObj props =>
      (fix each (ps : list (jsstr * JSValue)) : list jsstr :=
         match ps with
         | [] => []
         | (key, value) :: r =>
             let currentPath := childPath basePath key in
             (if isDirectory value
              then getFilePathsIn value currentPath
              else [currentPath]) ++ each r
         end) props
  | _ => []
  end.

Definition getFilePaths (tree : JSValue) (basePath : jsstr) : list jsstr :=
  getFilePathsIn (asObject tree) basePath.

Definition protoKey : jsstr := str "__proto__".

(** The names a plain object inherits from [Object.prototype]. *)
Definition objectPrototypeNames : list jsstr :=
  [str "constructor"; str "hasOwnProperty"; str "isPrototypeOf";
   str "propertyIsEnumerable"; str "toLocaleString"; str "toString";
   str "valueOf"; str "__proto__"; str "__defineGetter__";
   str "__defineSetter__"; str "__lookupGetter__"; str "__lookupSetter__"].

(** What [name in current] and [current[name]] find: an own property
    with its value, no property, or a name left to the prototype.  What
    the prototype holds under a name (a method, or the prototype of the
    prototype) is not a value of the model. *)
Inductive Property : Type :=
| Own (value : JSValue)
| Missing
| Inherited.

(** [name in current] and [current[name]] for an object or an array.
    An object has its own properties and inherits the names of
    [Object.prototype].  An array has its indices and its length; the
    other names it has are those of the methods of [Array.prototype],
    which vary with the edition of the language, and of
    [Object.prototype]: a name that is neither an index nor [length] is
    left to the prototype, whether the prototype has it or not. *)
Definition getProperty (current : JSValue) (name : jsstr) : Property :=
  match current with
  | JPrim _ => Missing
  | JObj props =>
      match JsObject.get props name with
      | Some value => Own value
      | None =>
          if existsb (eqb name) objectPrototypeNames then Inherited
          else Missing
      end
  | JArr items =>
      if eqb name (str "length")
      then Own (JNum (Z.of_nat (List.length items)))
      else match array_index name with
           | Some i =>
               match nth_error items (N.to_nat i) with
               | Some item => Own item
               | None => Missing
               end
           | None => Inherited
           end
  end.

(** The loop of [findNodeByPath].  The result is [None] when the walk
    comes to a name left to the prototype and so leaves the values of
    the model: the function then returns the inherited value, or what it
    makes of the parts that follow, or null where an array inherits no
    such name. *)
Fixpoint walkParts (pathParts : list jsstr) (current : JSValue)
  : option JSValue :=
  match pathParts with
  | [] => Some current
  | part :: rest =>
      if negb (truthy current) || negb (typeofObject current)
      then Some JNull
      else match getProperty current part with
           | Missing => Some JNull
           | Inherited => None
           | Own next => walkParts rest next
           end
  end.

Definition pathParts (path : jsstr) : list jsstr :=
  filter JsString.truthy (split slash path).

Definition findNodeByPath (tree : JSValue) (path : jsstr)
  : option JSValue :=
  if negb (truthy tree) || negb (JsString.truthy path) then Some JNull
  else walkParts (pathParts path) tree.

Fixpoint getTreeDepthIn (tree : JSValue) : nat :=
  match tree with
  | JObj props =>
      (fix each (ps : list (jsstr * JSValue)) (maxDepth : nat) : nat :=
         match ps with
         | [] => maxDepth
         | (_, value) :: r =>
             each r (if isDirectory value
                     then Nat.max maxDepth (1 + getTreeDepthIn value)
                     else maxDepth)
         end) props 0
  | _ => 0
  end.

Definition getTreeDepth (tree : JSValue) : nat :=
  getTreeDepthIn (asObject tree).

Fixpoint countTreeFilesIn (tree : JSValue) : nat :=
  match tree with
  | JObj props =>
      (fix each (ps : list (jsstr * JSValue)) (count : nat) : nat :=
         match ps with
         | [] => count
         | (_, value) :: r =>
             each r (if isDirectory value
                     then count + countTreeFilesIn value
                     else count + 1)
         end) props 0
  | _ => 0
  end.

Definition countTreeFiles (tree : JSValue) : nat :=
  countTreeFilesIn (asObject tree).

Fixpoint countTreeDirectoriesIn (tree : JSValue) : nat :=
  match tree with
  | JObj props =>
      (fix each (ps : list (jsstr * JSValue)) (count : nat) : nat :=
         match ps with
         | [] => count
         | (_, value) :: r =>
             each r (if isDirectory value
                     then count + 1 + countTreeDirectoriesIn value
                     else count)
         end) props 0
  | _ => 0
  end.

Definition countTreeDirectories (tree : JSValue) : nat :=
  countTreeDirectoriesIn (asObject tree).

Record TreeStats : Type := mkTreeStats {
  files : nat;
  directories : nat;
  depth : nat;
  totalNodes : nat
}.

Definition getTreeStats (tree : JSValue) : TreeStats :=
  {| files := countTreeFiles tree;
     directories := countTreeDirectories tree;
     depth := getTreeDepth tree;
     totalNodes := countTreeFiles tree + countTreeDirectories tree |}.

(** [keys.sort()]: ascending by code units. *)
Fixpoint insertKey (k : jsstr) (sorted : list jsstr) : list jsstr :=
  match sorted with
  | [] => [k]
  | k' :: r => if leb k k' then k :: sorted else k' :: insertKey k r
  end.

Definition sortKeys (l : list jsstr) : list jsstr :=
  fold_right insertKey [] l.

Definition isDirectoryAt (props : list (jsstr * JSValue)) (key : jsstr) : bool :=
  match JsObject.get props key with
  | Some value => isDirectory value
  | None => false
  end.

(** [sorted[key] = from[key]] for a key of [from].  [sorted] is an
    object made by the literal [{}]: for the key [__proto__] the
    assignment goes through the setter it inherits, which makes no own
    property, so that the key is not among the keys of the result.
    What the setter does to the prototype of [sorted] does not show in
    its own properties, which are what a value of the model holds. *)
Definition assignOne (from sorted : list (jsstr * JSValue)) (key : jsstr)
  : list (jsstr * JSValue) :=
  if eqb key protoKey then sorted
  else match JsObject.get from key with
       | Some value => JsObject.set sorted key value
       | None => sorted
       end.

(** [ks.forEach(key => { sorted[key] = from[key] })] *)
Definition assignAll (from : list (jsstr * JSValue)) (ks : list jsstr)
    (sorted : list (jsstr * JSValue)) : list (jsstr * JSValue) :=
  fold_left (assignOne from) ks sorted.

(** [sortTree] on a tree that is not an array.  [sortedChildren] holds
    [sortTree(tree[key])] for every directory [key], so that
    [sorted[key] = sortTree(tree[key])] reads it from there. *)
Fixpoint sortTreeIn (tree : JSValue) : JSValue :=
  match tree with
  | JObj props =>
      let sortedChildren :=
        (fix each (ps : list (jsstr * JSValue)) : list (jsstr * JSValue) :=
           match ps with
           | [] => []
           | (key, value) :: r =>
               (key, if isDirectory value then sortTreeIn value else value)
               :: each r
           end) props in
      let directories :=
        sortKeys (filter (isDirectoryAt props) (JsObject.keys props)) in
      let files :=
        sortKeys (filter (fun key => negb (isDirectoryAt props key))
                         (JsObject.keys props)) in
      JObj (assignAll props files (assignAll sortedChildren directories []))
  | _ => tree
  end.

Definition sortTree (tree : JSValue) : JSValue :=
  sortTreeIn (asObject tree).

Fixpoint isValidTree (obj : JSValue) : bool :=
  if negb (truthy obj) || negb (typeofObject obj) || isArray obj then false
  else
    match obj with
    | JObj props =>
        (fix every (ps : list (jsstr * JSValue)) : bool :=
           match ps with
           | [] => true
           | (_, value) :: r =>
               (if isDirectory value then isValidTree value else true)
               && every r
           end) props
    | _ => false
    end.

(** *** createTreeFromPaths

    The tree under construction holds, at every leaf, a reference to the
    one [defaultContent] value; [PFile] stands for that reference and
    [PDir] for an object created by the walk. *)

Unset Elimination Schemes.

Inductive PathTree : Type :=
| PFile
| PDir (children : list (jsstr * PathTree)).

Set Elimination Schemes.

Definition PathTree_ind (P : PathTree -> Prop)
    (HFile : P PFile)
    (HDir : forall children,
        Forall (fun kv => P (snd kv)) children -> P (PDir children))
  : forall t, P t :=
  fix go (t : PathTree) : P t :=
    match t with
    | PFile => HFile
    | PDir children =>
        HDir children
          ((fix all (l : list (jsstr * PathTree))
              : Forall (fun kv => P (snd kv)) l :=
              match l with
              | [] => Forall_nil _
              | kv :: r => Forall_cons kv (go (snd kv)) (all r)
              end) children)
    end.

(** The object the references denote once the walk is over. *)
Fixpoint reify (defaultContent : JSValue) (t : PathTree) : JSValue :=
  match t with
  | PFile => defaultContent
  | PDir children =>
      JObj ((fix each (l : list (jsstr * PathTree)) : list (jsstr * JSValue) :=
               match l with
               | [] => []
               | (k, n) :: r => (k, reify defaultContent n) :: each r
               end) children)
  end.

(** [parts.forEach((part, index) => ...)] from [current] on.  The result
    is [None] when the walk leaves the model: it would write into
    [defaultContent] itself (an object or array reached through a leaf)
    or go through the [__proto__] accessor. *)
Fixpoint insertParts (defaultContent : JSValue) (parts : list jsstr)
    (current : list (jsstr * PathTree)) : option (list (jsstr * PathTree)) :=
  match parts with
  | [] => Some current
  | part :: rest =>
      match rest with
      | [] =>
          if eqb part protoKey
          then match defaultContent with
               | JPrim PNull => None
               | JPrim _ => Some current
               | _ => None
               end
          else Some (JsObject.set current part PFile)
      | _ :: _ =>
          if eqb part protoKey then None
          else
            match JsObject.get current part with
            | Some (PDir children) =>
                option_map (fun sub => JsObject.set current part (PDir sub))
                           (insertParts defaultContent rest children)
            | Some PFile =>
                if negb (truthy defaultContent)
                   || negb (typeofObject defaultContent)
                then option_map
                       (fun sub => JsObject.set current part (PDir sub))
                       (insertParts defaultContent rest [])
                else None
            | None =>
                option_map (fun sub => JsObject.set current part (PDir sub))
                           (insertParts defaultContent rest [])
            end
      end
  end.

(** One round of [paths.forEach]. *)
Definition addPath (defaultContent : JSValue)
    (tree : option (list (jsstr * PathTree))) (path : JSValue)
  : option (list (jsstr * PathTree)) :=
  match tree with
  | None => None
  | Some current =>
      if negb (truthy path) || negb (typeofString path) then Some current
      else match path with
           | JPrim (PStr s) => insertParts defaultContent (pathParts s) current
           | _ => Some current
           end
  end.

Definition buildPaths (paths : list JSValue) (defaultContent : JSValue)
  : option (list (jsstr * PathTree)) :=
  fold_left (addPath defaultContent) paths (Some []).

Definition createTreeFromPaths (paths : list JSValue)
    (defaultContent : JSValue) : option JSValue :=
  option_map (fun children => reify defaultContent (PDir children))
             (buildPaths paths defaultContent).

(** *** flattenTree and getDirectoryPaths *)

(** An entry of the flat list: a directory with the number of its
    keys, or a file with its content. *)
Inductive FlatEntry : Type :=
| FlatDirectory (name path : jsstr) (children : nat)
| FlatFile (name path : jsstr) (content : JSValue).

Definition entryPath (e : FlatEntry) : jsstr :=
  match e with
  | FlatDirectory _ path _ => path
  | FlatFile _ path _ => path
  end.

Definition entryName (e : FlatEntry) : jsstr :=
  match e with
  | FlatDirectory name _ _ => name
  | FlatFile name _ _ => name
  end.

(** [type === 'file'] *)
Definition entryIsFile (e : FlatEntry) : bool :=
  match e with
  | FlatDirectory _ _ _ => false
  | FlatFile _ _ _ => true
  end.

(** [flattenTree] on a tree that is not an array. *)
Fixpoint flattenTreeIn (tree : JSValue) (parentPath : jsstr) : list FlatEntry :=
  match tree with
  | JObj props =>
      (fix each (ps : list (jsstr * JSValue)) : list FlatEntry :=
         match ps with
         | [] => []
         | (key, value) :: r =>
             let currentPath := childPath parentPath key in
             (if isDirectory value
              then FlatDirectory key currentPath (List.length (ownProps value))
                   :: flattenTreeIn value currentPath
              else [FlatFile key currentPath value]) ++ each r
         end) props
  | _ => []
  end.

Definition flattenTree (tree : JSValue) (parentPath : jsstr) : list FlatEntry :=
  flattenTreeIn (asObject tree) parentPath.

(** [getDirectoryPaths] on a tree that is not an array. *)
Fixpoint getDirectoryPathsIn (tree : JSValue) (basePath : jsstr) : list jsstr :=
  match tree with
  | JObj props =>
      (fix each (ps : list (jsstr * JSValue)) : list jsstr :=
         match ps with
         | [] => []
         | (key, value) :: r =>
             let currentPath := childPath basePath key in
             (if isDirectory value
              then currentPath :: getDirectoryPathsIn value currentPath
              else []) ++ each r
         end) props
  | _ => []
  end.

Definition getDirectoryPaths (tree : JSValue) (basePath : jsstr) : list jsstr :=
  getDirectoryPathsIn (asObject tree) basePath.

End TreeUtils.

(** ** JSON utilities: sanitizing and the flat file map *)

Module JsonUtils.
Import JsString JsValue.

(** The units the first replacement matches: less-than, greater-than,
    colon, double quote, slash, backslash, bar, question mark, star. *)
Definition isReserved (c : N) : bool :=
  N.eqb c 60 || N.eqb c 62 || N.eqb c 58 || N.eqb c 34 || N.eqb c 47
  || N.eqb c 92 || N.eqb c 124 || N.eqb c 63 || N.eqb c 42.

Definition isUnderscore (c : N) : bool := N.eqb c underscore.

(** [s.replace(/[...]/g, '_')] for a class of single units. *)
Definition replaceEach (p : N -> bool) (s : jsstr) : jsstr :=
  map (fun c => if p c then underscore else c) s.

(** [s.replace(/C+/g, '_')]: every maximal run of units of the class
    becomes one underscore.  With the class of the underscore alone this
    is also [s.replace(/_{2,}/g, '_')], a run of length one being
    replaced by itself. *)
Fixpoint replaceRuns (p : N -> bool) (s : jsstr) : jsstr :=
  match s with
  | [] => []
  | c :: r =>
      if p c
      then match r with
           | d :: _ => if p d then replaceRuns p r
                       else underscore :: replaceRuns p r
           | [] => [underscore]
           end
      else c :: replaceRuns p r
  end.

Definition sanitizeFilename (filename : jsstr) : jsstr :=
  trim (replaceRuns isUnderscore
          (replaceRuns is_space (replaceEach isReserved filename))).

Definition txt : jsstr := str ".txt".

(** [processNode] of [createFileTree], the flat map [fileTree] threaded
    through the calls.  The test [typeof v === 'object' && v !== null]
    holds for arrays and objects and fails for primitives. *)
Fixpoint processNode (obj : JSValue) (currentPath : jsstr)
    (fileTree : list (jsstr * JSValue)) : list (jsstr * JSValue) :=
  match obj with
  | JArr items =>
      (fix each (l : list JSValue) (index : nat)
           (fileTree : list (jsstr * JSValue)) : list (jsstr * JSValue) :=
         match l with
         | [] => fileTree
         | item :: r =>
             let itemPath :=
               currentPath ++ str "/item_" ++ decimal (N.of_nat index) in
             each r (S index)
               (match item with
                | JPrim p =>
                    JsObject.set fileTree (itemPath ++ txt) (JStr (toString p))
                | _ => processNode item itemPath fileTree
                end)
         end) items 0%nat fileTree
  | JObj props =>
      (fix each (l : list (jsstr * JSValue))
           (fileTree : list (jsstr * JSValue)) : list (jsstr * JSValue) :=
         match l with
         | [] => fileTree
         | (key, value) :: r =>
             let sanitizedKey := sanitizeFilename key in
             let newPath :=
               if JsString.truthy currentPath
               then currentPath ++ slash :: sanitizedKey
               else sanitizedKey in
             each r
               (match value with
                | JPrim p =>
                    JsObject.set fileTree (newPath ++ txt) (JStr (toString p))
                | _ => processNode value newPath fileTree
                end)
         end) props fileTree
  | JPrim p =>
      JsObject.set fileTree
        ((if JsString.truthy currentPath then currentPath else str "data")
           ++ txt)
        (JStr (toString p))
  end.

Definition createFileTree (data : JSValue) (basePath : jsstr) : JSValue :=
  JObj (processNode data basePath []).

(** [Object.keys(fileTree).length] *)
Definition countFiles (fileTree : JSValue) : nat :=
  List.length (JsObject.keys (ownProps fileTree)).

(** The units of the class of [validPattern]: letters, digits,
    underscore, hyphen and white space. *)
Definition zipNameUnit (c : N) : bool :=
  (N.leb 97 c && N.leb c 122) || (N.leb 65 c && N.leb c 90)
  || (N.leb 48 c && N.leb c 57) || N.eqb c 95 || N.eqb c 45 || is_space c.

(** [validPattern.test(filename)]: one unit of the class or more, and
    nothing else. *)
Definition validPatternTest (filename : jsstr) : bool :=
  JsString.truthy filename && forallb zipNameUnit filename.

Definition isValidZipName (filename : jsstr) : bool :=
  validPatternTest filename && Nat.ltb 0 (List.length (trim filename)).

(** *** createHierarchicalTree *)

Unset Elimination Schemes.

(** A node of the tree for display: a file with its content, or a
    folder with its children. *)
Inductive HNode : Type :=
| HFile (name path : jsstr) (content : JSValue)
| HFolder (name path : jsstr) (children : list HNode).

Set Elimination Schemes.

Definition HNode_ind (P : HNode -> Prop)
    (HF : forall name path content, P (HFile name path content))
    (HD : forall name path children,
        Forall P children -> P (HFolder name path children))
  : forall n, P n :=
  fix go (n : HNode) : P n :=
    match n with
    | HFile name path content => HF name path content
    | HFolder name path children =>
        HD name path children
          ((fix all (l : list HNode) : Forall P l :=
              match l with
              | [] => Forall_nil P
              | x :: r => Forall_cons x (go x) (all r)
              end) children)
    end.

Definition nodeName (n : HNode) : jsstr :=
  match n with
  | HFile name _ _ => name
  | HFolder name _ _ => name
  end.

Definition nodePath (n : HNode) : jsstr :=
  match n with
  | HFile _ path _ => path
  | HFolder _ path _ => path
  end.

(** [currentPath ? `${currentPath}/${part}` : part] *)
Definition extendPath (currentPath part : jsstr) : jsstr :=
  if JsString.truthy currentPath then currentPath ++ slash :: part else part.

(** One round of [parts.forEach] for a part that is not the last: the
    first node named [part] is looked for in [currentLevel]; a folder is
    pushed when there is none; the rounds that follow, [continue], work
    on the children of the node.  A file has no children to work on: the
    next round throws, which is the result [None]. *)
Fixpoint enter (part currentPath : jsstr)
    (continue : list HNode -> option (list HNode))
    (currentLevel : list HNode) : option (list HNode) :=
  match currentLevel with
  | [] =>
      option_map (fun children => [HFolder part currentPath children])
                 (continue [])
  | node :: r =>
      if eqb (nodeName node) part
      then match node with
           | HFolder name path children =>
               option_map (fun children' => HFolder name path children' :: r)
                          (continue children)
           | HFile _ _ _ => None
           end
      else option_map (cons node) (enter part currentPath continue r)
  end.

(** [parts.forEach((part, index) => ...)] from [currentLevel] on. *)
Fixpoint placeParts (content : JSValue) (parts : list jsstr)
    (currentPath : jsstr) (currentLevel : list HNode)
  : option (list HNode) :=
  match parts with
  | [] => Some currentLevel
  | part :: rest =>
      let currentPath := extendPath currentPath part in
      match rest with
      | [] =>
          if existsb (fun node => eqb (nodeName node) part) currentLevel
          then Some currentLevel
          else Some (currentLevel ++ [HFile part currentPath content])
      | _ :: _ =>
          enter part currentPath (placeParts content rest currentPath)
                currentLevel
      end
  end.

(** [Object.keys(fileTree)] with [fileTree[key]]; [None] for [null],
    of which [Object.keys] throws. *)
Definition keysAndValues (fileTree : JSValue)
  : option (list (jsstr * JSValue)) :=
  match fileTree with
  | JPrim PNull => None
  | JPrim (PStr s) => Some (indexed 0 (map (fun c => JStr [c]) s))
  | JPrim _ => Some []
  | JArr _ | JObj _ => Some (ownProps fileTree)
  end.

Definition placeFile (tree : option (list HNode)) (entry : jsstr * JSValue)
  : option (list HNode) :=
  match tree with
  | None => None
  | Some currentLevel =>
      placeParts (snd entry) (split slash (fst entry)) [] currentLevel
  end.

Definition createHierarchicalTree (fileTree : JSValue) : option (list HNode) :=
  match keysAndValues fileTree with
  | None => None
  | Some entries => fold_left placeFile entries (Some [])
  end.

End JsonUtils.

(** ** The file list of the converter component *)

Module FileConverter.
Import JsString JsValue.

Record FileEntry : Type := mkFile { path : jsstr; content : jsstr }.

(** [typeof value === 'string' && value.length > 100 ? 'txt' : 'json'] *)
Definition extensionOf (p : Prim) : jsstr :=
  match p with
  | PStr s => if Nat.ltb 100 (List.length s) then str "txt" else str "json"
  | _ => str "json"
  end.

Definition contentOf (extension : jsstr) (p : Prim) : jsstr :=
  if eqb extension (str "json") then stringify p else toString p.

(** [processObject] of [generateFileStructure], the array [files]
    threaded through the calls; [push] appends.  Arrays and objects are
    the values with [typeof v === 'object' && v !== null]. *)
Fixpoint processObject (data : JSValue) (currentPath : jsstr)
    (files : list FileEntry) : list FileEntry :=
  match data with
  | JArr items =>
      (fix each (l : list JSValue) (index : nat) (files : list FileEntry)
         : list FileEntry :=
         match l with
         | [] => files
         | item :: r =>
             let itemPath :=
               currentPath ++ str "/item_" ++ decimal (N.of_nat index) in
             each r (S index)
               (match item with
                | JPrim p =>
                    files ++ [{| path := itemPath ++ str ".txt";
                                 content := toString p |}]
                | _ => processObject item itemPath files
                end)
         end) items 0%nat files
  | JObj props =>
      (fix each (l : list (jsstr * JSValue)) (files : list FileEntry)
         : list FileEntry :=
         match l with
         | [] => files
         | (key, value) :: r =>
             let newPath :=
               if JsString.truthy currentPath
               then currentPath ++ slash :: key
               else key in
             each r
               (match value with
                | JPrim p =>
                    let extension := extensionOf p in
                    files ++ [{| path := newPath ++ str "." ++ extension;
                                 content := contentOf extension p |}]
                | _ => processObject value newPath files
                end)
         end) props files
  | JPrim p =>
      files ++ [{| path := (if JsString.truthy currentPath
                            then currentPath else str "data") ++ str ".txt";
                   content := toString p |}]
  end.

Definition generateFileStructure (obj : JSValue) (path : jsstr)
  : list FileEntry :=
  processObject obj path [].

(** *** buildFileTree

    The preview tree: an object from names to nodes, a node being
    [{ type: 'file', content }] or [{ type: 'folder', children }]. *)

Unset Elimination Schemes.

Inductive FNode : Type :=
| FFile (content : jsstr)
| FFolder (children : list (jsstr * FNode)).

Set Elimination Schemes.

Definition FNode_ind (P : FNode -> Prop)
    (HFile : forall content, P (FFile content))
    (HFolder : forall children,
        Forall (fun kv => P (snd kv)) children -> P (FFolder children))
  : forall n, P n :=
  fix go (n : FNode) : P n :=
    match n with
    | FFile content => HFile content
    | FFolder children =>
        HFolder children
          ((fix all (l : list (jsstr * FNode))
              : Forall (fun kv => P (snd kv)) l :=
              match l with
              | [] => Forall_nil _
              | kv :: r => Forall_cons kv (go (snd kv)) (all r)
              end) children)
    end.

(** The names every object inherits from [Object.prototype]: [current[part]]
    is truthy for them whether or not [current] has the property. *)
Definition inheritedNames : list jsstr :=
  [str "constructor"; str "hasOwnProperty"; str "isPrototypeOf";
   str "propertyIsEnumerable"; str "toLocaleString"; str "toString";
   str "valueOf"; str "__proto__"; str "__defineGetter__";
   str "__defineSetter__"; str "__lookupGetter__"; str "__lookupSetter__"].

Definition inherited (part : jsstr) : bool :=
  existsb (eqb part) inheritedNames.

(** [parts.forEach((part, index) => ...)] from [current] on.  The result
    is [None] when a round throws: [current[part]] is a file, or an
    inherited value, so that [current[part].children] is [undefined] and
    the next round reads or writes a property of [undefined].  It is
    [None] as well for a last part [__proto__], whose assignment goes
    through the accessor and leaves the model. *)
Fixpoint addParts (fileContent : jsstr) (parts : list jsstr)
    (current : list (jsstr * FNode)) : option (list (jsstr * FNode)) :=
  match parts with
  | [] => Some current
  | part :: rest =>
      match rest with
      | [] =>
          if eqb part TreeUtils.protoKey then None
          else Some (JsObject.set current part (FFile fileContent))
      | _ :: _ =>
          if inherited part then None
          else
            match JsObject.get current part with
            | Some (FFolder children) =>
                option_map
                  (fun sub => JsObject.set current part (FFolder sub))
                  (addParts fileContent rest children)
            | Some (FFile _) => None
            | None =>
                option_map
                  (fun sub => JsObject.set current part (FFolder sub))
                  (addParts fileContent rest [])
            end
      end
  end.

(** One round of [files.forEach]. *)
Definition addFile (tree : option (list (jsstr * FNode))) (file : FileEntry)
  : option (list (jsstr * FNode)) :=
  match tree with
  | None => None
  | Some current => addParts (content file) (split slash (path file)) current
  end.

Definition buildFileTree (files : list FileEntry)
  : option (list (jsstr * FNode)) :=
  fold_left addFile files (Some []).

End FileConverter.

(** ** The set of expanded folders *)

Module Expanded.
Import JsString.

(** A [Set] of strings: its elements, without repetition, in the order
    in which they were added. *)
Definition PathSet := list jsstr.

(** [s.has(p)] *)
Definition has (s : PathSet) (p : jsstr) : bool := existsb (eqb p) s.

(** [s.delete(p)] *)
Fixpoint delete (s : PathSet) (p : jsstr) : PathSet :=
  match s with
  | [] => []
  | q :: r => if eqb q p then r else q :: delete r p
  end.

(** [s.add(p)] *)
Definition add (s : PathSet) (p : jsstr) : PathSet :=
  if has s p then s else s ++ [p].

(** [toggleFolder], on the set [new Set(expandedFolders)]. *)
Definition toggleFolder (expandedFolders : PathSet) (path : jsstr) : PathSet :=
  let newExpanded := expandedFolders in
  if has newExpanded path then delete newExpanded path
  else add newExpanded path.

End Expanded.

(** ** The file tree component

    [FileTree] on the nodes [createHierarchicalTree] makes: a file has
    no [children] and no node has a [size]. *)

Module FileTree.
Import JsString JsonUtils.

(** [collectPaths] of [expandAll], the set [allPaths] threaded through
    the calls. *)
Fixpoint collectPaths (node : HNode) (allPaths : Expanded.PathSet)
  : Expanded.PathSet :=
  match node with
  | HFile _ _ _ => allPaths
  | HFolder _ path children =>
      match children with
      | [] => allPaths
      | _ :: _ =>
          (fix each (l : list HNode) (allPaths : Expanded.PathSet)
             : Expanded.PathSet :=
             match l with
             | [] => allPaths
             | child :: r => each r (collectPaths child allPaths)
             end) children (Expanded.add allPaths path)
      end
  end.

(** The set [expandAll] makes the expanded nodes, for an array [data]. *)
Definition expandAll (data : list HNode) : Expanded.PathSet :=
  fold_left (fun allPaths node => collectPaths node allPaths) data [].

Record TotalStats : Type := mkTotalStats {
  fileCount : nat;
  folderCount : nat;
  totalSize : nat
}.

(** [countNodes] of [getTotalStats], the three counters threaded
    through the calls; [node.size || 0] is 0. *)
Fixpoint countNodes (node : HNode) (counters : TotalStats) : TotalStats :=
  match node with
  | HFile _ _ _ =>
      {| fileCount := S (fileCount counters);
         folderCount := folderCount counters;
         totalSize := totalSize counters + 0 |}
  | HFolder _ _ children =>
      (fix each (l : list HNode) (counters : TotalStats) : TotalStats :=
         match l with
         | [] => counters
         | child :: r => each r (countNodes child counters)
         end) children
        {| fileCount := fileCount counters;
           folderCount := S (folderCount counters);
           totalSize := totalSize counters |}
  end.

(** [getTotalStats] for an array [data]. *)
Definition getTotalStats (data : list HNode) : TotalStats :=
  fold_left (fun counters node => countNodes node counters) data
            {| fileCount := 0; folderCount := 0; totalSize := 0 |}.

End FileTree.

(** ** Reference notions the properties are stated with *)

Module Spec.
Import JsString JsValue.

(** Validity as a description by cases: a plain object whose every value
    is either a valid tree itself or a leaf that is not an object (a
    primitive).  An array is neither. *)
Fixpoint describedValid (v : JSValue) : bool :=
  match v with
  | JObj props =>
      (fix every (ps : list (jsstr * JSValue)) : bool :=
         match ps with
         | [] => true
         | (_, value) :: r =>
             match value with
             | JPrim _ => true
             | _ => describedValid value
             end && every r
         end) props
  | _ => false
  end.

(** Two path lists with the same elements. *)
Definition samePaths (l l' : list jsstr) : Prop :=
  forall p, In p l <-> In p l'.

Definition startsWithSlash (p : jsstr) : bool :=
  match p with
  | c :: _ => N.eqb c slash
  | [] => false
  end.

(** No file comes before a directory in the enumeration of the
    properties. *)
Fixpoint directoriesFirst (props : list (jsstr * JSValue)) : bool :=
  match props with
  | [] => true
  | (_, value) :: r =>
      (isDirectory value || forallb (fun kv => negb (isDirectory (snd kv))) r)
      && directoriesFirst r
  end.

(** A name fit to be a path segment that survives [split] and the
    filter of empty parts, and that is not the [__proto__] accessor. *)
Definition segmentName (k : jsstr) : Prop :=
  k <> [] /\ ~ In slash k /\ k <> str "__proto__".

(** A tree whose names, at every level, are pairwise distinct segment
    names. *)
Fixpoint namedTree (v : JSValue) : Prop :=
  match v with
  | JObj props =>
      NoDup (JsObject.keys props)
      /\ (fix all (ps : list (jsstr * JSValue)) : Prop :=
            match ps with
            | [] => True
            | (key, value) :: r =>
                segmentName key
                /\ (isDirectory value = true -> namedTree value)
                /\ all r
            end) props
  | _ => False
  end.

(** The node a list of names leads to in a tree under construction;
    the empty list leads to the root. *)
Fixpoint lookupPath (parts : list jsstr)
    (children : list (jsstr * TreeUtils.PathTree)) : option TreeUtils.PathTree :=
  match parts with
  | [] => Some (TreeUtils.PDir children)
  | part :: rest =>
      match JsObject.get children part with
      | Some (TreeUtils.PDir sub) => lookupPath rest sub
      | Some TreeUtils.PFile =>
          match rest with
          | [] => Some TreeUtils.PFile
          | _ :: _ => None
          end
      | None => None
      end
  end.

(** [fileAt names t]: the names lead, through directories, to a file. *)
Fixpoint fileAt (names : list jsstr) (t : JSValue) : bool :=
  match names with
  | [] => false
  | name :: rest =>
      match t with
      | JObj props =>
          match JsObject.get props name with
          | Some value =>
              if isDirectory value then fileAt rest value
              else match rest with
                   | [] => true
                   | _ :: _ => false
                   end
          | None => false
          end
      | _ => false
      end
  end.

(** The path of a node from the names that lead to it. *)
Definition joinUnder (basePath : jsstr) (names : list jsstr) : jsstr :=
  fold_left TreeUtils.childPath names basePath.

(** A tree under construction whose names are, at every level, pairwise
    distinct and other than [__proto__]. *)
Fixpoint properNames (n : TreeUtils.PathTree) : Prop :=
  match n with
  | TreeUtils.PFile => True
  | TreeUtils.PDir children =>
      NoDup (JsObject.keys children)
      /\ (fix all (l : list (jsstr * TreeUtils.PathTree)) : Prop :=
            match l with
            | [] => True
            | (k, m) :: r =>
                (k <> TreeUtils.protoKey /\ properNames m) /\ all r
            end) children
  end.

(** A value all of whose objects have pairwise distinct keys, as every
    object has. *)
Fixpoint distinctKeys (v : JSValue) : Prop :=
  match v with
  | JPrim _ => True
  | JArr items =>
      (fix all (l : list JSValue) : Prop :=
         match l with
         | [] => True
         | x :: r => distinctKeys x /\ all r
         end) items
  | JObj props =>
      NoDup (JsObject.keys props)
      /\ (fix all (l : list (jsstr * JSValue)) : Prop :=
            match l with
            | [] => True
            | (_, value) :: r => distinctKeys value /\ all r
            end) props
  end.

(** [resolves t parts v]: every part names a property of the node
    reached so far, and [v] is the node reached at the end. *)
Inductive resolves : JSValue -> list jsstr -> JSValue -> Prop :=
| resolves_here t : resolves t [] t
| resolves_step t part rest next v :
    truthy t = true ->
    typeofObject t = true ->
    TreeUtils.getProperty t part = TreeUtils.Own next ->
    resolves next rest v ->
    resolves t (part :: rest) v.


(** A value none of whose objects has the key [__proto__]. *)
Fixpoint noProtoKeys (v : JSValue) : Prop :=
  match v with
  | JPrim _ => True
  | JArr items =>
      (fix all (l : list JSValue) : Prop :=
         match l with
         | [] => True
         | x :: r => noProtoKeys x /\ all r
         end) items
  | JObj props =>
      ~ In TreeUtils.protoKey (JsObject.keys props)
      /\ (fix all (l : list (jsstr * JSValue)) : Prop :=
            match l with
            | [] => True
            | (_, value) :: r => noProtoKeys value /\ all r
            end) props
  end.

(** An entry of the path list none of whose parts is [__proto__]. *)
Definition noProtoPart (path : JSValue) : bool :=
  match path with
  | JPrim (PStr s) =>
      negb (existsb (eqb TreeUtils.protoKey) (TreeUtils.pathParts s))
  | _ => true
  end.

(** [a] is a prefix of [b]. *)
Definition isPrefix (a b : list jsstr) : Prop := exists more, b = a ++ more.

(** [s] is the path of a file of [t]. *)
Definition filePathOf (t : JSValue) (s : jsstr) : Prop :=
  exists names, fileAt names t = true /\ s = joinUnder [] names.

(** The order of [sort] on keys. *)
Definition keyLe (a b : jsstr) : Prop := leb a b = true.

(** [sortTree(tree[key])] for a directory, [tree[key]] for a file. *)
Definition sortChild (v : JSValue) : JSValue :=
  if isDirectory v then TreeUtils.sortTreeIn v else v.

(** The properties of the object [sortTree] returns for an object. *)
Definition sortedProps (props : list (jsstr * JSValue))
  : list (jsstr * JSValue) :=
  TreeUtils.assignAll props
    (TreeUtils.sortKeys (filter (fun key => negb (TreeUtils.isDirectoryAt props key))
                      (JsObject.keys props)))
    (TreeUtils.assignAll (map (fun kv => (fst kv, sortChild (snd kv))) props)
       (TreeUtils.sortKeys (filter (TreeUtils.isDirectoryAt props) (JsObject.keys props))) []).

End Spec.

(** ** Measures of a tree, entry by entry *)

Module Measures.
Import JsString JsValue.

(** What one property adds to the number of files, to the number of
    directories and to the depth of the object that holds it. *)
Definition filesUnder (kv : jsstr * JSValue) : nat :=
  if isDirectory (snd kv) then TreeUtils.countTreeFilesIn (snd kv) else 1.

Definition directoriesUnder (kv : jsstr * JSValue) : nat :=
  if isDirectory (snd kv)
  then 1 + TreeUtils.countTreeDirectoriesIn (snd kv) else 0.

Definition depthUnder (kv : jsstr * JSValue) : nat :=
  if isDirectory (snd kv) then 1 + TreeUtils.getTreeDepthIn (snd kv) else 0.

(** [nodeAt names t]: the node the names lead to, through directories;
    the empty list leads to [t]. *)
Fixpoint nodeAt (names : list jsstr) (t : JSValue) : option JSValue :=
  match names with
  | [] => Some t
  | name :: rest =>
      match t with
      | JObj props =>
          match JsObject.get props name with
          | Some value =>
              match rest with
              | [] => Some value
              | _ :: _ => if isDirectory value then nodeAt rest value else None
              end
          | None => None
          end
      | _ => None
      end
  end.

(** The number of primitive values in a value. *)
Fixpoint leaves (v : JSValue) : nat :=
  match v with
  | JPrim _ => 1
  | JArr items =>
      (fix sum (l : list JSValue) : nat :=
         match l with
         | [] => 0
         | x :: r => leaves x + sum r
         end) items
  | JObj props =>
      (fix sum (l : list (jsstr * JSValue)) : nat :=
         match l with
         | [] => 0
         | (_, x) :: r => leaves x + sum r
         end) props
  end.

(** An entry of the path list that names nothing: a value that is not
    a string, the empty string, or a string without a part that is not
    empty. *)
Definition namesNothing (path : JSValue) : bool :=
  match path with
  | JPrim (PStr s) =>
      match TreeUtils.pathParts s with
      | [] => true
      | _ :: _ => false
      end
  | _ => true
  end.

(** No two units of the class stand side by side. *)
Fixpoint noAdjacent (p : N -> bool) (s : jsstr) : bool :=
  match s with
  | [] => true
  | a :: r =>
      match r with
      | b :: _ => negb (p a && p b)
      | [] => true
      end && noAdjacent p r
  end.

(** A node whose path is the path of its parent extended by its name,
    and below which names are distinct among siblings and every node is
    such a node under it. *)
Fixpoint wellPlaced (parentPath : jsstr) (n : JsonUtils.HNode) : Prop :=
  match n with
  | JsonUtils.HFile name path _ => path = JsonUtils.extendPath parentPath name
  | JsonUtils.HFolder name path children =>
      path = JsonUtils.extendPath parentPath name
      /\ NoDup (map JsonUtils.nodeName children)
      /\ (fix all (l : list JsonUtils.HNode) : Prop :=
            match l with
            | [] => True
            | c :: r => wellPlaced path c /\ all r
            end) children
  end.

(** The node of a preview tree under the names, from the root down;
    the root stands for a folder. *)
Fixpoint previewAt (names : list JsString.jsstr)
    (children : list (JsString.jsstr * FileConverter.FNode))
  : option FileConverter.FNode :=
  match names with
  | [] => Some (FileConverter.FFolder children)
  | name :: rest =>
      match JsObject.get children name with
      | Some (FileConverter.FFolder sub) => previewAt rest sub
      | Some (FileConverter.FFile fileContent) =>
          match rest with
          | [] => Some (FileConverter.FFile fileContent)
          | _ :: _ => None
          end
      | None => None
      end
  end.

(** The parts of the path of a file. *)
Definition partsOf (file : FileConverter.FileEntry) : list JsString.jsstr :=
  JsString.split JsString.slash (FileConverter.path file).

(** No part but the last is a name objects inherit, and the last is
    not [__proto__]. *)
Fixpoint safeParts (parts : list JsString.jsstr) : bool :=
  match parts with
  | [] => true
  | part :: rest =>
      match rest with
      | [] => negb (JsString.eqb part TreeUtils.protoKey)
      | _ :: _ => negb (FileConverter.inherited part) && safeParts rest
      end
  end.

(** Neither list of parts is the beginning of the other. *)
Definition apart (a b : list JsString.jsstr) : Prop :=
  ~ Spec.isPrefix a b /\ ~ Spec.isPrefix b a.

(** The files of the tree are the files given so far. *)
Definition holds (given : list FileConverter.FileEntry)
    (tree : list (JsString.jsstr * FileConverter.FNode)) : Prop :=
  (forall file, In file given ->
                previewAt (partsOf file) tree
                = Some (FileConverter.FFile (FileConverter.content file)))
  /\ (forall qs c, previewAt qs tree = Some (FileConverter.FFile c) ->
                   exists file, In file given
                                /\ partsOf file = qs
                                /\ FileConverter.content file = c).

Definition dot : N := 46%N.

(** The name up to its first dot. *)
Fixpoint stem (name : jsstr) : jsstr :=
  match name with
  | [] => []
  | c :: r => if N.eqb c dot then [] else c :: stem r
  end.

(** A key that is not empty and has neither slash nor dot, and that
    objects do not inherit when it is to name a folder. *)
Definition plainKey (key : jsstr) (value : JSValue) : Prop :=
  key <> [] /\ ~ In slash key /\ ~ In dot key
  /\ match value with
     | JPrim _ => True
     | _ => FileConverter.inherited key = false
     end.

(** A value all of whose objects have pairwise distinct plain keys. *)
Fixpoint plainKeys (v : JSValue) : Prop :=
  match v with
  | JPrim _ => True
  | JArr items =>
      (fix all (l : list JSValue) : Prop :=
         match l with
         | [] => True
         | x :: r => plainKeys x /\ all r
         end) items
  | JObj props =>
      NoDup (JsObject.keys props)
      /\ (fix all (l : list (jsstr * JSValue)) : Prop :=
            match l with
            | [] => True
            | (key, value) :: r =>
                plainKey key value /\ plainKeys value /\ all r
            end) props
  end.

(** The parts under which [processObject] names the children of
    [data] at [currentPath]. *)
Definition childBase (data : JSValue) (currentPath : jsstr) : list jsstr :=
  match data with
  | JObj _ =>
      if JsString.truthy currentPath then split slash currentPath else []
  | _ => split slash currentPath
  end.

(** The name of the item of an array at the index. *)
Definition itemName (index : nat) : jsstr :=
  str "item_" ++ decimal (N.of_nat index).

(** A file under the base, its first part from there on with a stem
    among the names. *)
Definition filedUnder (base : list jsstr) (names : list jsstr)
    (file : FileConverter.FileEntry) : Prop :=
  exists h tl,
    In (stem h) names
    /\ partsOf file = base ++ h :: tl
    /\ safeParts (h :: tl) = true.

(** [level.find(node => node.name === name)] *)
Definition findNamed (name : jsstr) (level : list JsonUtils.HNode)
  : option JsonUtils.HNode :=
  find (fun node => JsString.eqb (JsonUtils.nodeName node) name) level.

(** The node of a display tree under the names, from the top level
    down. *)
Fixpoint displayAt (names : list jsstr) (level : list JsonUtils.HNode)
  : option JsonUtils.HNode :=
  match names with
  | [] => None
  | name :: rest =>
      match findNamed name level with
      | None => None
      | Some node =>
          match rest with
          | [] => Some node
          | _ :: _ =>
              match node with
              | JsonUtils.HFolder _ _ children => displayAt rest children
              | JsonUtils.HFile _ _ _ => None
              end
          end
      end
  end.

(** The children of the folder of that name, none when there is no
    such folder. *)
Definition childrenOf (name : jsstr) (level : list JsonUtils.HNode)
  : list JsonUtils.HNode :=
  match findNamed name level with
  | Some (JsonUtils.HFolder _ _ children) => children
  | _ => []
  end.

Definition isFileNode (n : JsonUtils.HNode) : bool :=
  match n with
  | JsonUtils.HFile _ _ _ => true
  | JsonUtils.HFolder _ _ _ => false
  end.

(** The node is the file of the entry, under the parts of its key. *)
Definition fileOf (entry : jsstr * JSValue) (n : JsonUtils.HNode) : Prop :=
  exists name path, n = JsonUtils.HFile name path (snd entry).

(** The nodes of the display tree come from the entries given so far:
    each entry has its file, and each node lies on the way to the file
    of an entry, a file node at its end. *)
Definition displays (given : list (jsstr * JSValue))
    (tree : list JsonUtils.HNode) : Prop :=
  (forall entry, In entry given ->
                 exists n, displayAt (split slash (fst entry)) tree = Some n
                           /\ fileOf entry n)
  /\ (forall qs n, displayAt qs tree = Some n ->
                   exists entry,
                     In entry given
                     /\ Spec.isPrefix qs (split slash (fst entry))
                     /\ (isFileNode n = true ->
                         qs = split slash (fst entry) /\ fileOf entry n)).

(** The parts of the key of an entry of the flat map. *)
Definition entryParts (entry : jsstr * JSValue) : list jsstr :=
  split slash (fst entry).

(** Parts that go on from the base with a part whose stem is among the
    names. *)
Definition under (base : list jsstr) (names : list jsstr)
    (parts : list jsstr) : Prop :=
  exists h tl, In (stem h) names /\ parts = base ++ h :: tl.

(** A key that is not empty, has no dot and is left as it is by
    [sanitizeFilename]. *)
Definition cleanKey (key : jsstr) : Prop :=
  key <> [] /\ ~ In dot key /\ JsonUtils.sanitizeFilename key = key.

(** A value all of whose objects have pairwise distinct clean keys. *)
Fixpoint cleanKeys (v : JSValue) : Prop :=
  match v with
  | JPrim _ => True
  | JArr items =>
      (fix all (l : list JSValue) : Prop :=
         match l with
         | [] => True
         | x :: r => cleanKeys x /\ all r
         end) items
  | JObj props =>
      NoDup (JsObject.keys props)
      /\ (fix all (l : list (jsstr * JSValue)) : Prop :=
            match l with
            | [] => True
            | (key, value) :: r => cleanKey key /\ cleanKeys value /\ all r
            end) props
  end.

(** The file nodes and the folder nodes of a display tree. *)
Fixpoint fileNodes (n : JsonUtils.HNode) : nat :=
  match n with
  | JsonUtils.HFile _ _ _ => 1
  | JsonUtils.HFolder _ _ children => list_sum (map fileNodes children)
  end.

Fixpoint folderNodes (n : JsonUtils.HNode) : nat :=
  match n with
  | JsonUtils.HFile _ _ _ => 0
  | JsonUtils.HFolder _ _ children => S (list_sum (map folderNodes children))
  end.

(** The file nodes of a level. *)
Definition filesOf (level : list JsonUtils.HNode) : nat :=
  list_sum (map fileNodes level).

(** The paths of the folders of a node, the node first. *)
Fixpoint folderPaths (n : JsonUtils.HNode) : list jsstr :=
  match n with
  | JsonUtils.HFile _ _ _ => []
  | JsonUtils.HFolder _ path children =>
      path :: flat_map folderPaths children
  end.

(** Every folder of the node has a child. *)
Fixpoint populated (n : JsonUtils.HNode) : Prop :=
  match n with
  | JsonUtils.HFile _ _ _ => True
  | JsonUtils.HFolder _ _ children =>
      children <> []
      /\ (fix all (l : list JsonUtils.HNode) : Prop :=
            match l with
            | [] => True
            | c :: r => populated c /\ all r
            end) children
  end.

(** Whether a node of the level has the name. *)
Definition hasName (part : JsString.jsstr) (level : list JsonUtils.HNode) : bool :=
  existsb (fun node => JsString.eqb (JsonUtils.nodeName node) part) level.

End Measures.

(** * Properties *)

(** ** Strings and property lists *)

Module JsStringFacts.
Import JsString.

Lemma eqb_eq (a b : jsstr) : eqb a b = true <-> a = b.
Proof.
  revert b; induction a as [|x a IH]; intros [|y b]; simpl;
    try (split; [discriminate | congruence]); try tauto.
  rewrite andb_true_iff, N.eqb_eq, IH.
  split; [intros [-> ->]; reflexivity | intros H; injection H; auto].
Qed.

Lemma eqb_refl (a : jsstr) : eqb a a = true.
Proof. apply eqb_eq; reflexivity. Qed.

Lemma eqb_neq (a b : jsstr) : eqb a b = false <-> a <> b.
Proof.
  rewrite <- eqb_eq. destruct (eqb a b); split; congruence.
Qed.

Lemma eqb_sym (a b : jsstr) : eqb a b = eqb b a.
Proof.
  destruct (eqb a b) eqn:E.
  - apply eqb_eq in E; subst; symmetry; apply eqb_refl.
  - symmetry; apply eqb_neq; apply eqb_neq in E; congruence.
Qed.

Lemma eq_dec (a b : jsstr) : {a = b} + {a <> b}.
Proof.
  destruct (eqb a b) eqn:E; [left; apply eqb_eq | right; apply eqb_neq];
    assumption.
Qed.

Lemma ltb_irrefl (a : jsstr) : ltb a a = false.
Proof.
  induction a as [|x a IH]; simpl; [reflexivity|].
  now rewrite N.ltb_irrefl, N.eqb_refl.
Qed.

Lemma ltb_trans (a b c : jsstr) :
  ltb a b = true -> ltb b c = true -> ltb a c = true.
Proof.
  revert b c; induction a as [|x a IH]; intros [|y b] [|z c]; simpl;
    try discriminate; try reflexivity.
  destruct (N.ltb_spec x y), (N.eqb_spec x y), (N.ltb_spec y z),
    (N.eqb_spec y z), (N.ltb_spec x z), (N.eqb_spec x z);
    try discriminate; try reflexivity; try lia.
  apply IH.
Qed.

Lemma ltb_connex (a b : jsstr) :
  ltb a b = false -> ltb b a = false -> a = b.
Proof.
  revert b; induction a as [|x a IH]; intros [|y b]; simpl;
    try discriminate; try reflexivity.
  destruct (N.ltb_spec x y), (N.eqb_spec x y), (N.ltb_spec y x),
    (N.eqb_spec y x); try discriminate; try lia.
  intros H1 H2. subst. f_equal. now apply IH.
Qed.

Lemma leb_total (a b : jsstr) : leb a b = true \/ leb b a = true.
Proof.
  unfold leb. destruct (ltb b a) eqn:E1; [|left; reflexivity].
  destruct (ltb a b) eqn:E2; [|right; reflexivity].
  pose proof (ltb_trans _ _ _ E1 E2) as H. rewrite ltb_irrefl in H.
  discriminate.
Qed.

Lemma leb_antisym (a b : jsstr) :
  leb a b = true -> leb b a = true -> a = b.
Proof.
  unfold leb. intros H1 H2.
  apply negb_true_iff in H1, H2. now apply ltb_connex.
Qed.

Lemma leb_trans (a b c : jsstr) :
  leb a b = true -> leb b c = true -> leb a c = true.
Proof.
  unfold leb. intros H1 H2. apply negb_true_iff in H1, H2.
  apply negb_true_iff. destruct (ltb c a) eqn:E; [|reflexivity].
  destruct (ltb a b) eqn:E2.
  - rewrite (ltb_trans _ _ _ E E2) in H2. discriminate.
  - rewrite <- (ltb_connex _ _ E2 H1) in H2. congruence.
Qed.

End JsStringFacts.

Module JsObjectFacts.
Import JsString JsStringFacts JsObject.

Section Props.
Variable V : Type.
Implicit Types (o : props V) (k : jsstr) (v : V).

Lemma has_In o k : has o k = true <-> In k (keys o).
Proof.
  unfold has. induction o as [|[k' v'] o IH]; simpl.
  - split; [discriminate | tauto].
  - destruct (eqb k' k) eqn:E.
    + apply eqb_eq in E. tauto.
    + apply eqb_neq in E. rewrite IH. tauto.
Qed.

Lemma get_None o k : get o k = None <-> ~ In k (keys o).
Proof.
  rewrite <- has_In. unfold has. destruct (get o k); split; congruence.
Qed.

Lemma get_In o k v : get o k = Some v -> In (k, v) o.
Proof.
  induction o as [|[k' v'] o IH]; simpl; [discriminate|].
  destruct (eqb k' k) eqn:E.
  - apply eqb_eq in E. intros [= ->]. left; congruence.
  - auto.
Qed.

Lemma In_get o k v : NoDup (keys o) -> In (k, v) o -> get o k = Some v.
Proof.
  induction o as [|[k' v'] o IH]; simpl; [tauto|].
  intros ND [H | H]; inversion_clear ND.
  - injection H as -> ->. now rewrite eqb_refl.
  - destruct (eqb k' k) eqn:E; [|auto].
    apply eqb_eq in E; subst. exfalso. apply H0.
    change k with (fst (k, v)). now apply in_map.
Qed.

Lemma keys_replace o k v : keys (replace o k v) = keys o.
Proof.
  induction o as [|[k' v'] o IH]; simpl; [reflexivity|].
  destruct (eqb k' k); simpl; congruence.
Qed.

Lemma get_replace o k v k' :
  get (replace o k v) k' =
  if eqb k k' then (if has o k then Some v else None) else get o k'.
Proof.
  unfold has. induction o as [|[k0 v0] o IH]; simpl.
  - now destruct (eqb k k').
  - destruct (eqb k0 k) eqn:E0; simpl.
    + apply eqb_eq in E0; subst. now destruct (eqb k k').
    + destruct (eqb k0 k') eqn:E1.
      * apply eqb_eq in E1; subst. now rewrite eqb_sym, E0.
      * exact IH.
Qed.

Lemma keys_insertIndex_perm i k v o :
  Permutation (keys (insertIndex i k v o)) (k :: keys o).
Proof.
  induction o as [|[k' v'] o IH]; simpl; [reflexivity|].
  destruct (array_index k') as [i'|]; [|reflexivity].
  destruct (N.ltb i' i); simpl; [|reflexivity].
  rewrite IH. apply perm_swap.
Qed.

Lemma get_insertIndex i k v o k' :
  ~ In k (keys o) ->
  get (insertIndex i k v o) k' = if eqb k k' then Some v else get o k'.
Proof.
  induction o as [|[k0 v0] o IH]; simpl; intros Hk.
  - reflexivity.
  - assert (Hne : eqb k0 k = false) by (apply eqb_neq; tauto).
    destruct (array_index k0) as [i'|]; [|reflexivity].
    destruct (N.ltb i' i); simpl; [|reflexivity].
    destruct (eqb k0 k') eqn:E1.
    + apply eqb_eq in E1; subst. now rewrite eqb_sym, Hne.
    + apply IH. tauto.
Qed.

Lemma get_app o o' k :
  get (o ++ o') k = match get o k with Some v => Some v | None => get o' k end.
Proof.
  induction o as [|[k0 v0] o IH]; simpl; [reflexivity|].
  now destruct (eqb k0 k).
Qed.

(** Reading after writing. *)
Lemma get_set o k v k' :
  get (set o k v) k' = if eqb k k' then Some v else get o k'.
Proof.
  unfold set. destruct (has o k) eqn:Hh.
  - rewrite get_replace, Hh. reflexivity.
  - assert (Hk : ~ In k (keys o)).
    { rewrite <- has_In. congruence. }
    destruct (array_index k).
    + now apply get_insertIndex.
    + rewrite get_app. simpl. destruct (eqb k k') eqn:E.
      * apply eqb_eq in E; subst.
        apply get_None in Hk. now rewrite Hk.
      * now destruct (get o k').
Qed.

Lemma get_set_same o k v : get (set o k v) k = Some v.
Proof. now rewrite get_set, eqb_refl. Qed.

Lemma get_set_other o k v k' : k <> k' -> get (set o k v) k' = get o k'.
Proof. intros H. apply eqb_neq in H. now rewrite get_set, H. Qed.

Lemma keys_set_perm o k v :
  Permutation (keys (set o k v)) (if has o k then keys o else k :: keys o).
Proof.
  unfold set. destruct (has o k).
  - now rewrite keys_replace.
  - destruct (array_index k).
    + apply keys_insertIndex_perm.
    + unfold keys. rewrite map_app. simpl.
      symmetry. apply Permutation_cons_append.
Qed.

Lemma In_keys_set o k v k' :
  In k' (keys (set o k v)) <-> k' = k \/ In k' (keys o).
Proof.
  rewrite <- !has_In. unfold has. rewrite get_set.
  destruct (eqb k k') eqn:E.
  - apply eqb_eq in E. intuition congruence.
  - apply eqb_neq in E. intuition congruence.
Qed.

(** Writing keeps the keys pairwise distinct. *)
Lemma NoDup_keys_set o k v : NoDup (keys o) -> NoDup (keys (set o k v)).
Proof.
  intros ND. eapply Permutation_NoDup.
  - symmetry. apply keys_set_perm.
  - destruct (has o k) eqn:Hh; [assumption|].
    constructor; [|assumption]. rewrite <- has_In. congruence.
Qed.

Lemma In_replace o k v kv :
  In kv (replace o k v) -> kv = (k, v) \/ In kv o.
Proof.
  induction o as [|[k0 v0] o IH]; simpl; [tauto|].
  destruct (eqb k0 k) eqn:E; simpl.
  - apply eqb_eq in E; subst. intuition.
  - intuition.
Qed.

Lemma In_insertIndex i k v o kv :
  In kv (insertIndex i k v o) -> kv = (k, v) \/ In kv o.
Proof.
  induction o as [|[k0 v0] o IH]; simpl; [intuition|].
  destruct (array_index k0) as [i'|]; [|simpl; intuition].
  destruct (N.ltb i' i); simpl; intuition.
Qed.

(** A property list holds, after writing, the pair written and pairs it
    held before. *)
Lemma In_set o k v kv : In kv (set o k v) -> kv = (k, v) \/ In kv o.
Proof.
  unfold set. destruct (has o k); [apply In_replace|].
  destruct (array_index k); [apply In_insertIndex|].
  rewrite in_app_iff. simpl. intuition.
Qed.

Lemma Forall_set (Q : jsstr * V -> Prop) o k v :
  Q (k, v) -> Forall Q o -> Forall Q (set o k v).
Proof.
  intros Hkv Ho. apply Forall_forall. intros kv Hin.
  apply In_set in Hin as [-> | Hin]; [assumption|].
  rewrite Forall_forall in Ho. auto.
Qed.

End Props.

Lemma get_map_values (V W : Type) (f : V -> W) (o : props V) (k : jsstr) :
  get (map (fun kv => (fst kv, f (snd kv))) o) k = option_map f (get o k).
Proof.
  induction o as [|[k' v'] o IH]; simpl; [reflexivity|].
  now destruct (eqb k' k).
Qed.

Lemma keys_map_values (V W : Type) (f : V -> W) (o : props V) :
  keys (map (fun kv => (fst kv, f (snd kv))) o) = keys o.
Proof.
  unfold keys. rewrite map_map. reflexivity.
Qed.

End JsObjectFacts.

(** ** Values *)

Module JsValueFacts.
Import JsString JsValue.

Lemma isDirectory_JObj (v : JSValue) :
  isDirectory v = true <-> exists props, v = JObj props.
Proof.
  destruct v as [[| | |]| |]; simpl; split;
    try discriminate; try (intros [? ?]; discriminate);
    try (intros _; eexists; reflexivity); try reflexivity.
  all: unfold isDirectory; simpl; rewrite ?andb_false_r; discriminate.
Qed.

Lemma isDirectory_prim (p : Prim) : isDirectory (JPrim p) = false.
Proof.
  destruct p; unfold isDirectory; simpl; rewrite ?andb_false_r; reflexivity.
Qed.

End JsValueFacts.

(** ** Statistics *)

Section Stats.
Import JsValue TreeUtils.

(** C1: the statistics record holds the three standalone results, and
    its total is the number of files plus the number of directories. *)
Theorem getTreeStats_fields (t : JSValue) :
  totalNodes (getTreeStats t) = countTreeFiles t + countTreeDirectories t
  /\ files (getTreeStats t) = countTreeFiles t
  /\ directories (getTreeStats t) = countTreeDirectories t
  /\ depth (getTreeStats t) = getTreeDepth t.
Proof. repeat split. Qed.

End Stats.

(** ** The builders on small inputs *)

Section Builders.
Import JsString JsValue TreeUtils JsonUtils FileConverter.

Let hello : jsstr := str "hello".

(** C2, as stated, fails: for the bare string hello neither builder
    yields the single file data.json holding the quoted string. *)
Lemma root_scalar_not_json :
  generateFileStructure (JStr hello) []
    <> [ {| path := str "data.json"; content := stringify (PStr hello) |} ]
  /\ createFileTree (JStr hello) []
    <> JObj [ (str "data.json", JStr (stringify (PStr hello))) ].
Proof. split; discriminate. Qed.

(** C2, amended: for the bare string hello both builders yield exactly
    one file, data.txt, whose content is the string itself. *)
Theorem root_scalar_txt :
  generateFileStructure (JStr hello) []
    = [ {| path := str "data.txt"; content := hello |} ]
  /\ createFileTree (JStr hello) [] = JObj [ (str "data.txt", JStr hello) ].
Proof. split; reflexivity. Qed.

Lemma startsWithSlash_app (p q : jsstr) :
  Spec.startsWithSlash p = true -> Spec.startsWithSlash (p ++ q) = true.
Proof. destruct p; [discriminate | trivial]. Qed.

Lemma startsWithSlash_truthy (p : jsstr) :
  Spec.startsWithSlash p = true -> JsString.truthy p = true.
Proof. destruct p; [discriminate | reflexivity]. Qed.

(** Below a path that starts with a slash, [processObject] pushes only
    paths that start with a slash. *)
Lemma processObject_below_slash (data : JSValue) :
  forall currentPath files,
    Spec.startsWithSlash currentPath = true ->
    Forall (fun f => Spec.startsWithSlash (path f) = true) files ->
    Forall (fun f => Spec.startsWithSlash (path f) = true)
           (processObject data currentPath files).
Proof.
  induction data as [p|items IH|props IH] using JSValue_ind;
    intros currentPath files Hcp Hfiles.
  - simpl. rewrite (startsWithSlash_truthy _ Hcp).
    apply Forall_app. split; [exact Hfiles|]. repeat constructor.
    simpl. now apply startsWithSlash_app.
  - simpl. generalize 0%nat as index. revert files Hfiles.
    induction IH as [|item r Hitem _ IHr]; intros files Hfiles index;
      [exact Hfiles|].
    apply IHr.
    assert (Hitem_path :
              Spec.startsWithSlash
                (currentPath ++ str "/item_" ++ decimal (N.of_nat index))
              = true) by now apply startsWithSlash_app.
    destruct item; [|now apply Hitem ..].
    apply Forall_app. split; [exact Hfiles|]. repeat constructor.
    simpl path. now apply startsWithSlash_app.
  - simpl. revert files Hfiles.
    induction IH as [|[key value] r Hvalue _ IHr]; intros files Hfiles;
      [exact Hfiles|].
    apply IHr. rewrite (startsWithSlash_truthy _ Hcp).
    assert (Hnew : Spec.startsWithSlash (currentPath ++ slash :: key) = true)
      by now apply startsWithSlash_app.
    simpl in Hvalue.
    destruct value; [|now apply Hvalue ..].
    apply Forall_app. split; [exact Hfiles|]. repeat constructor.
    simpl path. now apply startsWithSlash_app.
Qed.

(** The same for the keys [processNode] writes. *)
Lemma processNode_below_slash (obj : JSValue) :
  forall currentPath fileTree,
    Spec.startsWithSlash currentPath = true ->
    Forall (fun kv => Spec.startsWithSlash (fst kv) = true) fileTree ->
    Forall (fun kv => Spec.startsWithSlash (fst kv) = true)
           (processNode obj currentPath fileTree).
Proof.
  induction obj as [p|items IH|props IH] using JSValue_ind;
    intros currentPath fileTree Hcp Hft.
  - simpl. rewrite (startsWithSlash_truthy _ Hcp).
    apply JsObjectFacts.Forall_set; [|exact Hft].
    simpl. now apply startsWithSlash_app.
  - simpl. generalize 0%nat as index. revert fileTree Hft.
    induction IH as [|item r Hitem _ IHr]; intros fileTree Hft index;
      [exact Hft|].
    apply IHr.
    assert (Hitem_path :
              Spec.startsWithSlash
                (currentPath ++ str "/item_" ++ decimal (N.of_nat index))
              = true) by now apply startsWithSlash_app.
    destruct item; [|now apply Hitem ..].
    apply JsObjectFacts.Forall_set; [|exact Hft].
    simpl fst. now apply startsWithSlash_app.
  - simpl. revert fileTree Hft.
    induction IH as [|[key value] r Hvalue _ IHr]; intros fileTree Hft;
      [exact Hft|].
    apply IHr. rewrite (startsWithSlash_truthy _ Hcp).
    assert (Hnew : Spec.startsWithSlash
                     (currentPath ++ slash :: sanitizeFilename key) = true)
      by now apply startsWithSlash_app.
    simpl in Hvalue.
    destruct value; [|now apply Hvalue ..].
    apply JsObjectFacts.Forall_set; [|exact Hft].
    simpl fst. now apply startsWithSlash_app.
Qed.

Lemma processObject_array_slash (items : list JSValue) :
  forall files,
    Forall (fun f => Spec.startsWithSlash (path f) = true) files ->
    Forall (fun f => Spec.startsWithSlash (path f) = true)
           (processObject (JArr items) [] files).
Proof.
  simpl. generalize 0%nat as index.
  induction items as [|item r IH]; intros index files Hfiles; [exact Hfiles|].
  apply IH. destruct item.
  - apply Forall_app. split; [exact Hfiles|]. repeat constructor.
  - now apply processObject_below_slash.
  - now apply processObject_below_slash.
Qed.

Lemma processNode_array_slash (items : list JSValue) :
  forall fileTree,
    Forall (fun kv => Spec.startsWithSlash (fst kv) = true) fileTree ->
    Forall (fun kv => Spec.startsWithSlash (fst kv) = true)
           (processNode (JArr items) [] fileTree).
Proof.
  simpl. generalize 0%nat as index.
  induction items as [|item r IH]; intros index fileTree Hft; [exact Hft|].
  apply IH. destruct item.
  - apply JsObjectFacts.Forall_set; [reflexivity | exact Hft].
  - now apply processNode_below_slash.
  - now apply processNode_below_slash.
Qed.

(** C3 at top-level arrays: every path either builder produces for an
    array starts with a slash; for the array [[1]] the only path is
    /item_0.txt, while under an object key the same element gets a path
    without a leading slash. *)
Theorem top_level_array_leading_slash :
  (forall items,
      Forall (fun f => Spec.startsWithSlash (path f) = true)
             (generateFileStructure (JArr items) [])
      /\ Forall (fun kv => Spec.startsWithSlash (fst kv) = true)
                (ownProps (createFileTree (JArr items) [])))
  /\ generateFileStructure (JArr [JNum 1]) []
     = [ {| path := str "/item_0.txt"; content := str "1" |} ]
  /\ createFileTree (JArr [JNum 1]) []
     = JObj [ (str "/item_0.txt", JStr (str "1")) ]
  /\ generateFileStructure (JObj [ (str "k", JArr [JNum 1]) ]) []
     = [ {| path := str "k/item_0.txt"; content := str "1" |} ].
Proof.
  split; [|repeat split; reflexivity].
  intros items. split.
  - apply processObject_array_slash. constructor.
  - apply processNode_array_slash. constructor.
Qed.

End Builders.

(** ** Sanitizing *)

Section Sanitize.
Import JsString JsonUtils.

Lemma trimStart_no_space (s : jsstr) :
  Forall (fun c => is_space c = false) s -> trimStart s = s.
Proof.
  intros H; destruct H as [|c r Hc _]; simpl; [reflexivity|].
  now rewrite Hc.
Qed.

Lemma trim_no_space (s : jsstr) :
  Forall (fun c => is_space c = false) s -> trim s = s.
Proof.
  intros H. unfold trim. rewrite (trimStart_no_space H).
  rewrite trimStart_no_space, rev_involutive; [reflexivity|].
  apply Forall_rev; assumption.
Qed.

(** Replacing the runs of a class leaves no unit of that class, as long
    as the underscore is not one of them. *)
Lemma replaceRuns_removes (p : N -> bool) (s : jsstr) :
  p underscore = false ->
  Forall (fun c => p c = false) (replaceRuns p s).
Proof.
  intros Hu. induction s as [|c r IH]; simpl; [constructor|].
  destruct (p c) eqn:Hc.
  - destruct r as [|d r']; [repeat constructor; assumption|].
    destruct (p d); [assumption | constructor; assumption].
  - constructor; assumption.
Qed.

(** Replacing runs keeps every property that the input units and the
    underscore share. *)
Lemma replaceRuns_keeps (p : N -> bool) (Q : N -> Prop) (s : jsstr) :
  Q underscore -> Forall Q s -> Forall Q (replaceRuns p s).
Proof.
  intros Hu H. induction H as [|c r Hc Hr IH]; simpl; [constructor|].
  destruct (p c).
  - destruct r as [|d r']; [repeat constructor; assumption|].
    destruct (p d); [assumption | constructor; assumption].
  - constructor; assumption.
Qed.

(** The final [trim] never removes anything: the white space is gone
    before it runs. *)
Lemma sanitizeFilename_trim_idle (filename : jsstr) :
  sanitizeFilename filename =
  replaceRuns isUnderscore
    (replaceRuns is_space (replaceEach isReserved filename)).
Proof.
  unfold sanitizeFilename. apply trim_no_space.
  apply replaceRuns_keeps; [reflexivity|].
  apply replaceRuns_removes. reflexivity.
Qed.

(** White space at the start of a name comes out as an underscore. *)
Lemma sanitizeFilename_leading_space (c : N) (s : jsstr) :
  is_space c = true ->
  exists r, sanitizeFilename (c :: s) = underscore :: r.
Proof.
  intros Hc. rewrite sanitizeFilename_trim_idle.
  assert (Hr : isReserved c = false).
  { unfold is_space, isReserved in *.
    repeat match goal with
           | |- context [N.eqb c ?n] => destruct (N.eqb_spec c n); [subst; discriminate|]
           end. reflexivity. }
  unfold replaceEach. cbn [map]. rewrite Hr. fold (replaceEach isReserved s).
  assert (Hhead : forall t a, is_space a = true -> exists t',
             replaceRuns is_space (a :: t) = underscore :: t').
  { induction t as [|d t IH]; intros a Ha.
    - simpl. rewrite Ha. eexists; reflexivity.
    - simpl. rewrite Ha. destruct (is_space d) eqn:Hd.
      + destruct (IH d Hd) as [t' Ht'].
        simpl in Ht'. rewrite Hd in Ht'. eexists; exact Ht'.
      + eexists; reflexivity. }
  destruct (Hhead (replaceEach isReserved s) c Hc) as [t' ->].
  assert (Hund : forall t, exists t',
             replaceRuns isUnderscore (underscore :: t) = underscore :: t').
  { induction t as [|d t IH].
    - eexists; reflexivity.
    - cbn [replaceRuns]. change (isUnderscore underscore) with true. cbv iota.
      destruct (isUnderscore d) eqn:Hd.
      + apply N.eqb_eq in Hd; subst d. exact IH.
      + eexists; reflexivity. }
  exact (Hund t').
Qed.

(** C4: the final trim is idle, the white space having been replaced
    before it runs; so for the name [" a "] the white space around it
    comes out as underscores, which stay; the name ["my:key name"]
    becomes my_key_name. *)
Theorem sanitizeFilename_keeps_outer_underscores :
  (forall filename,
      sanitizeFilename filename
      = replaceRuns isUnderscore
          (replaceRuns is_space (replaceEach isReserved filename)))
  /\ sanitizeFilename (str " a ") = str "_a_"
  /\ sanitizeFilename (str "my:key name") = str "my_key_name".
Proof.
  split; [exact sanitizeFilename_trim_idle | split; reflexivity].
Qed.

End Sanitize.

(** ** Validation *)

Section Validation.
Import JsString JsValue JsValueFacts TreeUtils.

Lemma isValidTree_plain_object (v : JSValue) :
  isValidTree v = match v with JObj _ => true | _ => false end.
Proof.
  induction v as [p|items _|props IH] using JSValue_ind.
  - destruct p; cbn; rewrite ?orb_true_r; reflexivity.
  - reflexivity.
  - cbn [isValidTree truthy typeofObject isArray negb orb].
    induction IH as [|[key value] r Hv _ IHr]; [reflexivity|].
    rewrite IHr, andb_true_r. simpl in Hv.
    destruct (isDirectory value) eqn:Hd; [|reflexivity].
    apply isDirectory_JObj in Hd as [ps ->]. exact Hv.
Qed.

(** C8, as stated, fails: an object holding an array is accepted although
    the array is neither a valid tree nor a leaf that is not an object. *)
Lemma isValidTree_accepts_array_leaf :
  ~ (forall v, isValidTree v = true <-> Spec.describedValid v = true).
Proof.
  intros H.
  specialize (H (JObj [(str "a", JArr [JNum 1])])).
  destruct H as [H _]. specialize (H eq_refl). discriminate H.
Qed.

(** C8, amended: the validator accepts exactly the plain objects; it
    rejects every array and every primitive, accepts the empty object,
    and is defined on every value. *)
Theorem isValidTree_iff_plain_object :
  (forall v, isValidTree v = true <-> exists props, v = JObj props)
  /\ (forall items, isValidTree (JArr items) = false)
  /\ (forall p, isValidTree (JPrim p) = false)
  /\ isValidTree (JObj []) = true.
Proof.
  repeat split; try (intros; rewrite isValidTree_plain_object; reflexivity).
  - rewrite isValidTree_plain_object.
    destruct v; try discriminate. intros _. eexists; reflexivity.
  - intros [props ->]. apply isValidTree_plain_object.
Qed.

End Validation.

(** ** Lookup by path *)

Section Lookup.
Import JsString JsValue TreeUtils.



Lemma walkParts_resolves (parts : list jsstr) (t v : JSValue) :
  Spec.resolves t parts v -> walkParts parts t = Some v.
Proof.
  induction 1 as [|t part rest next v Ht Ho Hp _ IH]; simpl; [reflexivity|].
  now rewrite Ht, Ho, Hp.
Qed.



(** A name of [Object.prototype] that the tree does not have itself:
    the lookup does not answer with null, it leaves the model. *)
Lemma findNodeByPath_inherited :
  findNodeByPath (JObj [(str "a", JObj [(str "b", JNum 1)])]) (str "toString")
  = None
  /\ findNodeByPath (JObj [(str "a", JObj [(str "b", JNum 1)])])
                    (str "a/__proto__")
     = None
  /\ findNodeByPath (JObj [(str "a", JObj [(str "b", JNum 1)])]) (str "a/c")
     = Some JNull.
Proof. repeat split; reflexivity. Qed.



End Lookup.

(** ** The flat file map *)

Section FlatMap.
Import JsString JsValue JsValueFacts JsObjectFacts TreeUtils JsonUtils FileConverter.

(** Whatever holds of the map and survives the writing of a string
    holds of the map after [processNode]. *)
Lemma processNode_invariant (P : list (jsstr * JSValue) -> Prop) :
  (forall fileTree k s, P fileTree -> P (JsObject.set fileTree k (JStr s))) ->
  forall obj currentPath fileTree,
    P fileTree -> P (processNode obj currentPath fileTree).
Proof.
  intros Hset obj.
  induction obj as [p|items IH|props IH] using JSValue_ind;
    intros currentPath fileTree Hft.
  - simpl. apply Hset, Hft.
  - simpl. generalize 0%nat as index. revert fileTree Hft.
    induction IH as [|item r Hitem _ IHr]; intros fileTree Hft index;
      [exact Hft|].
    apply IHr. destruct item; [apply Hset, Hft | apply Hitem, Hft ..].
  - simpl. revert fileTree Hft.
    induction IH as [|[key value] r Hvalue _ IHr]; intros fileTree Hft;
      [exact Hft|].
    apply IHr. simpl in Hvalue.
    destruct value; [apply Hset, Hft | apply Hvalue, Hft ..].
Qed.

Lemma getFilePathsIn_flat (fileTree : list (jsstr * JSValue)) :
  Forall (fun kv => isDirectory (snd kv) = false) fileTree ->
  getFilePathsIn (JObj fileTree) [] = JsObject.keys fileTree.
Proof.
  induction 1 as [|[key value] r Hv _ IH]; [reflexivity|].
  simpl in Hv |- *. rewrite Hv. simpl. f_equal. exact IH.
Qed.

(** C7, as stated, fails: the file list of the converter component holds
    the path a/b.json twice for an object with the keys a (holding b) and
    a/b; and two keys with one sanitized form leave a single entry in the
    flat map, the second value having overwritten the first. *)
Lemma file_paths_collide :
  ~ (forall v, NoDup (map path (generateFileStructure v [])))
  /\ generateFileStructure
       (JObj [(str "a", JObj [(str "b", JNum 1)]); (str "a/b", JNum 2)]) []
     = [ {| path := str "a/b.json"; content := str "1" |};
         {| path := str "a/b.json"; content := str "2" |} ]
  /\ createFileTree (JObj [(str "a b", JNum 1); (str "a_b", JNum 2)]) []
     = JObj [(str "a_b.txt", JStr (str "2"))].
Proof.
  split; [|split; reflexivity].
  intros H.
  specialize (H (JObj [(str "a", JObj [(str "b", JNum 1)]);
                       (str "a/b", JNum 2)])).
  inversion H as [|x l Hnotin _]. apply Hnotin. left. reflexivity.
Qed.

(** C7, amended: the file paths read off the flat map of [createFileTree]
    are the keys of that map and are pairwise distinct, a path produced
    twice being written twice to the same key. *)
Theorem createFileTree_paths_distinct (v : JSValue) (basePath : jsstr) :
  getFilePaths (createFileTree v basePath) []
    = JsObject.keys (processNode v basePath [])
  /\ NoDup (getFilePaths (createFileTree v basePath) []).
Proof.
  assert (Hpaths : getFilePaths (createFileTree v basePath) []
                   = JsObject.keys (processNode v basePath [])).
  { unfold getFilePaths, createFileTree. cbn [asObject].
    apply getFilePathsIn_flat.
    apply processNode_invariant; [|constructor].
    intros fileTree k s Hft. apply Forall_set; [|exact Hft].
    apply isDirectory_prim. }
  split; [exact Hpaths|]. rewrite Hpaths.
  apply processNode_invariant
    with (P := fun fileTree => NoDup (JsObject.keys fileTree));
    [|constructor].
  intros fileTree k s. apply NoDup_keys_set.
Qed.

End FlatMap.

(** ** Trees built from paths *)

Section PathInsertion.
Import JsString JsStringFacts JsValue JsValueFacts JsObjectFacts TreeUtils.
Import Spec.

Lemma properNames_PDir (children : list (jsstr * PathTree)) :
  properNames (PDir children) <->
  NoDup (JsObject.keys children)
  /\ Forall (fun kv => fst kv <> protoKey /\ properNames (snd kv)) children.
Proof.
  simpl. apply and_iff_compat_l.
  induction children as [|[k m] r IH]; simpl.
  - split; [constructor | trivial].
  - rewrite IH. split.
    + intros [Hm Hr]; constructor; assumption.
    + intros H; inversion_clear H; split; assumption.
Qed.

Lemma lookupPath_nil_children (parts : list jsstr) :
  lookupPath parts [] <> Some PFile.
Proof. destruct parts; simpl; discriminate. Qed.

Lemma insertParts_step c p p2 rest cur :
  eqb p protoKey = false ->
  JsObject.get cur p <> Some PFile ->
  insertParts c (p :: p2 :: rest) cur =
  option_map (fun sub => JsObject.set cur p (PDir sub))
    (insertParts c (p2 :: rest)
       (match JsObject.get cur p with Some (PDir s) => s | _ => [] end)).
Proof.
  intros Hp Hget.
  destruct (JsObject.get cur p) as [[|s]|] eqn:E; [congruence| |];
    simpl; rewrite Hp, E; reflexivity.
Qed.

(** What one path does to the tree, when no file stands on its way: the
    path ends at a file, nothing is left below it, the names above it are
    directories, and every path that parts from it leads where it led. *)
Lemma insertParts_effect (c : JSValue) (parts : list jsstr) :
  forall cur,
    parts <> [] ->
    ~ In protoKey parts ->
    (forall r more, parts = r ++ more -> more <> [] ->
                    lookupPath r cur <> Some PFile) ->
    exists cur',
      insertParts c parts cur = Some cur'
      /\ lookupPath parts cur' = Some PFile
      /\ (forall more, more <> [] -> lookupPath (parts ++ more) cur' = None)
      /\ (forall r more, parts = r ++ more -> more <> [] ->
                         exists d, lookupPath r cur' = Some (PDir d))
      /\ (forall qs, ~ isPrefix qs parts -> ~ isPrefix parts qs ->
                     lookupPath qs cur' = lookupPath qs cur).
Proof.
  induction parts as [|p rest IH]; intros cur Hne Hproto Hfree; [congruence|].
  assert (Hp : eqb p protoKey = false).
  { apply eqb_neq. intros ->. apply Hproto. left; reflexivity. }
  destruct rest as [|p2 rest'].
  - exists (JsObject.set cur p PFile).
    split; [simpl; rewrite Hp; reflexivity|].
    split; [simpl; rewrite get_set_same; reflexivity|].
    split; [|split].
    + intros [|m more] Hm; [congruence|].
      simpl. rewrite get_set_same. reflexivity.
    + intros [|x r] more Heq Hm.
      * eexists; reflexivity.
      * injection Heq as _ Heq. destruct r; [|discriminate].
        simpl in Heq. congruence.
    + intros [|q qs] Hn1 Hn2.
      * exfalso. apply Hn1. exists [p]. reflexivity.
      * simpl. rewrite get_set_other; [reflexivity|].
        intros <-. apply Hn2. exists qs. reflexivity.
  - assert (Hget : JsObject.get cur p <> Some PFile).
    { intros E. apply (Hfree [p] (p2 :: rest') eq_refl); [discriminate|].
      simpl. now rewrite E. }
    rewrite insertParts_step by assumption.
    set (sub := match JsObject.get cur p with
                | Some (PDir s) => s
                | _ => []
                end).
    assert (Hsub : forall qs, qs <> [] ->
                     lookupPath (p :: qs) cur = lookupPath qs sub).
    { intros qs Hqs. simpl. subst sub.
      destruct (JsObject.get cur p) as [[|s]|]; [congruence|reflexivity|].
      destruct qs; [congruence | reflexivity]. }
    destruct (IH sub) as (sub' & Hins & Ha & Hb & Hc & Hd).
    + discriminate.
    + intros Hin. apply Hproto. right; exact Hin.
    + intros r more Heq Hm.
      destruct r as [|x r'].
      * simpl. discriminate.
      * rewrite <- Hsub by discriminate.
        apply (Hfree (p :: x :: r') more); [|exact Hm].
        simpl. f_equal. exact Heq.
    + rewrite Hins. cbn [option_map].
      exists (JsObject.set cur p (PDir sub')).
      split; [reflexivity|].
      assert (Hlook : forall qs, lookupPath (p :: qs)
                                   (JsObject.set cur p (PDir sub'))
                                 = lookupPath qs sub').
      { intros qs. simpl. now rewrite get_set_same. }
      split; [rewrite Hlook; exact Ha|].
      split; [|split].
      * intros more Hm. rewrite <- app_comm_cons, Hlook. now apply Hb.
      * intros [|x r] more Heq Hm.
        -- eexists; reflexivity.
        -- injection Heq as <- Heq. rewrite Hlook. now apply (Hc r more).
      * intros [|q qs] Hn1 Hn2.
        -- exfalso. apply Hn1. eexists. reflexivity.
        -- destruct (eq_dec q p) as [->|Hq].
           ++ rewrite Hlook.
              assert (Hqs : qs <> []).
              { intros ->. apply Hn1. exists (p2 :: rest'). reflexivity. }
              rewrite (Hsub qs Hqs). apply Hd.
              ** intros [m Hm]. apply Hn1. exists m. simpl. now f_equal.
              ** intros [m Hm]. apply Hn2. exists m. simpl. now f_equal.
           ++ simpl. rewrite get_set_other; [reflexivity | congruence].
Qed.

Lemma insertParts_unfold c p p2 rest cur :
  insertParts c (p :: p2 :: rest) cur =
  if eqb p protoKey then None
  else
    match JsObject.get cur p with
    | Some (PDir children) =>
        option_map (fun sub => JsObject.set cur p (PDir sub))
                   (insertParts c (p2 :: rest) children)
    | Some PFile =>
        if negb (truthy c) || negb (typeofObject c)
        then option_map (fun sub => JsObject.set cur p (PDir sub))
                        (insertParts c (p2 :: rest) [])
        else None
    | None =>
        option_map (fun sub => JsObject.set cur p (PDir sub))
                   (insertParts c (p2 :: rest) [])
    end.
Proof. reflexivity. Qed.

Lemma properNames_empty : properNames (PDir []).
Proof. rewrite properNames_PDir. split; constructor. Qed.

Lemma properNames_set cur p n :
  p <> protoKey -> properNames n ->
  properNames (PDir cur) -> properNames (PDir (JsObject.set cur p n)).
Proof.
  rewrite !properNames_PDir. intros Hp Hn [ND HF]. split.
  - now apply NoDup_keys_set.
  - apply Forall_set; [split; assumption | exact HF].
Qed.

Lemma properNames_get cur p n :
  properNames (PDir cur) -> JsObject.get cur p = Some n ->
  p <> protoKey /\ properNames n.
Proof.
  rewrite properNames_PDir. intros [_ HF] E.
  apply get_In in E. rewrite Forall_forall in HF. exact (HF _ E).
Qed.

(** Every walk that stays in the model keeps the names proper. *)
Lemma insertParts_properNames (c : JSValue) (parts : list jsstr) :
  forall cur cur',
    insertParts c parts cur = Some cur' ->
    properNames (PDir cur) -> properNames (PDir cur').
Proof.
  induction parts as [|p rest IH]; intros cur cur' Hins Hcur.
  - simpl in Hins. congruence.
  - destruct rest as [|p2 rest'].
    + simpl in Hins. destruct (eqb p protoKey) eqn:Hp.
      * destruct c as [[| | |]| |]; congruence.
      * injection Hins as <-. apply eqb_neq in Hp.
        apply properNames_set; [assumption | exact I | assumption].
    + rewrite insertParts_unfold in Hins.
      destruct (eqb p protoKey) eqn:Hp; [discriminate|].
      apply eqb_neq in Hp.
      assert (Hstep : forall children,
                 properNames (PDir children) ->
                 option_map (fun sub => JsObject.set cur p (PDir sub))
                            (insertParts c (p2 :: rest') children) = Some cur' ->
                 properNames (PDir cur')).
      { intros children Hch Hmap.
        destruct (insertParts c (p2 :: rest') children) as [sub|] eqn:Hsub;
          [|discriminate].
        injection Hmap as <-.
        apply properNames_set; [assumption | | assumption].
        eapply IH; eassumption. }
      destruct (JsObject.get cur p) as [[|children]|] eqn:E.
      * destruct (negb (truthy c) || negb (typeofObject c)); [|discriminate].
        exact (Hstep [] properNames_empty Hins).
      * apply (Hstep children); [|exact Hins].
        eapply properNames_get; eassumption.
      * exact (Hstep [] properNames_empty Hins).
Qed.

Lemma addPath_properNames c acc path cur' :
  (forall cur, acc = Some cur -> properNames (PDir cur)) ->
  addPath c acc path = Some cur' -> properNames (PDir cur').
Proof.
  intros Hacc. unfold addPath. destruct acc as [cur|]; [|discriminate].
  specialize (Hacc cur eq_refl).
  destruct (negb (truthy path) || negb (typeofString path)).
  - intros [= <-]. exact Hacc.
  - destruct path as [[| | |s]| |]; try (intros [= <-]; exact Hacc).
    intros Hins. eapply insertParts_properNames; eassumption.
Qed.

Lemma buildPaths_properNames c paths cur :
  buildPaths paths c = Some cur -> properNames (PDir cur).
Proof.
  unfold buildPaths.
  assert (H : forall acc,
             (forall a, acc = Some a -> properNames (PDir a)) ->
             fold_left (addPath c) paths acc = Some cur ->
             properNames (PDir cur)).
  { induction paths as [|path paths IH]; intros acc Hacc; simpl.
    - intros E. exact (Hacc _ E).
    - apply IH. intros a Ha. eapply addPath_properNames; eassumption. }
  apply H. intros a [= <-]. exact properNames_empty.
Qed.

Lemma lookupPath_not_proto (parts : list jsstr) :
  forall cur n,
    properNames (PDir cur) -> lookupPath parts cur = Some n ->
    ~ In protoKey parts.
Proof.
  induction parts as [|p rest IH]; intros cur n Hcur Hlook; [simpl; tauto|].
  simpl in Hlook.
  destruct (JsObject.get cur p) as [m|] eqn:E; [|discriminate].
  destruct (@properNames_get cur p m Hcur E) as [Hp Hm].
  intros [Heq | Hin]; [congruence|].
  destruct m as [|sub].
  - destruct rest; [exact Hin | discriminate].
  - eapply IH; eassumption.
Qed.

(** Nothing lies below a file. *)
Lemma lookupPath_below_file (r more : list jsstr) :
  forall cur,
    lookupPath r cur = Some PFile -> more <> [] ->
    lookupPath (r ++ more) cur = None.
Proof.
  induction r as [|x r IH]; intros cur Hr Hm; [discriminate|].
  simpl in Hr |- *.
  destruct (JsObject.get cur x) as [[|sub]|]; [| |discriminate].
  - destruct r; [|discriminate]. simpl. destruct more; congruence.
  - now apply IH.
Qed.

Lemma reify_PDir c children :
  reify c (PDir children) =
  JObj (map (fun kv => (fst kv, reify c (snd kv))) children).
Proof.
  simpl. f_equal.
  induction children as [|[k n] r IH]; [reflexivity|].
  simpl. now rewrite IH.
Qed.

(** A node of the tree under construction is found, in the object
    returned, under the same names. *)
Lemma lookupPath_resolves c (parts : list jsstr) :
  forall cur n,
    lookupPath parts cur = Some n ->
    resolves (reify c (PDir cur)) parts (reify c n).
Proof.
  induction parts as [|p rest IH]; intros cur n Hlook; simpl in Hlook.
  - injection Hlook as <-. constructor.
  - destruct (JsObject.get cur p) as [m|] eqn:E; [|discriminate].
    apply resolves_step with (next := reify c m).
    + rewrite reify_PDir. reflexivity.
    + rewrite reify_PDir. reflexivity.
    + rewrite reify_PDir. cbn [getProperty].
      rewrite get_map_values, E. reflexivity.
    + destruct m as [|sub].
      * destruct rest; [|discriminate]. injection Hlook as <-. constructor.
      * apply IH; assumption.
Qed.

(** C10: when the parts of a later path lead to a directory of the tree
    built so far, the walk of that path succeeds and leaves a file there:
    nothing remains below it, and the object returned holds
    [defaultContent] under these names. *)
Theorem createTreeFromPaths_file_replaces_directory
    (c : JSValue) (paths : list JSValue) (s : jsstr)
    (cur sub : list (jsstr * PathTree)) :
  buildPaths paths c = Some cur ->
  pathParts s <> [] ->
  lookupPath (pathParts s) cur = Some (PDir sub) ->
  exists cur',
    buildPaths (paths ++ [JStr s]) c = Some cur'
    /\ lookupPath (pathParts s) cur' = Some PFile
    /\ (forall more, more <> [] ->
                     lookupPath (pathParts s ++ more) cur' = None)
    /\ createTreeFromPaths (paths ++ [JStr s]) c
       = Some (reify c (PDir cur'))
    /\ resolves (reify c (PDir cur')) (pathParts s) c.
Proof.
  intros Hbuild Hparts Hdir.
  assert (Hs : JsString.truthy s = true).
  { destruct s; [|reflexivity]. exfalso. apply Hparts. reflexivity. }
  destruct (@insertParts_effect c (pathParts s) cur Hparts)
    as (cur' & Hins & Hfile & Hbelow & _).
  - eapply lookupPath_not_proto; [eapply buildPaths_properNames|]; eassumption.
  - intros r more Heq Hm Hr.
    pose proof (@lookupPath_below_file r more cur Hr Hm) as Hnone.
    rewrite <- Heq, Hdir in Hnone. discriminate.
  - assert (Hnew : buildPaths (paths ++ [JStr s]) c = Some cur').
    { unfold buildPaths in *. rewrite fold_left_app, Hbuild.
      simpl. rewrite Hs. exact Hins. }
    exists cur'. repeat split; try assumption.
    + unfold createTreeFromPaths. rewrite Hnew. reflexivity.
    + apply lookupPath_resolves with (n := PFile). exact Hfile.
Qed.

(** The paths a/b and then a: the directory a, with b in it, gives way
    to a file. *)
Lemma createTreeFromPaths_file_replaces_directory_witness :
  exists cur',
    buildPaths ([JStr (str "a/b")] ++ [JStr (str "a")]) (JStr []) = Some cur'
    /\ lookupPath (pathParts (str "a")) cur' = Some PFile
    /\ (forall more, more <> [] ->
                     lookupPath (pathParts (str "a") ++ more) cur' = None)
    /\ createTreeFromPaths ([JStr (str "a/b")] ++ [JStr (str "a")]) (JStr [])
       = Some (reify (JStr []) (PDir cur'))
    /\ resolves (reify (JStr []) (PDir cur')) (pathParts (str "a")) (JStr []).
Proof.
  apply (@createTreeFromPaths_file_replaces_directory
           (JStr []) [JStr (str "a/b")] (str "a")
           [(str "a", PDir [(str "b", PFile)])] [(str "b", PFile)]).
  - reflexivity.
  - discriminate.
  - reflexivity.
Defined.

End PathInsertion.

(** ** File paths and the names that lead to files *)

Section FilePaths.
Import JsString JsStringFacts JsValue JsValueFacts JsObjectFacts TreeUtils.
Import Spec.

Lemma split_not_nil (sep : N) (s : jsstr) : split sep s <> [].
Proof.
  induction s as [|c s IH]; simpl; [discriminate|].
  destruct (N.eqb c sep); [discriminate|].
  destruct (split sep s); discriminate.
Qed.

Lemma split_app (sep : N) (a b : jsstr) :
  split sep (a ++ sep :: b) = split sep a ++ split sep b.
Proof.
  induction a as [|c a IH]; simpl.
  - now rewrite N.eqb_refl.
  - destruct (N.eqb c sep); [now rewrite IH|].
    rewrite IH. pose proof (split_not_nil sep a) as Hne.
    destruct (split sep a); [congruence | reflexivity].
Qed.

Lemma split_without_separator (sep : N) (k : jsstr) :
  ~ In sep k -> split sep k = [k].
Proof.
  induction k as [|c k IH]; simpl; intros H; [reflexivity|].
  destruct (N.eqb_spec c sep) as [->|_]; [tauto|].
  rewrite IH by tauto. reflexivity.
Qed.

Lemma pathParts_childPath (basePath k : jsstr) :
  segmentName k -> pathParts (childPath basePath k) = pathParts basePath ++ [k].
Proof.
  intros (Hne & Hslash & _). unfold childPath, pathParts.
  destruct basePath as [|c r]; simpl JsString.truthy; cbv iota.
  - rewrite split_without_separator by assumption. simpl.
    destruct k; [congruence | reflexivity].
  - rewrite split_app, filter_app.
    rewrite (split_without_separator slash k) by assumption. simpl.
    destruct k; [congruence | reflexivity].
Qed.

(** Splitting the path of a node gives back the names that lead to it. *)
Lemma pathParts_joinUnder (names : list jsstr) :
  forall basePath,
    Forall segmentName names ->
    pathParts (joinUnder basePath names) = pathParts basePath ++ names.
Proof.
  induction names as [|k names IH]; intros basePath H.
  - simpl. now rewrite app_nil_r.
  - inversion_clear H as [|? ? Hk Hnames].
    unfold joinUnder in *. simpl. rewrite IH by assumption.
    rewrite pathParts_childPath by assumption.
    now rewrite <- app_assoc.
Qed.

Lemma getFilePathsIn_JObj props basePath :
  getFilePathsIn (JObj props) basePath =
  flat_map (fun kv =>
              if isDirectory (snd kv)
              then getFilePathsIn (snd kv) (childPath basePath (fst kv))
              else [childPath basePath (fst kv)]) props.
Proof.
  simpl. induction props as [|[k v] r IH]; [reflexivity|].
  simpl. now rewrite IH.
Qed.

Lemma namedTree_JObj props :
  namedTree (JObj props) <->
  NoDup (JsObject.keys props)
  /\ Forall (fun kv => segmentName (fst kv)
                       /\ (isDirectory (snd kv) = true -> namedTree (snd kv)))
            props.
Proof.
  simpl. apply and_iff_compat_l.
  induction props as [|[k v] r IH]; simpl.
  - split; [constructor | trivial].
  - rewrite IH. split.
    + intros (Hk & Hv & Hr). constructor; [split|]; assumption.
    + intros H; inversion_clear H as [|? ? [Hk Hv] Hr]. auto.
Qed.

(** The file paths of a tree are the paths of the names that lead to a
    file. *)
Lemma getFilePathsIn_fileAt (t : JSValue) :
  forall basePath path,
    namedTree t ->
    (In path (getFilePathsIn t basePath) <->
     exists names, fileAt names t = true /\ path = joinUnder basePath names).
Proof.
  induction t as [p|items _|props IH] using JSValue_ind;
    intros basePath path Hnamed; try (simpl in Hnamed; tauto).
  apply namedTree_JObj in Hnamed as [ND HF].
  rewrite getFilePathsIn_JObj, in_flat_map.
  rewrite Forall_forall in IH, HF.
  split.
  - intros ([k v] & Hin & Hpath). cbn [fst snd] in Hpath.
    pose proof (@In_get _ props k v ND Hin) as Hget.
    destruct (isDirectory v) eqn:Hd.
    + apply (IH _ Hin) in Hpath as (names & Hfile & ->).
      * exists (k :: names). split; [|reflexivity].
        simpl. now rewrite Hget, Hd.
      * apply (HF _ Hin). exact Hd.
    + destruct Hpath as [<-|[]]. exists [k]. split; [|reflexivity].
      simpl. now rewrite Hget, Hd.
  - intros ([|k names] & Hfile & ->); [discriminate|].
    simpl in Hfile.
    destruct (JsObject.get props k) as [v|] eqn:Hget; [|discriminate].
    apply get_In in Hget. exists (k, v). split; [exact Hget|].
    cbn [fst snd]. destruct (isDirectory v) eqn:Hd.
    + apply (IH _ Hget); [apply (HF _ Hget); exact Hd|].
      exists names. split; [exact Hfile | reflexivity].
    + destruct names; [left; reflexivity | discriminate].
Qed.

(** The names that lead to a file of a named tree are segment names. *)
Lemma fileAt_segmentNames (t : JSValue) :
  forall names,
    namedTree t -> fileAt names t = true ->
    names <> [] /\ Forall segmentName names.
Proof.
  induction t as [p|items _|props IH] using JSValue_ind;
    intros names Hnamed Hfile; try (simpl in Hnamed; tauto).
  apply namedTree_JObj in Hnamed as [ND HF].
  rewrite Forall_forall in IH, HF.
  destruct names as [|k names]; [discriminate|].
  split; [discriminate|]. simpl in Hfile.
  destruct (JsObject.get props k) as [v|] eqn:Hget; [|discriminate].
  apply get_In in Hget. destruct (HF _ Hget) as [Hk Hv]. cbn [fst snd] in *.
  constructor; [exact Hk|].
  destruct (isDirectory v) eqn:Hd.
  - apply (IH _ Hget); [apply Hv; reflexivity | exact Hfile].
  - destruct names; [constructor | discriminate].
Qed.

(** Nothing lies below a file of a tree. *)
Lemma fileAt_below_file (names more : list jsstr) :
  forall t,
    fileAt names t = true -> more <> [] -> fileAt (names ++ more) t = false.
Proof.
  induction names as [|k names IH]; intros t Hfile Hm; [discriminate|].
  simpl in Hfile |- *. destruct t as [p|items|props]; try discriminate.
  destruct (JsObject.get props k) as [v|]; [|reflexivity].
  destruct (isDirectory v).
  - now apply IH.
  - destruct names; [|discriminate]. simpl. destruct more; congruence.
Qed.

(** The file paths of the object returned for a tree under construction
    are the paths of the names that lead to its leaves, provided that
    [defaultContent] does not itself count as a directory. *)
Lemma getFilePathsIn_reify (c : JSValue) (n : PathTree) :
  isDirectory c = false ->
  properNames n ->
  forall cur basePath path,
    n = PDir cur ->
    (In path (getFilePathsIn (reify c n) basePath) <->
     exists names,
       lookupPath names cur = Some PFile /\ path = joinUnder basePath names).
Proof.
  intros Hc. induction n as [|children IH] using PathTree_ind;
    intros Hproper cur basePath path Heq; [discriminate|].
  injection Heq as <-.
  apply properNames_PDir in Hproper as [ND HF].
  rewrite Forall_forall in IH, HF.
  rewrite reify_PDir, getFilePathsIn_JObj, in_flat_map.
  split.
  - intros (x & Hx & Hpath). apply in_map_iff in Hx as ([k m] & <- & Hin).
    cbn [fst snd] in Hpath.
    pose proof (@In_get _ children k m ND Hin) as Hget.
    destruct m as [|sub].
    + cbn [reify] in Hpath. rewrite Hc in Hpath.
      destruct Hpath as [<-|[]]. exists [k]. split; [|reflexivity].
      simpl. now rewrite Hget.
    + rewrite reify_PDir in Hpath. cbn [isDirectory truthy typeofObject
        isArray negb andb] in Hpath. rewrite <- reify_PDir in Hpath.
      apply (IH _ Hin) with (cur := sub) in Hpath;
        [|apply (HF _ Hin) | reflexivity].
      destruct Hpath as (names & Hlook & ->).
      exists (k :: names). split; [|reflexivity].
      simpl. now rewrite Hget.
  - intros ([|k names] & Hlook & ->); [discriminate|].
    simpl in Hlook.
    destruct (JsObject.get children k) as [m|] eqn:Hget; [|discriminate].
    apply get_In in Hget.
    exists (k, reify c m). split.
    + apply in_map_iff. exists (k, m). split; [reflexivity | exact Hget].
    + cbn [fst snd]. destruct m as [|sub].
      * destruct names; [|discriminate].
        cbn [reify]. rewrite Hc. left; reflexivity.
      * rewrite reify_PDir. cbn [isDirectory truthy typeofObject
          isArray negb andb]. rewrite <- reify_PDir.
        apply (IH _ Hget) with (cur := sub);
          [apply (HF _ Hget) | reflexivity|].
        exists names. split; [exact Hlook | reflexivity].
Qed.

Lemma filePathOf_parts t s :
  namedTree t -> filePathOf t s ->
  fileAt (pathParts s) t = true
  /\ pathParts s <> []
  /\ Forall segmentName (pathParts s)
  /\ s = joinUnder [] (pathParts s).
Proof.
  intros Hnamed (names & Hfile & ->).
  destruct (@fileAt_segmentNames t names Hnamed Hfile) as [Hne Hseg].
  rewrite (@pathParts_joinUnder names [] Hseg).
  change (pathParts []) with (@nil jsstr). simpl app. auto.
Qed.

Lemma segmentNames_not_proto names :
  Forall segmentName names -> ~ In protoKey names.
Proof.
  intros H Hin. rewrite Forall_forall in H.
  destruct (H _ Hin) as (_ & _ & Hp). apply Hp. reflexivity.
Qed.

(** Walking the file paths of a named tree one after the other: every
    walk succeeds, and the leaves of the tree under construction are the
    paths walked so far. *)
Lemma buildPaths_files (c : JSValue) (t : JSValue) :
  namedTree t ->
  forall paths done cur,
    (forall s, In s (done ++ paths) -> filePathOf t s) ->
    properNames (PDir cur) ->
    (forall qs, lookupPath qs cur = Some PFile <->
                exists s, In s done /\ pathParts s = qs) ->
    exists cur',
      fold_left (addPath c) (map (fun s => JStr s) paths) (Some cur)
        = Some cur'
      /\ properNames (PDir cur')
      /\ (forall qs, lookupPath qs cur' = Some PFile <->
                     exists s, In s (done ++ paths) /\ pathParts s = qs).
Proof.
  intros Hnamed.
  induction paths as [|s paths IH]; intros done cur Hall Hproper Hinv.
  - exists cur. rewrite app_nil_r. auto.
  - assert (Hs : filePathOf t s).
    { apply Hall. apply in_or_app. right. left. reflexivity. }
    destruct (@filePathOf_parts t s Hnamed Hs) as (Hfile & Hne & Hseg & Hjoin).
    assert (Htruthy : JsString.truthy s = true).
    { destruct s; [|reflexivity]. exfalso. apply Hne. reflexivity. }
    assert (Hfiles : forall qs, lookupPath qs cur = Some PFile ->
                                fileAt qs t = true).
    { intros qs Hqs. apply Hinv in Hqs as (s0 & Hin & <-).
      apply (@filePathOf_parts t s0 Hnamed). apply Hall.
      apply in_or_app. left. exact Hin. }
    destruct (@insertParts_effect c (pathParts s) cur Hne)
      as (cur1 & Hins & Ha & Hb & Hc & Hd).
    { apply segmentNames_not_proto. exact Hseg. }
    { intros r more Heq Hm Hr. apply Hfiles in Hr.
      pose proof (@fileAt_below_file r more t Hr Hm) as Hno.
      rewrite <- Heq, Hfile in Hno. discriminate. }
    assert (Hproper1 : properNames (PDir cur1)).
    { eapply insertParts_properNames; eassumption. }
    destruct (IH (done ++ [s]) cur1) as (cur' & Hfold & Hproper' & Hinv').
    + intros s0. rewrite <- app_assoc. apply Hall.
    + exact Hproper1.
    + intros qs. split.
      * intros Hqs.
        destruct (list_eq_dec eq_dec qs (pathParts s)) as [->|Hneq].
        { exists s. split; [apply in_or_app; right; left|]; reflexivity. }
        rewrite Hd in Hqs.
        -- apply Hinv in Hqs as (s0 & Hin & Hparts).
           exists s0. split; [apply in_or_app; left|]; assumption.
        -- intros [more Hmore].
           destruct more as [|m more].
           ++ rewrite app_nil_r in Hmore. congruence.
           ++ destruct (Hc qs (m :: more) Hmore) as [d Hdir]; [discriminate|].
              congruence.
        -- intros [more ->].
           destruct more as [|m more].
           ++ rewrite app_nil_r in Hneq. congruence.
           ++ rewrite Hb in Hqs; discriminate.
      * intros (s0 & Hin & <-).
        apply in_app_or in Hin as [Hin | [<- | []]]; [|exact Ha].
        destruct (list_eq_dec eq_dec (pathParts s0) (pathParts s))
          as [->|Hneq]; [exact Ha|].
        assert (H0 : lookupPath (pathParts s0) cur = Some PFile).
        { apply Hinv. exists s0. split; [assumption | reflexivity]. }
        rewrite Hd; [exact H0| |].
        -- intros [more Hmore].
           destruct more as [|m more].
           ++ rewrite app_nil_r in Hmore. congruence.
           ++ pose proof (@fileAt_below_file (pathParts s0) (m :: more) t
                            (Hfiles _ H0)) as Hno.
              rewrite <- Hmore, Hfile in Hno.
              specialize (Hno ltac:(discriminate)). discriminate.
        -- intros [more Hmore].
           destruct more as [|m more].
           ++ rewrite app_nil_r in Hmore. congruence.
           ++ pose proof (@fileAt_below_file (pathParts s) (m :: more) t Hfile)
                as Hno.
              rewrite <- Hmore, (Hfiles _ H0) in Hno.
              specialize (Hno ltac:(discriminate)). discriminate.
    + exists cur'. split; [|split; [exact Hproper'|]].
      * simpl. rewrite Htruthy. cbn [negb orb]. rewrite Hins. exact Hfold.
      * intros qs. rewrite Hinv', <- app_assoc. reflexivity.
Qed.

(** C6, as stated, fails: the tree whose only file has the empty name has
    the file path [""], which [createTreeFromPaths] skips, so that the
    tree rebuilt has no file path at all. *)
Lemma roundtrip_loses_empty_name :
  ~ (forall t c t',
        createTreeFromPaths (map (fun s => JStr s) (getFilePaths t [])) c
          = Some t' ->
        samePaths (getFilePaths t' []) (getFilePaths t [])).
Proof.
  intros H.
  specialize (H (JObj [([], JStr (str "x"))]) (JStr []) (JObj []) eq_refl).
  destruct (H []) as [_ Hin]. apply Hin. left. reflexivity.
Qed.

(** Other ways to lose a file path: a [defaultContent] that is a plain
    object reads as a directory; a name ending in a slash loses it; a name
    that is also a prefix of another path is overwritten; the name
    [__proto__] is never written. *)
Lemma roundtrip_limits :
  (createTreeFromPaths [JStr (str "a")] (JObj [])
     = Some (JObj [(str "a", JObj [])])
   /\ getFilePaths (JObj [(str "a", JObj [])]) [] = [])
  /\ (getFilePaths (JObj [(str "a/", JNum 1)]) [] = [str "a/"]
      /\ createTreeFromPaths [JStr (str "a/")] (JStr [])
         = Some (JObj [(str "a", JStr [])]))
  /\ (getFilePaths (JObj [(str "a", JNum 1); (str "a/b", JNum 2)]) []
        = [str "a"; str "a/b"]
      /\ createTreeFromPaths [JStr (str "a"); JStr (str "a/b")] (JStr [])
         = Some (JObj [(str "a", JObj [(str "b", JStr [])])]))
  /\ createTreeFromPaths [JStr (str "__proto__")] (JStr []) = Some (JObj []).
Proof. repeat split; reflexivity. Qed.

(** C6, amended: for a tree whose names are, at every level, pairwise
    distinct, not empty, free of slashes and other than [__proto__], and
    for a [defaultContent] that is not a plain object, the tree rebuilt
    from the file paths exists and has the same file paths. *)
Theorem roundtrip_file_paths (t c : JSValue) :
  namedTree t ->
  isDirectory c = false ->
  exists t',
    createTreeFromPaths (map (fun s => JStr s) (getFilePaths t [])) c = Some t'
    /\ samePaths (getFilePaths t' []) (getFilePaths t []).
Proof.
  intros Hnamed Hc.
  destruct t as [p|items|props]; try (simpl in Hnamed; tauto).
  unfold getFilePaths at 1 3. cbn [asObject].
  set (paths := getFilePathsIn (JObj props) []).
  assert (Hpaths : forall s, In s paths <-> filePathOf (JObj props) s).
  { intros s. apply getFilePathsIn_fileAt. exact Hnamed. }
  destruct (@buildPaths_files c (JObj props) Hnamed paths [] [])
    as (cur' & Hfold & Hproper & Hinv).
  - intros s Hin. apply Hpaths. exact Hin.
  - exact properNames_empty.
  - intros qs. split.
    + intros Hq. exfalso. exact (lookupPath_nil_children qs Hq).
    + intros (s & [] & _).
  - exists (reify c (PDir cur')). split.
    + unfold createTreeFromPaths, buildPaths. rewrite Hfold. reflexivity.
    + intros path. unfold getFilePaths. rewrite reify_PDir. cbn [asObject].
      rewrite <- reify_PDir.
      rewrite (@getFilePathsIn_reify c (PDir cur') Hc Hproper cur' [] path
                 eq_refl).
      split.
      * intros (names & Hlook & ->).
        apply Hinv in Hlook as (s & Hin & <-). simpl in Hin.
        apply Hpaths in Hin as Hs.
        destruct (@filePathOf_parts (JObj props) s Hnamed Hs)
          as (_ & _ & _ & <-).
        exact Hin.
      * intros Hin. apply Hpaths in Hin as Hs.
        destruct (@filePathOf_parts (JObj props) path Hnamed Hs)
          as (_ & _ & _ & Hjoin).
        exists (pathParts path). split; [|exact Hjoin].
        apply Hinv. exists path. split; [exact Hin | reflexivity].
Qed.

(** The tree with the file a/b, the file c holding an array, and the
    empty directory d. *)
Lemma roundtrip_file_paths_witness :
  exists t',
    createTreeFromPaths
      (map (fun s => JStr s)
           (getFilePaths
              (JObj [(str "a", JObj [(str "b", JNum 1)]);
                     (str "c", JArr [JNum 2]);
                     (str "d", JObj [])]) []))
      (JStr []) = Some t'
    /\ samePaths
         (getFilePaths t' [])
         (getFilePaths
            (JObj [(str "a", JObj [(str "b", JNum 1)]);
                   (str "c", JArr [JNum 2]);
                   (str "d", JObj [])]) []).
Proof.
  apply roundtrip_file_paths; [|reflexivity].
  assert (Hnot : forall (x : N) l, existsb (N.eqb x) l = false -> ~ In x l).
  { intros x l Hx Hin.
    assert (Ht : existsb (N.eqb x) l = true).
    { apply existsb_exists. exists x. split; [exact Hin | apply N.eqb_refl]. }
    congruence. }
  simpl. repeat split;
    try discriminate;
    try (apply Hnot; reflexivity);
    try (repeat constructor; simpl; intuition discriminate).
Defined.

End FilePaths.

(** ** Sorting *)

Section Sorting.
Import JsString JsStringFacts JsValue JsValueFacts JsObjectFacts TreeUtils.
Import Spec.

Lemma insertKey_perm k l : Permutation (insertKey k l) (k :: l).
Proof.
  induction l as [|k' l IH]; simpl; [reflexivity|].
  destruct (leb k k'); [reflexivity|].
  rewrite IH. apply perm_swap.
Qed.

Lemma sortKeys_perm l : Permutation (sortKeys l) l.
Proof.
  induction l as [|k l IH]; simpl; [reflexivity|].
  rewrite insertKey_perm. now constructor.
Qed.

Lemma insertKey_sorted k l :
  StronglySorted keyLe l -> StronglySorted keyLe (insertKey k l).
Proof.
  induction 1 as [|k' l Hl IH Hk']; simpl; [repeat constructor|].
  destruct (leb k k') eqn:E.
  - constructor; [constructor; assumption|].
    constructor; [exact E|].
    eapply Forall_impl; [|exact Hk'].
    intros x Hx. exact (leb_trans _ _ _ E Hx).
  - constructor; [exact IH|].
    eapply Permutation_Forall; [symmetry; apply insertKey_perm|].
    constructor; [|exact Hk'].
    destruct (leb_total k k') as [H|H]; [congruence | exact H].
Qed.

Lemma sortKeys_sorted l : StronglySorted keyLe (sortKeys l).
Proof.
  induction l as [|k l IH]; simpl; [constructor|].
  now apply insertKey_sorted.
Qed.

(** A list of keys has one sorted arrangement. *)
Lemma sorted_perm_eq l :
  forall l',
    StronglySorted keyLe l -> StronglySorted keyLe l' ->
    Permutation l l' -> l = l'.
Proof.
  induction l as [|a l IH]; intros l' Hl Hl' Hperm.
  - apply Permutation_nil in Hperm. congruence.
  - destruct l' as [|b l'].
    + symmetry in Hperm. apply Permutation_nil in Hperm. discriminate.
    + inversion_clear Hl as [|? ? Hs Ha]. inversion_clear Hl' as [|? ? Hs' Hb].
      assert (Hab : a = b).
      { assert (Hin1 : In a (b :: l')).
        { eapply Permutation_in; [exact Hperm | left; reflexivity]. }
        assert (Hin2 : In b (a :: l)).
        { eapply Permutation_in; [symmetry; exact Hperm | left; reflexivity]. }
        rewrite Forall_forall in Ha, Hb.
        destruct Hin1 as [->|Hin1]; [reflexivity|].
        destruct Hin2 as [->|Hin2]; [reflexivity|].
        apply leb_antisym; [apply Ha | apply Hb]; assumption. }
      subst b. f_equal. apply IH; try assumption.
      eapply Permutation_cons_inv; exact Hperm.
Qed.

Lemma sortKeys_Permutation l l' :
  Permutation l l' -> sortKeys l = sortKeys l'.
Proof.
  intros H. apply sorted_perm_eq; try apply sortKeys_sorted.
  rewrite !sortKeys_perm. exact H.
Qed.

Lemma filter_Permutation (A : Type) (f : A -> bool) (l l' : list A) :
  Permutation l l' -> Permutation (filter f l) (filter f l').
Proof.
  induction 1 as [|x l l' _ IH|x y l|l l' l'' _ IH1 _ IH2]; simpl.
  - constructor.
  - destruct (f x); [constructor|]; exact IH.
  - destruct (f x), (f y); try reflexivity. apply perm_swap.
  - now transitivity (filter f l').
Qed.

Lemma get_assignOne from sorted a k :
  JsObject.get (assignOne from sorted a) k =
  if eqb a k && negb (eqb k protoKey)
  then match JsObject.get from k with
       | Some value => Some value
       | None => JsObject.get sorted k
       end
  else JsObject.get sorted k.
Proof.
  unfold assignOne. destruct (eqb a k) eqn:E.
  - apply eqb_eq in E; subst a.
    destruct (eqb k protoKey); [reflexivity|]. cbn [andb negb].
    destruct (JsObject.get from k); [apply get_set_same | reflexivity].
  - cbn [andb]. destruct (eqb a protoKey); [reflexivity|].
    destruct (JsObject.get from a); [|reflexivity].
    rewrite get_set, E. reflexivity.
Qed.

(** Reading after a round of assignments. *)
Lemma get_assignAll from ks :
  forall sorted k,
    JsObject.get (assignAll from ks sorted) k =
    if in_dec eq_dec k ks
    then if eqb k protoKey then JsObject.get sorted k
         else match JsObject.get from k with
              | Some value => Some value
              | None => JsObject.get sorted k
              end
    else JsObject.get sorted k.
Proof.
  unfold assignAll.
  induction ks as [|a ks IH]; intros sorted k; [reflexivity|].
  cbn [fold_left]. rewrite IH, get_assignOne.
  destruct (eqb k protoKey) eqn:Ek.
  - rewrite andb_false_r.
    destruct (in_dec eq_dec k ks); destruct (in_dec eq_dec k (a :: ks));
      reflexivity.
  - rewrite andb_true_r.
    destruct (in_dec eq_dec k ks) as [Hin|Hnin];
      destruct (in_dec eq_dec k (a :: ks)) as [Hin'|Hnin'];
      try (exfalso; apply Hnin'; right; exact Hin).
    + destruct (JsObject.get from k); [reflexivity|].
      destruct (eqb a k); reflexivity.
    + destruct Hin' as [->|Hin']; [|contradiction].
      now rewrite eqb_refl.
    + destruct (eqb a k) eqn:E; [|reflexivity].
      apply eqb_eq in E. exfalso. apply Hnin'. left; exact E.
Qed.

Lemma NoDup_assignAll from ks :
  forall sorted,
    NoDup (JsObject.keys sorted) ->
    NoDup (JsObject.keys (assignAll from ks sorted)).
Proof.
  unfold assignAll.
  induction ks as [|a ks IH]; intros sorted H; [exact H|].
  cbn [fold_left]. apply IH. unfold assignOne.
  destruct (eqb a protoKey); [exact H|].
  destruct (JsObject.get from a); [now apply NoDup_keys_set | exact H].
Qed.

Lemma assignAll_ext from from' ks :
  forall sorted,
    (forall k, In k ks -> JsObject.get from k = JsObject.get from' k) ->
    assignAll from ks sorted = assignAll from' ks sorted.
Proof.
  unfold assignAll.
  induction ks as [|a ks IH]; intros sorted H; [reflexivity|].
  cbn [fold_left].
  assert (E : assignOne from sorted a = assignOne from' sorted a).
  { unfold assignOne. rewrite (H a) by (left; reflexivity). reflexivity. }
  rewrite E. apply IH. intros k Hk. apply H. right; exact Hk.
Qed.

(** The key [__proto__] counts for nothing in a round of assignments. *)
Lemma assignAll_skip from ks :
  forall sorted,
    assignAll from ks sorted
    = assignAll from (filter (fun k => negb (eqb k protoKey)) ks) sorted.
Proof.
  unfold assignAll.
  induction ks as [|a ks IH]; intros sorted; [reflexivity|].
  cbn [fold_left filter]. destruct (eqb a protoKey) eqn:E; cbn [negb].
  - unfold assignOne at 2. rewrite E. apply IH.
  - cbn [fold_left]. apply IH.
Qed.

Lemma StronglySorted_filter (f : jsstr -> bool) (l : list jsstr) :
  StronglySorted keyLe l -> StronglySorted keyLe (filter f l).
Proof.
  induction 1 as [|k l _ IH Hk]; simpl; [constructor|].
  destruct (f k); [|exact IH]. constructor; [exact IH|].
  apply Forall_forall. intros x Hx. apply filter_In in Hx as [Hx _].
  rewrite Forall_forall in Hk. apply Hk. exact Hx.
Qed.

Lemma In_sortKeys_filter (f : jsstr -> bool) (l : list jsstr) (k : jsstr) :
  In k (sortKeys (filter f l)) <-> In k l /\ f k = true.
Proof.
  rewrite <- filter_In. split; apply Permutation_in.
  - apply sortKeys_perm.
  - symmetry. apply sortKeys_perm.
Qed.

Lemma sortTreeIn_JObj props : sortTreeIn (JObj props) = JObj (sortedProps props).
Proof.
  cbn [sortTreeIn]. unfold sortedProps. repeat f_equal.
  induction props as [|[k v] r IH]; [reflexivity|].
  cbn [map fst snd]. rewrite <- IH. reflexivity.
Qed.

Lemma isDirectory_sortChild v : isDirectory (sortChild v) = isDirectory v.
Proof.
  unfold sortChild. destruct (isDirectory v) eqn:Hd; [|exact Hd].
  apply isDirectory_JObj in Hd as [props ->].
  rewrite sortTreeIn_JObj. reflexivity.
Qed.

Lemma isDirectoryAt_In props k :
  isDirectoryAt props k = true -> In k (JsObject.keys props).
Proof.
  unfold isDirectoryAt. intros H. apply has_In. unfold JsObject.has.
  destruct (JsObject.get props k); [reflexivity | discriminate].
Qed.

(** What the sorted object holds under each key. *)
Lemma get_sortedProps props k :
  JsObject.get (sortedProps props) k
  = if eqb k protoKey then None
    else option_map sortChild (JsObject.get props k).
Proof.
  unfold sortedProps. rewrite !get_assignAll, get_map_values.
  cbn [JsObject.get].
  destruct (eqb k protoKey) eqn:Ek.
  { destruct (in_dec eq_dec k _); destruct (in_dec eq_dec k _); reflexivity. }
  destruct (in_dec eq_dec k _) as [HF|HF];
    destruct (in_dec eq_dec k _) as [HD|HD];
    rewrite ?In_sortKeys_filter in HF, HD.
  - destruct HF as [_ HF], HD as [_ HD]. rewrite HD in HF. discriminate.
  - destruct HF as [_ HF]. apply negb_true_iff in HF.
    unfold isDirectoryAt in HF.
    destruct (JsObject.get props k) as [v|]; [|reflexivity].
    cbn [option_map]. unfold sortChild. now rewrite HF.
  - destruct (JsObject.get props k); reflexivity.
  - destruct (JsObject.get props k) as [v|] eqn:E; [|reflexivity].
    exfalso. assert (Hin : In k (JsObject.keys props)).
    { apply has_In. unfold JsObject.has. now rewrite E. }
    destruct (isDirectoryAt props k) eqn:Hd.
    + apply HD. split; [assumption | reflexivity].
    + apply HF. split; [assumption | reflexivity].
Qed.

Lemma isDirectoryAt_sortedProps props k :
  eqb k protoKey = false ->
  isDirectoryAt (sortedProps props) k = isDirectoryAt props k.
Proof.
  intros Ek. unfold isDirectoryAt. rewrite get_sortedProps, Ek.
  destruct (JsObject.get props k); [apply isDirectory_sortChild | reflexivity].
Qed.

(** The keys of the sorted object: those of the object, [__proto__]
    apart. *)
Lemma keys_sortedProps props :
  NoDup (JsObject.keys (sortedProps props))
  /\ (forall k, In k (JsObject.keys (sortedProps props))
                <-> In k (JsObject.keys props) /\ eqb k protoKey = false).
Proof.
  split.
  - unfold sortedProps. do 2 apply NoDup_assignAll. constructor.
  - intros k. rewrite <- !has_In. unfold JsObject.has.
    rewrite get_sortedProps.
    destruct (eqb k protoKey); [intuition discriminate|].
    destruct (JsObject.get props k); simpl; intuition discriminate.
Qed.

(** The keys of one kind in the sorted object, in the order of [sort]:
    those of the object, [__proto__] apart. *)
Lemma sortKeys_sortedProps props (f g : jsstr -> bool) :
  NoDup (JsObject.keys props) ->
  (forall k, eqb k protoKey = false -> f k = g k) ->
  sortKeys (filter f (JsObject.keys (sortedProps props)))
  = filter (fun k => negb (eqb k protoKey))
           (sortKeys (filter g (JsObject.keys props))).
Proof.
  intros ND Hfg. destruct (keys_sortedProps props) as [NDQ HQ].
  apply sorted_perm_eq.
  - apply sortKeys_sorted.
  - apply StronglySorted_filter, sortKeys_sorted.
  - apply NoDup_Permutation.
    + eapply Permutation_NoDup; [symmetry; apply sortKeys_perm|].
      apply NoDup_filter. exact NDQ.
    + apply NoDup_filter.
      eapply Permutation_NoDup; [symmetry; apply sortKeys_perm|].
      apply NoDup_filter. exact ND.
    + intros k. rewrite filter_In, !In_sortKeys_filter, HQ, negb_true_iff.
      split.
      * intros [[Hin Ek] Hf]. rewrite <- (Hfg k Ek). auto.
      * intros [[Hin Hg] Ek]. rewrite (Hfg k Ek). auto.
Qed.

Lemma sortedProps_idempotent props :
  NoDup (JsObject.keys props) ->
  (forall k v, In (k, v) props -> sortChild (sortChild v) = sortChild v) ->
  sortedProps (sortedProps props) = sortedProps props.
Proof.
  intros ND Hchild.
  pose proof (get_sortedProps props) as Hget.
  pose proof (@sortKeys_sortedProps props
                (isDirectoryAt (sortedProps props)) (isDirectoryAt props) ND
                (@isDirectoryAt_sortedProps props)) as HD.
  assert (HF : sortKeys (filter (fun key =>
                                   negb (isDirectoryAt (sortedProps props) key))
                                (JsObject.keys (sortedProps props)))
               = filter (fun k => negb (eqb k protoKey))
                   (sortKeys (filter (fun key => negb (isDirectoryAt props key))
                                     (JsObject.keys props)))).
  { apply sortKeys_sortedProps; [exact ND|].
    intros k Ek. now rewrite isDirectoryAt_sortedProps. }
  transitivity
    (assignAll props
       (filter (fun k => negb (eqb k protoKey))
          (sortKeys (filter (fun key => negb (isDirectoryAt props key))
                            (JsObject.keys props))))
       (assignAll (map (fun kv => (fst kv, sortChild (snd kv))) props)
          (filter (fun k => negb (eqb k protoKey))
             (sortKeys (filter (isDirectoryAt props) (JsObject.keys props))))
          [])).
  2:{ symmetry. unfold sortedProps.
      rewrite (@assignAll_skip props
                 (sortKeys (filter (fun key => negb (isDirectoryAt props key))
                                   (JsObject.keys props)))).
      f_equal. apply assignAll_skip. }
  set (Q := sortedProps props) in *.
  unfold sortedProps. rewrite HF, HD.
  rewrite assignAll_ext
    with (from := map (fun kv => (fst kv, sortChild (snd kv))) Q)
         (from' := map (fun kv => (fst kv, sortChild (snd kv))) props).
  - apply assignAll_ext. intros k Hk.
    apply filter_In in Hk as [Hk Ek]. apply negb_true_iff in Ek.
    apply In_sortKeys_filter in Hk as [_ Hk]. apply negb_true_iff in Hk.
    rewrite Hget, Ek. unfold isDirectoryAt in Hk.
    destruct (JsObject.get props k) as [v|]; [|reflexivity].
    cbn [option_map]. unfold sortChild. now rewrite Hk.
  - intros k Hk. apply filter_In in Hk as [_ Ek]. apply negb_true_iff in Ek.
    rewrite !get_map_values. rewrite Hget, Ek.
    destruct (JsObject.get props k) as [v|] eqn:E; [|reflexivity].
    cbn [option_map]. f_equal. apply (Hchild k). now apply get_In.
Qed.

Lemma distinctKeys_JObj props :
  distinctKeys (JObj props) <->
  NoDup (JsObject.keys props)
  /\ Forall (fun kv => distinctKeys (snd kv)) props.
Proof.
  simpl. apply and_iff_compat_l.
  induction props as [|[k v] r IH]; simpl.
  - split; [constructor | trivial].
  - rewrite IH. split.
    + intros [Hv Hr]; constructor; assumption.
    + intros H; inversion_clear H; split; assumption.
Qed.

Lemma sortTreeIn_idempotent (t : JSValue) :
  distinctKeys t -> sortTreeIn (sortTreeIn t) = sortTreeIn t.
Proof.
  induction t as [p|items _|props IH] using JSValue_ind; intros Hd;
    try reflexivity.
  apply distinctKeys_JObj in Hd as [ND HF].
  rewrite sortTreeIn_JObj. rewrite sortTreeIn_JObj. f_equal.
  apply sortedProps_idempotent; [exact ND|].
  intros k v Hin. rewrite Forall_forall in IH, HF.
  unfold sortChild at 1. rewrite isDirectory_sortChild.
  unfold sortChild. destruct (isDirectory v) eqn:Hv; [|reflexivity].
  apply (IH _ Hin). apply (HF _ Hin).
Qed.

Lemma uint_units_inj d d' : uint_units d = uint_units d' -> d = d'.
Proof.
  revert d'; induction d; intros d' H; destruct d'; simpl in H;
    try discriminate H; try reflexivity;
    injection H as H; f_equal; auto.
Qed.

Lemma decimal_inj n n' : decimal n = decimal n' -> n = n'.
Proof.
  unfold decimal. intros H. apply uint_units_inj in H.
  now apply DecimalN.Unsigned.to_uint_inj.
Qed.

Lemma keys_indexed items :
  forall index,
    JsObject.keys (indexed index items)
    = map (fun j => decimal (N.of_nat j)) (seq index (List.length items)).
Proof.
  induction items as [|x r IH]; intros index; [reflexivity|].
  simpl. f_equal. apply IH.
Qed.

Lemma distinctKeys_asObject t : distinctKeys t -> distinctKeys (asObject t).
Proof.
  destruct t as [p|items|props]; try (intros H; exact H).
  intros H. cbn [asObject]. apply distinctKeys_JObj. split.
  - rewrite keys_indexed. apply Injective_map_NoDup; [|apply seq_NoDup].
    intros i j Hij. apply decimal_inj in Hij. lia.
  - simpl in H. generalize 0%nat.
    induction items as [|x r IH]; intros index; simpl; constructor.
    + exact (proj1 H).
    + apply IH. exact (proj2 H).
Qed.

(** Sorting twice is sorting once. *)
Lemma sortTree_idempotent (t : JSValue) :
  distinctKeys t -> sortTree (sortTree t) = sortTree t.
Proof.
  intros H. apply distinctKeys_asObject in H. unfold sortTree.
  assert (Has : asObject (sortTreeIn (asObject t)) = sortTreeIn (asObject t)).
  { destruct (asObject t) as [p|items|props] eqn:E.
    - reflexivity.
    - destruct t; discriminate.
    - rewrite sortTreeIn_JObj. reflexivity. }
  rewrite Has. now apply sortTreeIn_idempotent.
Qed.

(** C5: sorting twice is sorting once; but at the tree with the
    directory a and the file 1 the object returned enumerates the file
    before the directory, an array index being enumerated before every
    other key, and of the files 9 and 10 the first enumerated is 9, which
    is not the smaller by code units. *)
Theorem sortTree_idempotent_index_keys_first :
  (forall t, distinctKeys t -> sortTree (sortTree t) = sortTree t)
  /\ (let t := JObj [(str "1", JStr (str "x")); (str "a", JObj [])] in
      sortTree t = t
      /\ JsObject.keys (ownProps (sortTree t)) = [str "1"; str "a"]
      /\ directoriesFirst (ownProps (sortTree t)) = false)
  /\ JsObject.keys
       (ownProps (sortTree (JObj [(str "9", JNum 1); (str "10", JNum 2)])))
     = [str "9"; str "10"]
  /\ ltb (str "10") (str "9") = true.
Proof.
  split; [exact sortTree_idempotent|]. repeat split; reflexivity.
Qed.

(** A tree without array indices among its names: directories first,
    each group in ascending order, at both levels. *)
Lemma sortTree_idempotent_index_keys_first_witness :
  let t := JObj [(str "b", JNum 1);
                 (str "a", JObj [(str "z", JNull); (str "y", JObj [])])] in
  sortTree t
  = JObj [(str "a", JObj [(str "y", JObj []); (str "z", JNull)]);
          (str "b", JNum 1)]
  /\ sortTree (sortTree t) = sortTree t.
Proof.
  intros t. split; [reflexivity|].
  apply (proj1 sortTree_idempotent_index_keys_first).
  simpl. repeat split; repeat constructor; simpl; intuition discriminate.
Defined.

End Sorting.

(** ** Flat list, path lists and counts *)

Section Listings.
Import JsString JsStringFacts JsValue JsValueFacts JsObjectFacts TreeUtils.
Import Spec Measures.

Lemma list_sum_cons (a : nat) (l : list nat) :
  list_sum (a :: l) = a + list_sum l.
Proof. reflexivity. Qed.

Lemma list_max_cons (a : nat) (l : list nat) :
  list_max (a :: l) = Nat.max a (list_max l).
Proof. reflexivity. Qed.

Lemma countTreeFilesIn_JObj props :
  countTreeFilesIn (JObj props) = list_sum (map filesUnder props).
Proof.
  cbn [countTreeFilesIn].
  match goal with
  | |- ?f props 0 = _ =>
      enough (H : forall ps count,
                 f ps count = count + list_sum (map filesUnder ps))
        by apply (H props 0)
  end.
  induction ps as [|[k v] r IH]; intros count; [simpl; lia|].
  cbn [map]. rewrite list_sum_cons, IH. unfold filesUnder at 2. cbn [snd].
  destruct (isDirectory v); lia.
Qed.

Lemma countTreeDirectoriesIn_JObj props :
  countTreeDirectoriesIn (JObj props) = list_sum (map directoriesUnder props).
Proof.
  cbn [countTreeDirectoriesIn].
  match goal with
  | |- ?f props 0 = _ =>
      enough (H : forall ps count,
                 f ps count = count + list_sum (map directoriesUnder ps))
        by apply (H props 0)
  end.
  induction ps as [|[k v] r IH]; intros count; [simpl; lia|].
  cbn [map]. rewrite list_sum_cons, IH. unfold directoriesUnder at 2. cbn [snd].
  destruct (isDirectory v); lia.
Qed.

Lemma getTreeDepthIn_JObj props :
  getTreeDepthIn (JObj props) = list_max (map depthUnder props).
Proof.
  cbn [getTreeDepthIn].
  match goal with
  | |- ?f props 0 = _ =>
      enough (H : forall ps maxDepth,
                 f ps maxDepth
                 = Nat.max maxDepth (list_max (map depthUnder ps)))
        by apply (H props 0)
  end.
  induction ps as [|[k v] r IH]; intros maxDepth; [simpl; lia|].
  cbn [map]. rewrite list_max_cons, IH. unfold depthUnder at 2. cbn [snd].
  destruct (isDirectory v); lia.
Qed.

Lemma flattenTreeIn_JObj props parentPath :
  flattenTreeIn (JObj props) parentPath =
  flat_map (fun kv =>
              if isDirectory (snd kv)
              then FlatDirectory (fst kv) (childPath parentPath (fst kv))
                                 (List.length (ownProps (snd kv)))
                   :: flattenTreeIn (snd kv) (childPath parentPath (fst kv))
              else [FlatFile (fst kv) (childPath parentPath (fst kv)) (snd kv)])
           props.
Proof.
  simpl. induction props as [|[k v] r IH]; [reflexivity|].
  simpl. now rewrite IH.
Qed.

Lemma getDirectoryPathsIn_JObj props basePath :
  getDirectoryPathsIn (JObj props) basePath =
  flat_map (fun kv =>
              if isDirectory (snd kv)
              then childPath basePath (fst kv)
                   :: getDirectoryPathsIn (snd kv) (childPath basePath (fst kv))
              else []) props.
Proof.
  simpl. induction props as [|[k v] r IH]; [reflexivity|].
  simpl. now rewrite IH.
Qed.

Lemma flattenTreeIn_length (t : JSValue) :
  forall parentPath,
    List.length (flattenTreeIn t parentPath)
    = countTreeFilesIn t + countTreeDirectoriesIn t.
Proof.
  induction t as [p|items _|props IH] using JSValue_ind; intros parentPath;
    try reflexivity.
  rewrite flattenTreeIn_JObj, countTreeFilesIn_JObj,
    countTreeDirectoriesIn_JObj.
  induction IH as [|[k v] r Hv _ IHr]; [reflexivity|].
  cbn [flat_map map fst snd]. rewrite length_app, !list_sum_cons, IHr.
  change (filesUnder (k, v)) with (if isDirectory v then countTreeFilesIn v else 1).
  change (directoriesUnder (k, v)) with (if isDirectory v then 1 + countTreeDirectoriesIn v else 0). cbn [snd] in *.
  destruct (isDirectory v); cbn [List.length]; [rewrite Hv|]; lia.
Qed.

(** X1: the flat list has one entry per file and one per directory,
    that is [totalNodes] entries. *)
Theorem flattenTree_length (t : JSValue) (parentPath : jsstr) :
  List.length (flattenTree t parentPath) = totalNodes (getTreeStats t).
Proof. apply flattenTreeIn_length. Qed.

Lemma flattenTreeIn_paths (t : JSValue) :
  forall basePath,
    map entryPath (filter entryIsFile (flattenTreeIn t basePath))
      = getFilePathsIn t basePath
    /\ map entryPath
         (filter (fun e => negb (entryIsFile e)) (flattenTreeIn t basePath))
      = getDirectoryPathsIn t basePath.
Proof.
  induction t as [p|items _|props IH] using JSValue_ind; intros basePath;
    try (split; reflexivity).
  rewrite flattenTreeIn_JObj, getFilePathsIn_JObj, getDirectoryPathsIn_JObj.
  induction IH as [|[k v] r Hv _ IHr]; [split; reflexivity|].
  cbn [flat_map fst snd] in *. rewrite !filter_app, !map_app.
  destruct IHr as [-> ->].
  destruct (isDirectory v).
  - cbn [filter entryIsFile negb map entryPath].
    destruct (Hv (childPath basePath k)) as [-> ->]. split; reflexivity.
  - split; reflexivity.
Qed.

(** X2: the file entries of the flat list carry, in order, the paths
    [getFilePaths] returns, and its directory entries those
    [getDirectoryPaths] returns. *)
Theorem flattenTree_paths (t : JSValue) (basePath : jsstr) :
  map entryPath (filter entryIsFile (flattenTree t basePath))
    = getFilePaths t basePath
  /\ map entryPath
       (filter (fun e => negb (entryIsFile e)) (flattenTree t basePath))
    = getDirectoryPaths t basePath.
Proof. apply flattenTreeIn_paths. Qed.

Lemma path_lists_length (t : JSValue) :
  forall basePath,
    List.length (getFilePathsIn t basePath) = countTreeFilesIn t
    /\ List.length (getDirectoryPathsIn t basePath) = countTreeDirectoriesIn t.
Proof.
  induction t as [p|items _|props IH] using JSValue_ind; intros basePath;
    try (split; reflexivity).
  rewrite getFilePathsIn_JObj, getDirectoryPathsIn_JObj,
    countTreeFilesIn_JObj, countTreeDirectoriesIn_JObj.
  induction IH as [|[k v] r Hv _ IHr]; [split; reflexivity|].
  cbn [flat_map map fst snd] in *. rewrite !length_app, !list_sum_cons.
  destruct IHr as [-> ->].
  change (filesUnder (k, v)) with (if isDirectory v then countTreeFilesIn v else 1).
  change (directoriesUnder (k, v)) with (if isDirectory v then 1 + countTreeDirectoriesIn v else 0).
  destruct (isDirectory v).
  - cbn [List.length].
    destruct (Hv (childPath basePath k)) as [-> ->]. split; reflexivity.
  - split; reflexivity.
Qed.

(** X3: there are as many file paths as [countTreeFiles] counts and as
    many directory paths as [countTreeDirectories] counts, whatever the
    base path. *)
Theorem path_counts (t : JSValue) (basePath : jsstr) :
  List.length (getFilePaths t basePath) = countTreeFiles t
  /\ List.length (getDirectoryPaths t basePath) = countTreeDirectories t.
Proof. apply path_lists_length. Qed.

Lemma depth_le_directories (t : JSValue) :
  getTreeDepthIn t <= countTreeDirectoriesIn t.
Proof.
  induction t as [p|items _|props IH] using JSValue_ind; try (simpl; lia).
  rewrite getTreeDepthIn_JObj, countTreeDirectoriesIn_JObj.
  induction IH as [|[k v] r Hv _ IHr]; [simpl; lia|].
  cbn [map]. rewrite list_max_cons, list_sum_cons.
  change (depthUnder (k, v)) with (if isDirectory v then 1 + getTreeDepthIn v else 0).
  change (directoriesUnder (k, v)) with (if isDirectory v then 1 + countTreeDirectoriesIn v else 0). cbn [snd] in *.
  destruct (isDirectory v); lia.
Qed.

Lemma no_depth_no_directories (t : JSValue) :
  getTreeDepthIn t = 0 -> countTreeDirectoriesIn t = 0.
Proof.
  destruct t as [p|items|props]; try reflexivity.
  rewrite getTreeDepthIn_JObj, countTreeDirectoriesIn_JObj.
  induction props as [|[k v] r IHr]; [reflexivity|].
  cbn [map]. rewrite list_max_cons, list_sum_cons.
  change (depthUnder (k, v)) with (if isDirectory v then 1 + getTreeDepthIn v else 0).
  change (directoriesUnder (k, v)) with (if isDirectory v then 1 + countTreeDirectoriesIn v else 0).
  destruct (isDirectory v); lia.
Qed.

(** X4: the depth is at most the number of directories, and it is 0
    exactly when there is no directory. *)
Theorem depth_and_directories (t : JSValue) :
  getTreeDepth t <= countTreeDirectories t
  /\ (getTreeDepth t = 0 <-> countTreeDirectories t = 0).
Proof.
  unfold getTreeDepth, countTreeDirectories.
  pose proof (depth_le_directories (asObject t)) as Hle.
  split; [exact Hle|]. split.
  - apply no_depth_no_directories.
  - lia.
Qed.

End Listings.

(** ** Listed paths are found *)

Section ListedPaths.
Import JsString JsStringFacts JsValue JsValueFacts JsObjectFacts TreeUtils.
Import Spec Measures.

Lemma nodeAt_resolves (names : list jsstr) :
  forall t v, nodeAt names t = Some v -> resolves t names v.
Proof.
  induction names as [|k rest IH]; intros t v H; simpl in H.
  - injection H as <-. constructor.
  - destruct t as [p|items|props]; try discriminate.
    destruct (JsObject.get props k) as [value|] eqn:E; [|discriminate].
    apply resolves_step with (next := value); try reflexivity;
      [cbn [getProperty]; rewrite E; reflexivity|].
    destruct rest as [|k2 rest'].
    + injection H as <-. constructor.
    + destruct (isDirectory value); [|discriminate]. apply IH. exact H.
Qed.

Lemma fileAt_nodeAt (names : list jsstr) :
  forall t,
    fileAt names t = true ->
    exists v, nodeAt names t = Some v /\ isDirectory v = false.
Proof.
  induction names as [|k rest IH]; intros t H; [discriminate|].
  simpl in H |- *. destruct t as [p|items|props]; try discriminate.
  destruct (JsObject.get props k) as [value|]; [|discriminate].
  destruct (isDirectory value) eqn:Hd.
  - destruct rest as [|k2 rest']; [discriminate|]. apply IH. exact H.
  - destruct rest; [|discriminate]. exists value. split; [reflexivity|exact Hd].
Qed.

(** The directory paths of a named tree are the paths of names that
    lead to a directory. *)
Lemma getDirectoryPathsIn_nodeAt (t : JSValue) :
  forall basePath path,
    namedTree t ->
    In path (getDirectoryPathsIn t basePath) ->
    exists names v,
      names <> [] /\ Forall segmentName names
      /\ nodeAt names t = Some v /\ isDirectory v = true
      /\ path = joinUnder basePath names.
Proof.
  induction t as [p|items _|props IH] using JSValue_ind;
    intros basePath path Hnamed Hin; try (simpl in Hnamed; tauto).
  apply namedTree_JObj in Hnamed as [ND HF].
  rewrite getDirectoryPathsIn_JObj, in_flat_map in Hin.
  rewrite Forall_forall in IH, HF.
  destruct Hin as ([k v] & Hkv & Hpath). cbn [fst snd] in Hpath.
  pose proof (@In_get _ props k v ND Hkv) as Hget.
  destruct (HF _ Hkv) as [Hk Hv]. cbn [fst snd] in Hk, Hv.
  destruct (isDirectory v) eqn:Hd; [|destruct Hpath].
  destruct Hpath as [<-|Hpath].
  - exists [k], v. repeat split.
    + discriminate.
    + constructor; [exact Hk | constructor].
    + simpl. now rewrite Hget.
    + exact Hd.
  - apply (IH _ Hkv) in Hpath as (names & w & Hne & Hseg & Hnode & Hw & ->);
      [|apply Hv; reflexivity].
    exists (k :: names), w. repeat split.
    + discriminate.
    + constructor; assumption.
    + simpl. rewrite Hget, Hd. destruct names; [congruence | exact Hnode].
    + exact Hw.
Qed.

(** X5: every path listed for a named tree is found again by
    [findNodeByPath]: a file path leads to a node that is not a
    directory, a directory path to a directory, each the node under the
    names the path is made of. *)
Theorem listed_paths_found (t : JSValue) (p : jsstr) :
  namedTree t ->
  (In p (getFilePaths t []) ->
   exists v, findNodeByPath t p = Some v /\ nodeAt (pathParts p) t = Some v
             /\ isDirectory v = false)
  /\ (In p (getDirectoryPaths t []) ->
      exists v, findNodeByPath t p = Some v /\ nodeAt (pathParts p) t = Some v
                /\ isDirectory v = true).
Proof.
  intros Hnamed.
  assert (Hobj : exists props, t = JObj props).
  { destruct t; try (simpl in Hnamed; tauto). eexists; reflexivity. }
  destruct Hobj as [props ->].
  assert (Hfind : forall names v,
             names <> [] -> Forall segmentName names ->
             nodeAt names (JObj props) = Some v ->
             findNodeByPath (JObj props) (joinUnder [] names) = Some v
             /\ nodeAt (pathParts (joinUnder [] names)) (JObj props) = Some v).
  { intros names v Hne Hseg Hnode.
    assert (Hparts : pathParts (joinUnder [] names) = names).
    { rewrite (@pathParts_joinUnder names [] Hseg). reflexivity. }
    rewrite Hparts. split; [|exact Hnode].
    unfold findNodeByPath. rewrite Hparts.
    destruct (joinUnder [] names) eqn:E.
    - exfalso. apply Hne. rewrite <- Hparts. reflexivity.
    - simpl. apply walkParts_resolves. now apply nodeAt_resolves. }
  split.
  - intros Hin. unfold getFilePaths in Hin. cbn [asObject] in Hin.
    apply getFilePathsIn_fileAt in Hin as (names & Hfile & ->);
      [|exact Hnamed].
    destruct (@fileAt_segmentNames (JObj props) names Hnamed Hfile)
      as [Hne Hseg].
    destruct (fileAt_nodeAt names (JObj props) Hfile) as (v & Hnode & Hd).
    destruct (Hfind names v Hne Hseg Hnode) as [H1 H2].
    exists v. auto.
  - intros Hin. unfold getDirectoryPaths in Hin. cbn [asObject] in Hin.
    apply getDirectoryPathsIn_nodeAt in Hin
      as (names & v & Hne & Hseg & Hnode & Hd & ->); [|exact Hnamed].
    destruct (Hfind names v Hne Hseg Hnode) as [H1 H2].
    exists v. auto.
Qed.

(** The tree with the file a/b and the directory a. *)
Lemma listed_paths_found_witness :
  let t := JObj [(str "a", JObj [(str "b", JNum 1)])] in
  (exists v, findNodeByPath t (str "a/b") = Some v
             /\ nodeAt (pathParts (str "a/b")) t = Some v
             /\ isDirectory v = false)
  /\ (exists v, findNodeByPath t (str "a") = Some v
                /\ nodeAt (pathParts (str "a")) t = Some v
                /\ isDirectory v = true).
Proof.
  intros t.
  assert (Hnot : forall (x : N) l, existsb (N.eqb x) l = false -> ~ In x l).
  { intros x l Hx Hin.
    assert (Ht : existsb (N.eqb x) l = true).
    { apply existsb_exists. exists x. split; [exact Hin | apply N.eqb_refl]. }
    congruence. }
  assert (Hnamed : namedTree t).
  { simpl. repeat split;
      try discriminate;
      try (apply Hnot; reflexivity);
      try (repeat constructor; simpl; intuition discriminate). }
  split.
  - apply (proj1 (@listed_paths_found t (str "a/b") Hnamed)).
    left. reflexivity.
  - apply (proj2 (@listed_paths_found t (str "a") Hnamed)).
    left. reflexivity.
Defined.

End ListedPaths.

(** ** What sorting keeps *)

Section SortingKeeps.
Import JsString JsStringFacts JsValue JsValueFacts JsObjectFacts TreeUtils.
Import Spec Measures.

(** Two property lists with distinct keys that read alike hold the same
    pairs. *)
Lemma props_Permutation (V : Type) (a b : JsObject.props V) :
  NoDup (JsObject.keys a) -> NoDup (JsObject.keys b) ->
  (forall k, JsObject.get a k = JsObject.get b k) ->
  Permutation a b.
Proof.
  intros Ha Hb Hget. apply NoDup_Permutation.
  - eapply NoDup_map_inv. exact Ha.
  - eapply NoDup_map_inv. exact Hb.
  - intros [k v]. split; intros Hin.
    + apply get_In. rewrite <- Hget. now apply In_get.
    + apply get_In. rewrite Hget. now apply In_get.
Qed.

Lemma sortedProps_Permutation props :
  NoDup (JsObject.keys props) ->
  ~ In protoKey (JsObject.keys props) ->
  Permutation (sortedProps props)
              (map (fun kv => (fst kv, sortChild (snd kv))) props).
Proof.
  intros ND Hproto. apply props_Permutation.
  - unfold sortedProps. do 2 apply NoDup_assignAll. constructor.
  - rewrite keys_map_values. exact ND.
  - intros k. rewrite get_sortedProps, get_map_values.
    destruct (eqb k protoKey) eqn:Ek; [|reflexivity].
    apply eqb_eq in Ek. subst k.
    apply get_None in Hproto. rewrite Hproto. reflexivity.
Qed.

Lemma noProtoKeys_JObj props :
  noProtoKeys (JObj props) <->
  ~ In protoKey (JsObject.keys props)
  /\ Forall (fun kv => noProtoKeys (snd kv)) props.
Proof.
  simpl. apply and_iff_compat_l.
  induction props as [|[k v] r IH]; simpl.
  - split; [constructor | trivial].
  - rewrite IH. split.
    + intros [Hv Hr]; constructor; assumption.
    + intros H; inversion_clear H; split; assumption.
Qed.

Lemma noProtoKeys_asObject t : noProtoKeys t -> noProtoKeys (asObject t).
Proof.
  destruct t as [p|items|props]; try (intros H; exact H).
  intros H. cbn [asObject]. apply noProtoKeys_JObj. split.
  - rewrite keys_indexed. intros Hin.
    apply in_map_iff in Hin as (j & Hj & _). unfold decimal in Hj.
    destruct (N.to_uint (N.of_nat j)); vm_compute in Hj; discriminate Hj.
  - simpl in H. generalize 0%nat.
    induction items as [|x r IH]; intros index; simpl; constructor.
    + exact (proj1 H).
    + apply IH. exact (proj2 H).
Qed.

Lemma list_max_Permutation (l l' : list nat) :
  Permutation l l' -> list_max l = list_max l'.
Proof.
  induction 1 as [|x l l' _ IH|x y l|l l' l'' _ IH1 _ IH2];
    rewrite ?list_max_cons; try reflexivity; lia.
Qed.

Lemma flat_map_Permutation (A B : Type) (f : A -> list B) (l l' : list A) :
  Permutation l l' -> Permutation (flat_map f l) (flat_map f l').
Proof.
  induction 1 as [|x l l' _ IH|x y l|l l' l'' _ IH1 _ IH2]; simpl.
  - constructor.
  - now apply Permutation_app_head.
  - rewrite !app_assoc. apply Permutation_app_tail, Permutation_app_comm.
  - now transitivity (flat_map f l').
Qed.

Lemma flat_map_pointwise (A B : Type) (f g : A -> list B) (l : list A) :
  (forall x, In x l -> Permutation (f x) (g x)) ->
  Permutation (flat_map f l) (flat_map g l).
Proof.
  induction l as [|x l IH]; intros H; simpl; [constructor|].
  apply Permutation_app.
  - apply H. left; reflexivity.
  - apply IH. intros y Hy. apply H. right; exact Hy.
Qed.

Lemma flat_map_map (A B C : Type) (g : A -> B) (f : B -> list C) (l : list A) :
  flat_map f (map g l) = flat_map (fun x => f (g x)) l.
Proof.
  induction l as [|x l IH]; simpl; [reflexivity|]. now rewrite IH.
Qed.

Lemma sortTreeIn_measures (t : JSValue) :
  distinctKeys t ->
  noProtoKeys t ->
  countTreeFilesIn (sortTreeIn t) = countTreeFilesIn t
  /\ countTreeDirectoriesIn (sortTreeIn t) = countTreeDirectoriesIn t
  /\ getTreeDepthIn (sortTreeIn t) = getTreeDepthIn t.
Proof.
  induction t as [p|items _|props IH] using JSValue_ind; intros Hd Hn;
    try (repeat split; reflexivity).
  apply distinctKeys_JObj in Hd as [ND HF].
  apply noProtoKeys_JObj in Hn as [Hproto HN].
  rewrite sortTreeIn_JObj, !countTreeFilesIn_JObj,
    !countTreeDirectoriesIn_JObj, !getTreeDepthIn_JObj.
  pose proof (@sortedProps_Permutation props ND Hproto) as Hperm.
  rewrite Forall_forall in IH, HF, HN.
  assert (Hchild : forall kv, In kv props ->
             filesUnder (fst kv, sortChild (snd kv)) = filesUnder kv
             /\ directoriesUnder (fst kv, sortChild (snd kv))
                = directoriesUnder kv
             /\ depthUnder (fst kv, sortChild (snd kv)) = depthUnder kv).
  { intros [k v] Hin. unfold filesUnder, directoriesUnder, depthUnder.
    cbn [fst snd]. rewrite isDirectory_sortChild.
    unfold sortChild. destruct (isDirectory v); [|repeat split; reflexivity].
    pose proof (IH _ Hin (HF _ Hin) (HN _ Hin)) as H3. cbn [snd] in H3.
    destruct H3 as (-> & -> & ->). repeat split. }
  repeat split.
  - rewrite (@Permutation_list_sum _ _ (Permutation_map filesUnder Hperm)).
    rewrite map_map. f_equal. apply map_ext_in.
    intros kv Hin. apply (Hchild kv Hin).
  - rewrite (@Permutation_list_sum _ _ (Permutation_map directoriesUnder Hperm)).
    rewrite map_map. f_equal. apply map_ext_in.
    intros kv Hin. apply (Hchild kv Hin).
  - rewrite (list_max_Permutation (Permutation_map depthUnder Hperm)).
    rewrite map_map. f_equal. apply map_ext_in.
    intros kv Hin. apply (Hchild kv Hin).
Qed.

Lemma asObject_sortTreeIn (t : JSValue) :
  asObject (sortTreeIn (asObject t)) = sortTreeIn (asObject t).
Proof.
  destruct t as [p|items|props]; cbn [asObject]; try reflexivity;
    rewrite sortTreeIn_JObj; reflexivity.
Qed.

(** The key [__proto__] is not in the sorted tree, nor is what it
    held. *)
Lemma sortTree_drops_proto :
  let t := JObj [(str "__proto__", JObj [(str "x", JNum 1)]);
                 (str "a", JNum 2)] in
  sortTree t = JObj [(str "a", JNum 2)]
  /\ getTreeStats t
     = {| files := 2; directories := 1; depth := 1; totalNodes := 3 |}
  /\ getTreeStats (sortTree t)
     = {| files := 1; directories := 0; depth := 0; totalNodes := 1 |}
  /\ getFilePaths t [] = [str "__proto__/x"; str "a"]
  /\ getFilePaths (sortTree t) [] = [str "a"].
Proof. repeat split; reflexivity. Qed.

(** X6: sorting a tree without the key [__proto__] changes none of the
    statistics: the tree and the sorted tree have as many files, as many
    directories and the same depth. *)
Theorem sortTree_keeps_stats (t : JSValue) :
  distinctKeys t ->
  noProtoKeys t ->
  getTreeStats (sortTree t) = getTreeStats t.
Proof.
  intros Hd Hn. apply distinctKeys_asObject in Hd.
  apply noProtoKeys_asObject in Hn.
  unfold getTreeStats, countTreeFiles, countTreeDirectories, getTreeDepth,
    sortTree.
  rewrite asObject_sortTreeIn.
  destruct (sortTreeIn_measures (asObject t) Hd Hn) as (-> & -> & ->).
  reflexivity.
Qed.

Lemma sortTree_keeps_stats_witness :
  let t := JObj [(str "b", JNum 1);
                 (str "a", JObj [(str "z", JNull); (str "y", JObj [])])] in
  getTreeStats (sortTree t)
  = {| files := 2; directories := 2; depth := 2; totalNodes := 4 |}
  /\ getTreeStats (sortTree t) = getTreeStats t.
Proof.
  intros t. split; [reflexivity|]. apply sortTree_keeps_stats.
  - simpl. repeat split; repeat constructor; simpl; intuition discriminate.
  - simpl. repeat split; intros H; vm_compute in H; intuition discriminate.
Defined.

Lemma sortTreeIn_paths (t : JSValue) :
  distinctKeys t ->
  noProtoKeys t ->
  forall basePath,
    Permutation (getFilePathsIn (sortTreeIn t) basePath)
                (getFilePathsIn t basePath)
    /\ Permutation (getDirectoryPathsIn (sortTreeIn t) basePath)
                   (getDirectoryPathsIn t basePath).
Proof.
  induction t as [p|items _|props IH] using JSValue_ind;
    intros Hd Hn basePath; try (split; reflexivity).
  apply distinctKeys_JObj in Hd as [ND HF].
  apply noProtoKeys_JObj in Hn as [Hproto HN].
  rewrite sortTreeIn_JObj, !getFilePathsIn_JObj, !getDirectoryPathsIn_JObj.
  pose proof (@sortedProps_Permutation props ND Hproto) as Hperm.
  rewrite Forall_forall in IH, HF, HN.
  split.
  - rewrite (flat_map_Permutation _ Hperm), flat_map_map.
    apply flat_map_pointwise. intros [k v] Hin. cbn [fst snd].
    rewrite isDirectory_sortChild. unfold sortChild.
    destruct (isDirectory v); [|reflexivity].
    apply (IH _ Hin (HF _ Hin) (HN _ Hin)).
  - rewrite (flat_map_Permutation _ Hperm), flat_map_map.
    apply flat_map_pointwise. intros [k v] Hin. cbn [fst snd].
    rewrite isDirectory_sortChild. unfold sortChild.
    destruct (isDirectory v); [|reflexivity].
    constructor. apply (IH _ Hin (HF _ Hin) (HN _ Hin)).
Qed.

(** X7: sorting a tree without the key [__proto__] keeps the paths: the
    file paths and the directory paths of the sorted tree are those of
    the tree, in another order. *)
Theorem sortTree_keeps_paths (t : JSValue) (basePath : jsstr) :
  distinctKeys t ->
  noProtoKeys t ->
  Permutation (getFilePaths (sortTree t) basePath) (getFilePaths t basePath)
  /\ Permutation (getDirectoryPaths (sortTree t) basePath)
                 (getDirectoryPaths t basePath).
Proof.
  intros Hd Hn. apply distinctKeys_asObject in Hd.
  apply noProtoKeys_asObject in Hn.
  unfold getFilePaths, getDirectoryPaths, sortTree.
  rewrite asObject_sortTreeIn. now apply sortTreeIn_paths.
Qed.

Lemma sortTree_keeps_paths_witness :
  let t := JObj [(str "b", JNum 1);
                 (str "a", JObj [(str "z", JNull); (str "y", JObj [])])] in
  getFilePaths (sortTree t) [] = [str "a/z"; str "b"]
  /\ getFilePaths t [] = [str "b"; str "a/z"]
  /\ Permutation (getFilePaths (sortTree t) []) (getFilePaths t [])
  /\ Permutation (getDirectoryPaths (sortTree t) []) (getDirectoryPaths t []).
Proof.
  intros t. split; [reflexivity|]. split; [reflexivity|].
  apply sortTree_keeps_paths.
  - simpl. repeat split; repeat constructor; simpl; intuition discriminate.
  - simpl. repeat split; intros H; vm_compute in H; intuition discriminate.
Defined.

End SortingKeeps.

(** ** Building from paths, then looking up *)

Section BuildThenFind.
Import JsString JsStringFacts JsValue JsValueFacts JsObjectFacts TreeUtils.
Import Spec Measures.

(** A walk that succeeds leaves a file at the end of its path. *)
Lemma insertParts_ends_in_file (c : JSValue) (parts : list jsstr) :
  forall cur cur',
    parts <> [] -> ~ In protoKey parts ->
    insertParts c parts cur = Some cur' ->
    lookupPath parts cur' = Some PFile.
Proof.
  induction parts as [|p rest IH]; intros cur cur' Hne Hproto Hins;
    [congruence|].
  assert (Hp : eqb p protoKey = false).
  { apply eqb_neq. intros ->. apply Hproto. left; reflexivity. }
  destruct rest as [|p2 rest'].
  - simpl in Hins. rewrite Hp in Hins. injection Hins as <-.
    simpl. now rewrite get_set_same.
  - rewrite insertParts_unfold, Hp in Hins.
    assert (Hstep : forall children,
               option_map (fun sub => JsObject.set cur p (PDir sub))
                          (insertParts c (p2 :: rest') children) = Some cur' ->
               lookupPath (p :: p2 :: rest') cur' = Some PFile).
    { intros children Hmap.
      destruct (insertParts c (p2 :: rest') children) as [sub|] eqn:Hsub;
        [|discriminate].
      injection Hmap as <-.
      change (lookupPath (p :: p2 :: rest') (JsObject.set cur p (PDir sub)))
        with (match JsObject.get (JsObject.set cur p (PDir sub)) p with
              | Some (PDir s) => lookupPath (p2 :: rest') s
              | Some PFile => None
              | None => None
              end).
      rewrite get_set_same.
      apply (IH children sub); [discriminate| |exact Hsub].
      intros Hin. apply Hproto. right; exact Hin. }
    destruct (JsObject.get cur p) as [[|children]|].
    + destruct (negb (truthy c) || negb (typeofObject c)); [|discriminate].
      exact (Hstep [] Hins).
    + exact (Hstep children Hins).
    + exact (Hstep [] Hins).
Qed.

(** With a primitive for [defaultContent] a walk that meets no
    [__proto__] always ends: a leaf on its way is replaced by a
    directory. *)
Lemma insertParts_total (p : Prim) (parts : list jsstr) :
  forall cur,
    ~ In protoKey parts ->
    exists cur', insertParts (JPrim p) parts cur = Some cur'.
Proof.
  induction parts as [|q rest IH]; intros cur Hproto.
  { exists cur. reflexivity. }
  assert (Hq : eqb q protoKey = false).
  { apply eqb_neq. intros ->. apply Hproto. left; reflexivity. }
  assert (Hrest : ~ In protoKey rest).
  { intros Hin. apply Hproto. right; exact Hin. }
  destruct rest as [|q2 rest'].
  - simpl. rewrite Hq. eexists; reflexivity.
  - rewrite insertParts_unfold, Hq.
    assert (Hc : negb (truthy (JPrim p)) || negb (typeofObject (JPrim p))
                 = true).
    { destruct p; simpl; rewrite ?orb_true_r; reflexivity. }
    rewrite Hc.
    destruct (JsObject.get cur q) as [[|children]|].
    + destruct (IH [] Hrest) as [sub ->]. eexists; reflexivity.
    + destruct (IH children Hrest) as [sub ->]. eexists; reflexivity.
    + destruct (IH [] Hrest) as [sub ->]. eexists; reflexivity.
Qed.

Lemma noProtoPart_In (s : jsstr) :
  noProtoPart (JStr s) = true -> ~ In protoKey (pathParts s).
Proof.
  unfold noProtoPart. intros H Hin.
  apply negb_true_iff in H.
  assert (E : existsb (eqb protoKey) (pathParts s) = true).
  { apply existsb_exists. exists protoKey. split; [exact Hin|].
    apply eqb_refl. }
  congruence.
Qed.

Lemma addPath_total (p : Prim) (paths : list JSValue) :
  Forall (fun path => noProtoPart path = true) paths ->
  forall cur,
    exists cur', fold_left (addPath (JPrim p)) paths (Some cur) = Some cur'.
Proof.
  induction 1 as [|path paths Hpath _ IH]; intros cur.
  { exists cur. reflexivity. }
  cbn [fold_left].
  assert (Hstep : exists next, addPath (JPrim p) (Some cur) path = Some next).
  { unfold addPath.
    destruct (negb (truthy path) || negb (typeofString path));
      [eexists; reflexivity|].
    destruct path as [[| | |s]| |]; try (eexists; reflexivity).
    apply insertParts_total. apply noProtoPart_In. exact Hpath. }
  destruct Hstep as [next ->]. apply IH.
Qed.

(** X8: with a primitive for [defaultContent] and no part [__proto__] in
    any path, [createTreeFromPaths] returns a tree whatever the paths
    before the last one are, and [findNodeByPath] finds the last path in
    it: the node found is [defaultContent]. *)
Theorem last_path_found (p : Prim) (paths : list JSValue) (s : jsstr) :
  Forall (fun path => noProtoPart path = true) (paths ++ [JStr s]) ->
  pathParts s <> [] ->
  exists t,
    createTreeFromPaths (paths ++ [JStr s]) (JPrim p) = Some t
    /\ findNodeByPath t s = Some (JPrim p).
Proof.
  intros Hall Hparts.
  apply Forall_app in Hall as [Hpaths Hlast].
  inversion_clear Hlast as [|? ? Hs' _].
  apply noProtoPart_In in Hs'.
  assert (Hs : JsString.truthy s = true).
  { destruct s; [|reflexivity]. exfalso. apply Hparts. reflexivity. }
  destruct (addPath_total p Hpaths []) as [cur Hcur].
  destruct (@insertParts_total p (pathParts s) cur Hs') as [cur' Hins].
  exists (reify (JPrim p) (PDir cur')). split.
  - unfold createTreeFromPaths, buildPaths.
    rewrite fold_left_app, Hcur. cbn [fold_left]. unfold addPath.
    cbn [truthy typeofString]. rewrite Hs. cbn [negb orb].
    rewrite Hins. reflexivity.
  - assert (Htruthy : truthy (reify (JPrim p) (PDir cur')) = true)
      by (rewrite reify_PDir; reflexivity).
    unfold findNodeByPath. rewrite Hs, Htruthy. cbn [negb orb].
    apply walkParts_resolves.
    change (JPrim p) with (reify (JPrim p) PFile) at 2.
    apply lookupPath_resolves.
    eapply insertParts_ends_in_file; eassumption.
Qed.

(** The paths a, a/x/y and a/x/y/x, with the content c: each path
    goes through the leaf the one before it left. *)
Lemma last_path_found_witness :
  exists t,
    createTreeFromPaths
      ([JStr (str "a"); JStr (str "a/x/y")] ++ [JStr (str "a/x/y/x")])
      (JStr (str "c"))
    = Some t
    /\ findNodeByPath t (str "a/x/y/x") = Some (JStr (str "c")).
Proof.
  apply (@last_path_found (PStr (str "c"))
           [JStr (str "a"); JStr (str "a/x/y")] (str "a/x/y/x")).
  - repeat (constructor; [reflexivity|]). constructor.
  - discriminate.
Defined.

Lemma addPath_namesNothing c acc path :
  namesNothing path = true -> addPath c acc path = acc.
Proof.
  intros H. unfold addPath. destruct acc as [cur|]; [|reflexivity].
  destruct (negb (truthy path) || negb (typeofString path)); [reflexivity|].
  destruct path as [[| | |s]| |]; try reflexivity.
  simpl in H. destruct (pathParts s); [reflexivity | discriminate].
Qed.

(** X9: entries that are not strings, empty strings and strings made of
    slashes only count for nothing: leaving them out of the list gives
    the same tree. *)
Theorem createTreeFromPaths_skips (paths : list JSValue) (c : JSValue) :
  createTreeFromPaths paths c
  = createTreeFromPaths (filter (fun p => negb (namesNothing p)) paths) c.
Proof.
  unfold createTreeFromPaths, buildPaths. f_equal.
  generalize (Some (@nil (jsstr * PathTree))).
  induction paths as [|p paths IH]; intros acc; [reflexivity|].
  simpl. destruct (namesNothing p) eqn:Hp; simpl.
  - rewrite addPath_namesNothing by exact Hp. apply IH.
  - apply IH.
Qed.

End BuildThenFind.

(** ** Sanitized names *)

Section SanitizedNames.
Import JsString JsStringFacts JsonUtils.
Import Measures.

Lemma replaceEach_removes (p : N -> bool) (s : jsstr) :
  p underscore = false ->
  Forall (fun c => p c = false) (replaceEach p s).
Proof.
  intros Hu. unfold replaceEach. apply Forall_forall. intros c Hin.
  apply in_map_iff in Hin as (d & <- & _).
  destruct (p d) eqn:Hd; assumption.
Qed.

Lemma replaceEach_fixed (p : N -> bool) (s : jsstr) :
  Forall (fun c => p c = false) s -> replaceEach p s = s.
Proof.
  unfold replaceEach. induction 1 as [|c r Hc _ IH]; simpl; [reflexivity|].
  now rewrite Hc, IH.
Qed.

Lemma replaceRuns_without (p : N -> bool) (s : jsstr) :
  Forall (fun c => p c = false) s -> replaceRuns p s = s.
Proof.
  induction 1 as [|c r Hc _ IH]; simpl; [reflexivity|].
  now rewrite Hc, IH.
Qed.

Lemma replaceRuns_noAdjacent (p : N -> bool) (s : jsstr) :
  noAdjacent p (replaceRuns p s) = true.
Proof.
  induction s as [|c r IH]; [reflexivity|].
  cbn [replaceRuns]. destruct (p c) eqn:Hc.
  - destruct r as [|d r']; [reflexivity|].
    destruct (p d) eqn:Hd; [exact IH|].
    cbn [replaceRuns] in IH |- *. rewrite Hd in IH |- *.
    cbn [noAdjacent] in IH |- *. rewrite Hd in IH |- *.
    rewrite andb_false_r. exact IH.
  - cbn [noAdjacent]. rewrite Hc, IH.
    destruct (replaceRuns p r); reflexivity.
Qed.

Lemma replaceRuns_fixed (p : N -> bool) (s : jsstr) :
  (forall c, p c = true -> c = underscore) ->
  noAdjacent p s = true -> replaceRuns p s = s.
Proof.
  intros Hp. induction s as [|c r IH]; intros H; [reflexivity|].
  cbn [noAdjacent] in H. apply andb_true_iff in H as [Hhead Hr].
  cbn [replaceRuns]. rewrite (IH Hr).
  destruct (p c) eqn:Hc; [|reflexivity].
  rewrite (Hp c Hc). destruct r as [|d r']; [reflexivity|].
  destruct (p d); [discriminate | reflexivity].
Qed.

Lemma replaceRuns_nil (p : N -> bool) (s : jsstr) :
  replaceRuns p s = [] -> s = [].
Proof.
  induction s as [|c r IH]; [reflexivity|].
  cbn [replaceRuns]. destruct (p c); [|discriminate].
  destruct r as [|d r']; [discriminate|].
  destruct (p d); [|discriminate]. intros H. apply IH in H. discriminate.
Qed.

Lemma sanitizeFilename_units (filename : jsstr) :
  Forall (fun c => isReserved c = false /\ is_space c = false)
         (sanitizeFilename filename).
Proof.
  rewrite sanitizeFilename_trim_idle.
  apply replaceRuns_keeps; [split; reflexivity|].
  apply Forall_and.
  - apply replaceRuns_keeps; [reflexivity|].
    apply replaceEach_removes. reflexivity.
  - apply replaceRuns_removes. reflexivity.
Qed.

(** A name without reserved characters, white space and adjacent
    underscores is left as it is. *)
Lemma sanitizeFilename_fixed (filename : jsstr) :
  Forall (fun c => isReserved c = false /\ is_space c = false) filename ->
  noAdjacent isUnderscore filename = true ->
  sanitizeFilename filename = filename.
Proof.
  intros Hunits Hadj. apply Forall_and_inv in Hunits as [Hres Hsp].
  rewrite sanitizeFilename_trim_idle.
  rewrite (replaceEach_fixed _ Hres), (replaceRuns_without _ Hsp).
  apply replaceRuns_fixed; [|exact Hadj].
  intros c Hc. now apply N.eqb_eq in Hc.
Qed.

(** X10: a sanitized name holds none of the reserved characters, no
    white space, and no two underscores side by side. *)
Theorem sanitizeFilename_safe (filename : jsstr) :
  Forall (fun c => isReserved c = false /\ is_space c = false)
         (sanitizeFilename filename)
  /\ noAdjacent isUnderscore (sanitizeFilename filename) = true.
Proof.
  rewrite sanitizeFilename_trim_idle. split.
  - apply replaceRuns_keeps; [split; reflexivity|].
    apply Forall_and.
    + apply replaceRuns_keeps; [reflexivity|].
      apply replaceEach_removes. reflexivity.
    + apply replaceRuns_removes. reflexivity.
  - apply replaceRuns_noAdjacent.
Qed.

(** X11: sanitizing a sanitized name changes nothing. *)
Theorem sanitizeFilename_idempotent (filename : jsstr) :
  sanitizeFilename (sanitizeFilename filename) = sanitizeFilename filename.
Proof.
  apply sanitizeFilename_fixed; [apply sanitizeFilename_units|].
  rewrite sanitizeFilename_trim_idle. apply replaceRuns_noAdjacent.
Qed.

Lemma zipNameUnit_not_reserved (c : N) :
  zipNameUnit c = true -> isReserved c = false.
Proof.
  intros H. destruct (isReserved c) eqn:Hr; [|reflexivity].
  unfold isReserved in Hr.
  repeat match type of Hr with
         | context [N.eqb c ?n] =>
             destruct (N.eqb_spec c n); [subst; discriminate H|]
         end.
  discriminate Hr.
Qed.

(** X12: a valid ZIP name holds no reserved character, and its
    sanitized form is a valid ZIP name again. *)
Theorem isValidZipName_sanitized (filename : jsstr) :
  isValidZipName filename = true ->
  Forall (fun c => isReserved c = false) filename
  /\ isValidZipName (sanitizeFilename filename) = true.
Proof.
  unfold isValidZipName, validPatternTest.
  rewrite !andb_true_iff. intros [[Hne Hall] _].
  rewrite forallb_forall in Hall.
  assert (Hres : Forall (fun c => isReserved c = false) filename).
  { apply Forall_forall. intros c Hc.
    apply zipNameUnit_not_reserved, Hall, Hc. }
  split; [exact Hres|].
  pose proof (sanitizeFilename_units filename) as Hsafe.
  apply Forall_and_inv in Hsafe as [_ Hsp].
  rewrite (trim_no_space Hsp).
  rewrite sanitizeFilename_trim_idle in *.
  rewrite (replaceEach_fixed _ Hres) in *.
  set (o := replaceRuns isUnderscore (replaceRuns is_space filename)) in *.
  assert (Ho : o <> []).
  { intros E. unfold o in E. apply replaceRuns_nil in E.
    apply replaceRuns_nil in E. subst filename. discriminate Hne. }
  assert (Hunits : Forall (fun c => zipNameUnit c = true) o).
  { unfold o. apply replaceRuns_keeps; [reflexivity|].
    apply replaceRuns_keeps; [reflexivity|].
    apply Forall_forall. exact Hall. }
  repeat split.
  - destruct o; [congruence | reflexivity].
  - apply forallb_forall. apply Forall_forall. exact Hunits.
  - destruct o; [congruence | reflexivity].
Qed.

Lemma isValidZipName_sanitized_witness :
  Forall (fun c => isReserved c = false) (str "my files")
  /\ isValidZipName (sanitizeFilename (str "my files")) = true.
Proof. apply isValidZipName_sanitized. reflexivity. Defined.

End SanitizedNames.

(** ** What the builders produce *)

Section Produced.
Import JsString JsStringFacts JsValue JsValueFacts JsObjectFacts TreeUtils.
Import JsonUtils FileConverter Spec Measures.

Lemma leaves_JArr_cons x r : leaves (JArr (x :: r)) = leaves x + leaves (JArr r).
Proof. reflexivity. Qed.

Lemma leaves_JObj_cons k x r :
  leaves (JObj ((k, x) :: r)) = leaves x + leaves (JObj r).
Proof. reflexivity. Qed.

Lemma processObject_length (data : JSValue) :
  forall currentPath files,
    List.length (processObject data currentPath files)
    = List.length files + leaves data.
Proof.
  induction data as [p|items IH|props IH] using JSValue_ind;
    intros currentPath files.
  - simpl. rewrite length_app. reflexivity.
  - cbn [processObject]. generalize 0%nat as index. revert files.
    induction IH as [|item r Hitem _ IHr]; intros files index; [simpl; lia|].
    rewrite leaves_JArr_cons, IHr.
    destruct item; [rewrite length_app | rewrite Hitem ..]; simpl; lia.
  - cbn [processObject]. revert files.
    induction IH as [|[key value] r Hvalue _ IHr]; intros files; [simpl; lia|].
    rewrite leaves_JObj_cons, IHr. cbn [snd] in Hvalue.
    destruct value; [rewrite length_app | rewrite Hvalue ..]; simpl; lia.
Qed.

Lemma length_set_le (V : Type) (o : JsObject.props V) k v :
  List.length (JsObject.set o k v) <= S (List.length o).
Proof.
  unfold JsObject.set. destruct (JsObject.has o k).
  - induction o as [|[k' v'] o IH]; simpl; [lia|].
    destruct (eqb k' k); simpl; lia.
  - destruct (array_index k) as [i|].
    + induction o as [|[k' v'] o IH]; simpl; [lia|].
      destruct (array_index k') as [i'|]; [|simpl; lia].
      destruct (N.ltb i' i); simpl; lia.
    + rewrite length_app. simpl. lia.
Qed.

Lemma processNode_length (obj : JSValue) :
  forall currentPath fileTree,
    List.length (processNode obj currentPath fileTree)
    <= List.length fileTree + leaves obj.
Proof.
  induction obj as [p|items IH|props IH] using JSValue_ind;
    intros currentPath fileTree.
  - simpl. rewrite Nat.add_1_r. apply length_set_le.
  - cbn [processNode]. generalize 0%nat as index. revert fileTree.
    induction IH as [|item r Hitem _ IHr]; intros fileTree index;
      [simpl; lia|].
    rewrite leaves_JArr_cons.
    eapply Nat.le_trans; [apply IHr|].
    destruct item.
    + pose proof (length_set_le fileTree
                    ((currentPath ++ str "/item_" ++ decimal (N.of_nat index))
                       ++ txt) (JStr (toString p))).
      simpl leaves. lia.
    + pose proof (Hitem (currentPath ++ str "/item_"
                           ++ decimal (N.of_nat index)) fileTree). lia.
    + pose proof (Hitem (currentPath ++ str "/item_"
                           ++ decimal (N.of_nat index)) fileTree). lia.
  - cbn [processNode]. revert fileTree.
    induction IH as [|[key value] r Hvalue _ IHr]; intros fileTree;
      [simpl; lia|].
    rewrite leaves_JObj_cons.
    eapply Nat.le_trans; [apply IHr|]. cbn [snd] in Hvalue.
    set (newPath := if JsString.truthy currentPath
                    then currentPath ++ slash :: sanitizeFilename key
                    else sanitizeFilename key).
    destruct value.
    + pose proof (length_set_le fileTree (newPath ++ txt) (JStr (toString p))).
      simpl leaves. lia.
    + pose proof (Hvalue newPath fileTree). lia.
    + pose proof (Hvalue newPath fileTree). lia.
Qed.

(** X13: the file list holds one file for each primitive value of the
    input, so that empty arrays and empty objects leave no trace; the
    flat map holds at most as many. *)
Theorem files_per_leaf (v : JSValue) (basePath : jsstr) :
  List.length (generateFileStructure v basePath) = leaves v
  /\ countFiles (createFileTree v basePath) <= leaves v.
Proof.
  split.
  - unfold generateFileStructure. now rewrite processObject_length.
  - unfold countFiles, createFileTree, JsObject.keys. cbn [ownProps].
    rewrite length_map. apply (processNode_length v basePath []).
Qed.

(** Whatever holds of the map and survives the writing of a string
    under a key that ends in [.txt] holds after [processNode]. *)
Lemma processNode_invariant_txt (P : list (jsstr * JSValue) -> Prop) :
  (forall fileTree p s, P fileTree ->
                        P (JsObject.set fileTree (p ++ txt) (JStr s))) ->
  forall obj currentPath fileTree,
    P fileTree -> P (processNode obj currentPath fileTree).
Proof.
  intros Hset obj.
  induction obj as [p|items IH|props IH] using JSValue_ind;
    intros currentPath fileTree Hft.
  - simpl. apply Hset, Hft.
  - simpl. generalize 0%nat as index. revert fileTree Hft.
    induction IH as [|item r Hitem _ IHr]; intros fileTree Hft index;
      [exact Hft|].
    apply IHr. destruct item; [apply Hset, Hft | apply Hitem, Hft ..].
  - simpl. revert fileTree Hft.
    induction IH as [|[key value] r Hvalue _ IHr]; intros fileTree Hft;
      [exact Hft|].
    apply IHr. simpl in Hvalue.
    destruct value; [apply Hset, Hft | apply Hvalue, Hft ..].
Qed.

Lemma flat_measures (fileTree : list (jsstr * JSValue)) :
  Forall (fun kv => isDirectory (snd kv) = false) fileTree ->
  countTreeFilesIn (JObj fileTree) = List.length fileTree
  /\ countTreeDirectoriesIn (JObj fileTree) = 0
  /\ getTreeDepthIn (JObj fileTree) = 0.
Proof.
  rewrite countTreeFilesIn_JObj, countTreeDirectoriesIn_JObj,
    getTreeDepthIn_JObj.
  induction 1 as [|[k v] r Hv _ (IH1 & IH2 & IH3)]; [repeat split|].
  cbn [map]. rewrite !list_sum_cons, list_max_cons, IH1, IH2, IH3.
  unfold filesUnder, directoriesUnder, depthUnder. cbn [snd] in *.
  rewrite Hv. repeat split.
Qed.

(** X14: the flat map of [createFileTree] holds strings under keys that
    end in [.txt]; read as a tree it has no directory and depth 0, and
    its files are its entries. *)
Theorem createFileTree_flat (v : JSValue) (basePath : jsstr) :
  Forall (fun kv => (exists p, fst kv = p ++ txt)
                    /\ (exists s, snd kv = JStr s))
         (ownProps (createFileTree v basePath))
  /\ getTreeStats (createFileTree v basePath)
     = {| files := countFiles (createFileTree v basePath);
          directories := 0;
          depth := 0;
          totalNodes := countFiles (createFileTree v basePath) |}.
Proof.
  assert (Hshape : Forall (fun kv => (exists p, fst kv = p ++ txt)
                                     /\ (exists s, snd kv = JStr s))
                          (processNode v basePath [])).
  { apply processNode_invariant_txt; [|constructor].
    intros fileTree p s Hft. apply Forall_set; [|exact Hft].
    split; eexists; reflexivity. }
  split; [exact Hshape|].
  assert (Hfiles : Forall (fun kv => isDirectory (snd kv) = false)
                          (processNode v basePath [])).
  { eapply Forall_impl; [|exact Hshape].
    intros [k x] [_ [s Hs]]. cbn [snd] in *. subst x.
    apply isDirectory_prim. }
  destruct (flat_measures Hfiles) as (H1 & H2 & H3).
  unfold getTreeStats, countTreeFiles, countTreeDirectories, getTreeDepth,
    countFiles, createFileTree, JsObject.keys.
  cbn [asObject ownProps]. rewrite H1, H2, H3, length_map, Nat.add_0_r.
  reflexivity.
Qed.

(** Below a path with a property that lasts when the path grows, and
    that no empty path has, [processObject] pushes only paths with the
    property; and likewise for the keys [processNode] writes. *)
Lemma processObject_under (Q : jsstr -> Prop) :
  (forall p q, Q p -> Q (p ++ q)) ->
  (forall p, Q p -> JsString.truthy p = true) ->
  forall data currentPath files,
    Q currentPath ->
    Forall (fun f => Q (path f)) files ->
    Forall (fun f => Q (path f)) (processObject data currentPath files).
Proof.
  intros Happ Htruthy data.
  induction data as [p|items IH|props IH] using JSValue_ind;
    intros currentPath files Hcp Hfiles.
  - simpl. rewrite (Htruthy _ Hcp).
    apply Forall_app. split; [exact Hfiles|]. repeat constructor.
    simpl. now apply Happ.
  - simpl. generalize 0%nat as index. revert files Hfiles.
    induction IH as [|item r Hitem _ IHr]; intros files Hfiles index;
      [exact Hfiles|].
    apply IHr.
    assert (Hitem_path :
              Q (currentPath ++ str "/item_" ++ decimal (N.of_nat index)))
      by now apply Happ.
    destruct item; [|now apply Hitem ..].
    apply Forall_app. split; [exact Hfiles|]. repeat constructor.
    simpl path. now apply Happ.
  - simpl. revert files Hfiles.
    induction IH as [|[key value] r Hvalue _ IHr]; intros files Hfiles;
      [exact Hfiles|].
    apply IHr. rewrite (Htruthy _ Hcp).
    assert (Hnew : Q (currentPath ++ slash :: key)) by now apply Happ.
    simpl in Hvalue.
    destruct value; [|now apply Hvalue ..].
    apply Forall_app. split; [exact Hfiles|]. repeat constructor.
    simpl path. now apply Happ.
Qed.

Lemma processNode_under (Q : jsstr -> Prop) :
  (forall p q, Q p -> Q (p ++ q)) ->
  (forall p, Q p -> JsString.truthy p = true) ->
  forall obj currentPath fileTree,
    Q currentPath ->
    Forall (fun kv => Q (fst kv)) fileTree ->
    Forall (fun kv => Q (fst kv)) (processNode obj currentPath fileTree).
Proof.
  intros Happ Htruthy obj.
  induction obj as [p|items IH|props IH] using JSValue_ind;
    intros currentPath fileTree Hcp Hft.
  - simpl. rewrite (Htruthy _ Hcp).
    apply Forall_set; [|exact Hft]. simpl. now apply Happ.
  - simpl. generalize 0%nat as index. revert fileTree Hft.
    induction IH as [|item r Hitem _ IHr]; intros fileTree Hft index;
      [exact Hft|].
    apply IHr.
    assert (Hitem_path :
              Q (currentPath ++ str "/item_" ++ decimal (N.of_nat index)))
      by now apply Happ.
    destruct item; [|now apply Hitem ..].
    apply Forall_set; [|exact Hft]. simpl fst. now apply Happ.
  - simpl. revert fileTree Hft.
    induction IH as [|[key value] r Hvalue _ IHr]; intros fileTree Hft;
      [exact Hft|].
    apply IHr. rewrite (Htruthy _ Hcp).
    assert (Hnew : Q (currentPath ++ slash :: sanitizeFilename key))
      by now apply Happ.
    simpl in Hvalue.
    destruct value; [|now apply Hvalue ..].
    apply Forall_set; [|exact Hft]. simpl fst. now apply Happ.
Qed.

(** X15: with a base path that is not empty, every path of the file
    list and every key of the flat map starts with the base path. *)
Theorem paths_under_basePath (v : JSValue) (basePath : jsstr) :
  basePath <> [] ->
  Forall (fun f => exists rest, path f = basePath ++ rest)
         (generateFileStructure v basePath)
  /\ Forall (fun kv => exists rest, fst kv = basePath ++ rest)
            (ownProps (createFileTree v basePath)).
Proof.
  intros Hne.
  assert (Happ : forall p q, (exists rest, p = basePath ++ rest) ->
                             exists rest, p ++ q = basePath ++ rest).
  { intros p q [rest ->]. exists (rest ++ q). now rewrite app_assoc. }
  assert (Htruthy : forall p, (exists rest, p = basePath ++ rest) ->
                              JsString.truthy p = true).
  { intros p [rest ->]. destruct basePath; [congruence | reflexivity]. }
  assert (Hbase : exists rest, basePath = basePath ++ rest).
  { exists []. now rewrite app_nil_r. }
  split.
  - apply (processObject_under _ Happ Htruthy); [exact Hbase | constructor].
  - apply (processNode_under _ Happ Htruthy); [exact Hbase | constructor].
Qed.

Lemma paths_under_basePath_witness :
  Forall (fun f => exists rest, path f = str "out" ++ rest)
         (generateFileStructure (JArr [JNum 1; JObj [(str "k", JNull)]])
                                (str "out"))
  /\ Forall (fun kv => exists rest, fst kv = str "out" ++ rest)
            (ownProps (createFileTree (JArr [JNum 1; JObj [(str "k", JNull)]])
                                      (str "out"))).
Proof. apply paths_under_basePath. discriminate. Defined.

End Produced.

(** ** Expanding and collapsing *)

Section Toggling.
Import JsString JsStringFacts Expanded.

Lemma expanded_has_In (s : PathSet) (p : jsstr) : has s p = true <-> In p s.
Proof.
  unfold has. rewrite existsb_exists. split.
  - intros (q & Hin & Hq). apply eqb_eq in Hq. now subst.
  - intros Hin. exists p. split; [exact Hin | apply eqb_refl].
Qed.

Lemma In_delete (s : PathSet) (p q : jsstr) :
  NoDup s -> (In q (delete s p) <-> In q s /\ q <> p).
Proof.
  induction 1 as [|x r Hx ND IH]; simpl; [tauto|].
  destruct (eqb x p) eqn:E.
  - apply eqb_eq in E; subst x. split.
    + intros Hin. split; [right; exact Hin|]. intros ->. contradiction.
    + intros [[->|Hin] Hne]; [congruence | exact Hin].
  - apply eqb_neq in E. simpl. rewrite IH. split.
    + intros [->|[Hin Hne]]; [split; [left; reflexivity | exact E] | tauto].
    + intros [[->|Hin] Hne]; [left; reflexivity | right; tauto].
Qed.

Lemma NoDup_delete (s : PathSet) (p : jsstr) : NoDup s -> NoDup (delete s p).
Proof.
  induction 1 as [|x r Hx ND IH]; simpl; [constructor|].
  destruct (eqb x p); [exact ND|].
  constructor; [|exact IH].
  intros Hin. apply Hx. apply (In_delete p x ND) in Hin. tauto.
Qed.

Lemma In_toggleFolder (s : PathSet) (p q : jsstr) :
  NoDup s ->
  (In q (toggleFolder s p) <-> (if eqb p q then ~ In q s else In q s)).
Proof.
  intros ND. unfold toggleFolder, add.
  destruct (has s p) eqn:Hp.
  - apply expanded_has_In in Hp. rewrite (In_delete p q ND).
    destruct (eqb p q) eqn:E.
    + apply eqb_eq in E; subst q. tauto.
    + apply eqb_neq in E. intuition congruence.
  - assert (Hnp : ~ In p s) by (rewrite <- expanded_has_In; congruence).
    rewrite in_app_iff. simpl.
    destruct (eqb p q) eqn:E.
    + apply eqb_eq in E; subst q. tauto.
    + apply eqb_neq in E. tauto.
Qed.

Lemma NoDup_toggleFolder (s : PathSet) (p : jsstr) :
  NoDup s -> NoDup (toggleFolder s p).
Proof.
  intros ND. unfold toggleFolder, add.
  destruct (has s p) eqn:Hp; [now apply NoDup_delete|].
  apply NoDup_app; [exact ND | repeat constructor; simpl; tauto|].
  intros x Hx [<-|[]]. apply expanded_has_In in Hx. congruence.
Qed.

(** X16: toggling a path changes whether that path is expanded and
    nothing else, and toggling it twice gives back the same expanded
    folders. *)
Theorem toggleFolder_twice (expandedFolders : PathSet) (path : jsstr) :
  NoDup expandedFolders ->
  has (toggleFolder expandedFolders path) path
    = negb (has expandedFolders path)
  /\ (forall q, q <> path ->
                has (toggleFolder expandedFolders path) q
                = has expandedFolders q)
  /\ (forall q, has (toggleFolder (toggleFolder expandedFolders path) path) q
                = has expandedFolders q)
  /\ NoDup (toggleFolder expandedFolders path).
Proof.
  intros ND.
  assert (Hbool : forall s, NoDup s -> forall q,
             has (toggleFolder s path) q
             = if eqb path q then negb (has s q) else has s q).
  { intros s Hs q. pose proof (In_toggleFolder path q Hs) as H.
    destruct (eqb path q); rewrite <- !expanded_has_In in H; revert H;
      destruct (has s q), (has (toggleFolder s path) q);
      intros [H1 H2]; try reflexivity; exfalso;
      first [ exact (H1 eq_refl eq_refl)
            | discriminate (H1 eq_refl)
            | discriminate (H2 eq_refl)
            | assert (Hf : false = true) by (apply H2; discriminate);
              discriminate Hf ]. }
  repeat split.
  - rewrite Hbool, eqb_refl by exact ND. reflexivity.
  - intros q Hq. rewrite Hbool by exact ND.
    destruct (eqb path q) eqn:E; [|reflexivity].
    apply eqb_eq in E. congruence.
  - intros q. rewrite Hbool by (apply NoDup_toggleFolder; exact ND).
    rewrite Hbool by exact ND.
    destruct (eqb path q); [apply negb_involutive | reflexivity].
  - apply NoDup_toggleFolder. exact ND.
Qed.

Lemma toggleFolder_twice_witness :
  toggleFolder [str "a"; str "b"] (str "a") = [str "b"]
  /\ toggleFolder (toggleFolder [str "a"; str "b"] (str "a")) (str "a")
     = [str "b"; str "a"]
  /\ (forall q,
        has (toggleFolder (toggleFolder [str "a"; str "b"] (str "a")) (str "a"))
            q
        = has [str "a"; str "b"] q).
Proof.
  split; [reflexivity|]. split; [reflexivity|].
  apply (@toggleFolder_twice [str "a"; str "b"] (str "a")).
  repeat constructor; simpl; intuition discriminate.
Defined.

End Toggling.

(** ** The tree for display *)

Section Hierarchy.
Import JsString JsStringFacts JsValue JsonUtils.
Import Measures.

Lemma wellPlaced_HFolder parentPath name path children :
  wellPlaced parentPath (HFolder name path children) <->
  path = extendPath parentPath name
  /\ NoDup (map nodeName children)
  /\ Forall (wellPlaced path) children.
Proof.
  simpl. do 2 apply and_iff_compat_l.
  induction children as [|c r IH]; simpl.
  - split; [constructor | trivial].
  - rewrite IH. split.
    + intros [Hc Hr]; constructor; assumption.
    + intros H; inversion_clear H; split; assumption.
Qed.

Lemma hasName_In part level :
  hasName part level = true <-> In part (map nodeName level).
Proof.
  unfold hasName. rewrite existsb_exists, in_map_iff. split.
  - intros (n & Hin & Hn). apply eqb_eq in Hn. exists n. auto.
  - intros (n & Hn & Hin). exists n. split; [exact Hin|].
    apply eqb_eq. exact Hn.
Qed.

(** The names of a level after a round: the names before it, and the
    part when no node had it. *)
Lemma enter_names part currentPath continue level level' :
  enter part currentPath continue level = Some level' ->
  map nodeName level' =
  if hasName part level then map nodeName level
  else map nodeName level ++ [part].
Proof.
  revert level'. induction level as [|node r IH]; intros level' H; simpl in H.
  - destruct (continue []); [|discriminate]. injection H as <-. reflexivity.
  - unfold hasName. cbn [existsb]. fold (hasName part r).
    destruct (eqb (nodeName node) part) eqn:E.
    + destruct node as [n p c|n p ch]; [discriminate|].
      destruct (continue ch); [|discriminate]. injection H as <-. reflexivity.
    + destruct (enter part currentPath continue r) as [r'|]; [|discriminate].
      injection H as <-. cbn [map orb]. rewrite (IH r' eq_refl).
      destruct (hasName part r); reflexivity.
Qed.

Lemma enter_wellPlaced parentPath part continue level level' :
  (forall children children',
      NoDup (map nodeName children) ->
      Forall (wellPlaced (extendPath parentPath part)) children ->
      continue children = Some children' ->
      NoDup (map nodeName children')
      /\ Forall (wellPlaced (extendPath parentPath part)) children') ->
  Forall (wellPlaced parentPath) level ->
  enter part (extendPath parentPath part) continue level = Some level' ->
  Forall (wellPlaced parentPath) level'.
Proof.
  intros Hcont. revert level'.
  induction level as [|node r IH]; intros level' Hlevel H; simpl in H.
  - destruct (continue []) as [ch|] eqn:E; [|discriminate].
    injection H as <-. constructor; [|constructor].
    apply wellPlaced_HFolder.
    destruct (Hcont [] ch (NoDup_nil _) (Forall_nil _) E) as [ND HF].
    auto.
  - inversion_clear Hlevel as [|? ? Hnode Hr].
    destruct (eqb (nodeName node) part) eqn:E.
    + destruct node as [n p c|n p ch]; [discriminate|].
      apply eqb_eq in E. cbn [nodeName] in E. subst n.
      destruct (continue ch) as [ch'|] eqn:Ech; [|discriminate].
      injection H as <-. constructor; [|exact Hr].
      apply wellPlaced_HFolder in Hnode as (Hp & ND & HF).
      apply wellPlaced_HFolder. subst p.
      destruct (Hcont ch ch' ND HF Ech) as [ND' HF']. auto.
    + destruct (enter part (extendPath parentPath part) continue r)
        as [r'|] eqn:Er; [|discriminate].
      injection H as <-. constructor; [exact Hnode|].
      apply IH; [exact Hr | reflexivity].
Qed.

(** Placing a file keeps the names of siblings distinct and every node
    well placed. *)
Lemma placeParts_wellPlaced (content : JSValue) (parts : list jsstr) :
  forall currentPath level level',
    NoDup (map nodeName level) ->
    Forall (wellPlaced currentPath) level ->
    placeParts content parts currentPath level = Some level' ->
    NoDup (map nodeName level') /\ Forall (wellPlaced currentPath) level'.
Proof.
  induction parts as [|part rest IH]; intros currentPath level level' ND HF H.
  - simpl in H. injection H as <-. auto.
  - destruct rest as [|part2 rest'].
    + simpl in H.
      fold (hasName part level) in H.
      destruct (hasName part level) eqn:Hn; injection H as <-; [auto|].
      split.
      * rewrite map_app. apply NoDup_app; [exact ND | | ].
        -- repeat constructor. simpl. tauto.
        -- intros x Hx [<-|[]]. apply hasName_In in Hx. simpl in Hx.
           congruence.
      * apply Forall_app. split; [exact HF|]. repeat constructor.
    + change (placeParts content (part :: part2 :: rest') currentPath level)
        with (enter part (extendPath currentPath part)
                    (placeParts content (part2 :: rest')
                                (extendPath currentPath part)) level) in H.
      split.
      * rewrite (enter_names _ _ _ _ H).
        destruct (hasName part level) eqn:Hn; [exact ND|].
        apply NoDup_app; [exact ND | | ].
        -- repeat constructor. simpl. tauto.
        -- intros x Hx [<-|[]]. apply hasName_In in Hx. congruence.
      * eapply enter_wellPlaced; [|exact HF | exact H].
        intros children children' NDc HFc Hc.
        eapply IH; [exact NDc | exact HFc | exact Hc].
Qed.

(** X17: when [createHierarchicalTree] returns, no two siblings of the
    tree have the same name, at any level, and the path of every node is
    the path of its parent extended by its name. *)
Theorem createHierarchicalTree_wellPlaced
    (fileTree : JSValue) (tree : list HNode) :
  createHierarchicalTree fileTree = Some tree ->
  NoDup (map nodeName tree) /\ Forall (wellPlaced []) tree.
Proof.
  unfold createHierarchicalTree.
  destruct (keysAndValues fileTree) as [entries|]; [|discriminate].
  assert (H : forall acc,
             (forall level, acc = Some level ->
                            NoDup (map nodeName level)
                            /\ Forall (wellPlaced []) level) ->
             fold_left placeFile entries acc = Some tree ->
             NoDup (map nodeName tree) /\ Forall (wellPlaced []) tree).
  { induction entries as [|entry entries IH]; intros acc Hacc; simpl.
    - intros E. exact (Hacc _ E).
    - apply IH. intros level Hlevel.
      destruct acc as [level0|]; [|discriminate].
      destruct (Hacc level0 eq_refl) as [ND HF].
      eapply placeParts_wellPlaced; [exact ND | exact HF | exact Hlevel]. }
  apply H. intros level [= <-]. split; constructor.
Qed.

Lemma createHierarchicalTree_wellPlaced_witness :
  let flat := JObj [(str "a/b.txt", JStr (str "1"));
                    (str "a/c.txt", JStr (str "2"))] in
  createHierarchicalTree flat
  = Some [HFolder (str "a") (str "a")
            [HFile (str "b.txt") (str "a/b.txt") (JStr (str "1"));
             HFile (str "c.txt") (str "a/c.txt") (JStr (str "2"))]]
  /\ (forall tree, createHierarchicalTree flat = Some tree ->
                   NoDup (map nodeName tree) /\ Forall (wellPlaced []) tree).
Proof.
  intros flat. split; [reflexivity|].
  intros tree. apply createHierarchicalTree_wellPlaced.
Defined.

End Hierarchy.

(** ** The preview tree *)

Section Preview.
Import JsString JsStringFacts JsValue JsObjectFacts FileConverter.
Import Spec Measures.

Lemma addParts_unfold c p p2 rest cur :
  addParts c (p :: p2 :: rest) cur =
  if inherited p then None
  else match JsObject.get cur p with
       | Some (FFolder children) =>
           option_map (fun sub => JsObject.set cur p (FFolder sub))
                      (addParts c (p2 :: rest) children)
       | Some (FFile _) => None
       | None =>
           option_map (fun sub => JsObject.set cur p (FFolder sub))
                      (addParts c (p2 :: rest) [])
       end.
Proof. reflexivity. Qed.

Lemma previewAt_cons p qs cur :
  previewAt (p :: qs) cur =
  match JsObject.get cur p with
  | Some (FFolder sub) => previewAt qs sub
  | Some (FFile c) => match qs with [] => Some (FFile c) | _ :: _ => None end
  | None => None
  end.
Proof. reflexivity. Qed.

Lemma previewAt_nil_children (parts : list jsstr) (c : jsstr) :
  previewAt parts [] <> Some (FFile c).
Proof. destruct parts; simpl; discriminate. Qed.

Lemma isPrefix_dec (a b : list jsstr) : {isPrefix a b} + {~ isPrefix a b}.
Proof.
  revert b. induction a as [|x a IH]; intros b.
  - left. exists b. reflexivity.
  - destruct b as [|y b].
    + right. intros [more H]. discriminate.
    + destruct (eq_dec x y) as [->|Hxy].
      * destruct (IH b) as [Hp|Hn].
        -- left. destruct Hp as [more ->]. exists more. reflexivity.
        -- right. intros [more H]. injection H as H. apply Hn.
           exists more. exact H.
      * right. intros [more H]. injection H as H _. congruence.
Qed.

(** A file placed where the walk meets a file: the round throws. *)
Lemma addParts_below_file (c c' : jsstr) (names rest : list jsstr) :
  forall cur,
    names <> [] ->
    rest <> [] ->
    previewAt names cur = Some (FFile c') ->
    addParts c (names ++ rest) cur = None.
Proof.
  induction names as [|n ns IH]; intros cur Hne Hrest Hat; [congruence|].
  rewrite previewAt_cons in Hat.
  destruct (ns ++ rest) as [|p2 tl] eqn:Etl.
  { apply app_eq_nil in Etl. tauto. }
  rewrite <- app_comm_cons, Etl, addParts_unfold.
  destruct (inherited n); [reflexivity|].
  destruct (JsObject.get cur n) as [[fc|sub]|]; [reflexivity| |discriminate].
  destruct ns as [|n2 ns'].
  - discriminate.
  - rewrite IH; [reflexivity | discriminate | exact Hrest | exact Hat].
Qed.

(** Where a round ends when it returns. *)
Lemma addParts_found (c : jsstr) (parts : list jsstr) :
  forall cur cur',
    parts <> [] ->
    addParts c parts cur = Some cur' ->
    previewAt parts cur' = Some (FFile c).
Proof.
  induction parts as [|p rest IH]; intros cur cur' Hne H; [congruence|].
  destruct rest as [|p2 rest'].
  - simpl in H. destruct (eqb p TreeUtils.protoKey); [discriminate|].
    injection H as <-. simpl. rewrite get_set_same. reflexivity.
  - rewrite addParts_unfold in H.
    destruct (inherited p); [discriminate|].
    destruct (JsObject.get cur p) as [[fc|sub]|]; [discriminate| |].
    + destruct (addParts c (p2 :: rest') sub) as [sub'|] eqn:E; [|discriminate].
      injection H as <-. rewrite previewAt_cons, get_set_same.
      eapply IH; [discriminate | exact E].
    + destruct (addParts c (p2 :: rest') []) as [sub'|] eqn:E; [|discriminate].
      injection H as <-. rewrite previewAt_cons, get_set_same.
      eapply IH; [discriminate | exact E].
Qed.

(** What one file does to the tree, when no file stands on its way: the
    path ends at the file, nothing is left below it, the names above it
    are folders, and every path that parts from it leads where it led. *)
Lemma addParts_effect (c : jsstr) (parts : list jsstr) :
  forall cur,
    parts <> [] ->
    safeParts parts = true ->
    (forall r more c', parts = r ++ more -> more <> [] ->
                       previewAt r cur <> Some (FFile c')) ->
    exists cur',
      addParts c parts cur = Some cur'
      /\ previewAt parts cur' = Some (FFile c)
      /\ (forall more, more <> [] -> previewAt (parts ++ more) cur' = None)
      /\ (forall r more, parts = r ++ more -> more <> [] ->
                         exists d, previewAt r cur' = Some (FFolder d))
      /\ (forall qs, apart qs parts ->
                     previewAt qs cur' = previewAt qs cur).
Proof.
  induction parts as [|p rest IH]; intros cur Hne Hsafe Hfree; [congruence|].
  destruct rest as [|p2 rest'].
  - simpl in Hsafe. apply negb_true_iff in Hsafe.
    exists (JsObject.set cur p (FFile c)).
    split; [simpl; rewrite Hsafe; reflexivity|].
    split; [simpl; rewrite get_set_same; reflexivity|].
    split; [|split].
    + intros [|m more] Hm; [congruence|].
      simpl. rewrite get_set_same. reflexivity.
    + intros [|x r] more Heq Hm.
      * eexists; reflexivity.
      * injection Heq as _ Heq. destruct r; [|discriminate].
        simpl in Heq. congruence.
    + intros [|q qs] [Hn1 Hn2].
      * exfalso. apply Hn1. exists [p]. reflexivity.
      * simpl. rewrite get_set_other; [reflexivity|].
        intros <-. apply Hn2. exists qs. reflexivity.
  - change (safeParts (p :: p2 :: rest'))
      with (negb (inherited p) && safeParts (p2 :: rest')) in Hsafe.
    apply andb_true_iff in Hsafe as [Hp Hsafe].
    apply negb_true_iff in Hp.
    rewrite addParts_unfold, Hp.
    set (sub := match JsObject.get cur p with
                | Some (FFolder s) => s
                | _ => []
                end).
    assert (Hget : forall c', JsObject.get cur p <> Some (FFile c')).
    { intros c' E. apply (Hfree [p] (p2 :: rest') c' eq_refl); [discriminate|].
      simpl. now rewrite E. }
    assert (Hsub : forall qs, qs <> [] ->
                     previewAt (p :: qs) cur = previewAt qs sub).
    { intros qs Hqs. rewrite previewAt_cons. subst sub.
      destruct (JsObject.get cur p) as [[fc|s]|].
      - exfalso. apply (Hget fc). reflexivity.
      - reflexivity.
      - destruct qs; [congruence | reflexivity]. }
    destruct (IH sub) as (sub' & Hins & Ha & Hb & Hc & Hd).
    + discriminate.
    + exact Hsafe.
    + intros r more c' Heq Hm.
      destruct r as [|x r'].
      * simpl. discriminate.
      * rewrite <- Hsub by discriminate.
        apply (Hfree (p :: x :: r') more c'); [|exact Hm].
        simpl. f_equal. exact Heq.
    + exists (JsObject.set cur p (FFolder sub')).
      split.
      { subst sub. destruct (JsObject.get cur p) as [[fc|s]|].
        - exfalso. apply (Hget fc). reflexivity.
        - rewrite Hins. reflexivity.
        - rewrite Hins. reflexivity. }
      assert (Hlook : forall qs, previewAt (p :: qs)
                                   (JsObject.set cur p (FFolder sub'))
                                 = previewAt qs sub').
      { intros qs. rewrite previewAt_cons. now rewrite get_set_same. }
      split; [rewrite Hlook; exact Ha|].
      split; [|split].
      * intros more Hm. rewrite <- app_comm_cons, Hlook. now apply Hb.
      * intros [|x r] more Heq Hm.
        -- eexists; reflexivity.
        -- injection Heq as <- Heq. rewrite Hlook. now apply (Hc r more).
      * intros [|q qs] [Hn1 Hn2].
        -- exfalso. apply Hn1. eexists. reflexivity.
        -- destruct (eq_dec q p) as [->|Hq].
           ++ rewrite Hlook.
              assert (Hqs : qs <> []).
              { intros ->. apply Hn1. exists (p2 :: rest'). reflexivity. }
              rewrite (Hsub qs Hqs). apply Hd. split.
              ** intros [m Hm]. apply Hn1. exists m. simpl. now f_equal.
              ** intros [m Hm]. apply Hn2. exists m. simpl. now f_equal.
           ++ rewrite !previewAt_cons.
              rewrite get_set_other; [reflexivity | congruence].
Qed.

Lemma buildFileTree_app (files : list FileEntry) (file : FileEntry) :
  buildFileTree (files ++ [file]) = addFile (buildFileTree files) file.
Proof. unfold buildFileTree. rewrite fold_left_app. reflexivity. Qed.

(** X18: when [buildFileTree] returns, the file it was given last is in
    the tree, under the parts of its path and with its content, whatever
    the files before it. *)
Theorem buildFileTree_last_file
    (files : list FileEntry) (file : FileEntry)
    (tree : list (jsstr * FNode)) :
  buildFileTree (files ++ [file]) = Some tree ->
  previewAt (partsOf file) tree = Some (FFile (content file)).
Proof.
  rewrite buildFileTree_app.
  destruct (buildFileTree files) as [cur|]; [|discriminate].
  simpl. intros H.
  eapply addParts_found; [apply split_not_nil | exact H].
Qed.

Lemma buildFileTree_last_file_witness :
  let files := [mkFile (str "a/b.json") (str "1")] in
  let file := mkFile (str "a/b.json") (str "2") in
  buildFileTree (files ++ [file])
  = Some [(str "a", FFolder [(str "b.json", FFile (str "2"))])]
  /\ previewAt (partsOf file)
               [(str "a", FFolder [(str "b.json", FFile (str "2"))])]
     = Some (FFile (content file)).
Proof.
  intros files file. split; [reflexivity|].
  apply (@buildFileTree_last_file files file). reflexivity.
Defined.

(** X19: a file whose path goes through the path of a file of the tree
    makes [buildFileTree] throw: the file is not replaced by a folder. *)
Theorem buildFileTree_file_as_folder
    (files : list FileEntry) (file : FileEntry)
    (tree : list (jsstr * FNode)) (names rest : list jsstr) (c : jsstr) :
  buildFileTree files = Some tree ->
  names <> [] ->
  previewAt names tree = Some (FFile c) ->
  rest <> [] ->
  partsOf file = names ++ rest ->
  buildFileTree (files ++ [file]) = None.
Proof.
  intros Htree Hnames Hat Hrest Hparts.
  rewrite buildFileTree_app, Htree. simpl.
  unfold partsOf in Hparts. rewrite Hparts.
  eapply addParts_below_file; eassumption.
Qed.

Lemma buildFileTree_file_as_folder_witness :
  let files := generateFileStructure
                 (JObj [(str "a", JNum 2);
                        (str "a.json", JObj [(str "b", JNum 1)])]) [] in
  files = [mkFile (str "a.json") (str "2");
           mkFile (str "a.json/b.json") (str "1")]
  /\ buildFileTree files = None.
Proof.
  intros files. split; [reflexivity|].
  apply (@buildFileTree_file_as_folder
           [mkFile (str "a.json") (str "2")]
           (mkFile (str "a.json/b.json") (str "1"))
           [(str "a.json", FFile (str "2"))]
           [str "a.json"] [str "b.json"] (str "2")).
  - reflexivity.
  - discriminate.
  - reflexivity.
  - discriminate.
  - reflexivity.
Defined.

Lemma ForallOrdPairs_before (A : Type) (R : A -> A -> Prop)
    (a b : list A) (x : A) :
  ForallOrdPairs R (a ++ x :: b) -> Forall (fun y => R y x) a.
Proof.
  induction a as [|y a IH]; simpl; intros H; [constructor|].
  inversion_clear H as [|? ? Hy Hrest]. constructor.
  - rewrite Forall_forall in Hy. apply Hy. apply in_or_app. right. left.
    reflexivity.
  - apply IH. exact Hrest.
Qed.

Lemma addFile_holds (given todo : list FileEntry) :
  forall cur,
    holds given cur ->
    Forall (fun file => safeParts (partsOf file) = true) todo ->
    ForallOrdPairs (fun f g => apart (partsOf f) (partsOf g)) (given ++ todo) ->
    exists tree,
      fold_left addFile todo (Some cur) = Some tree
      /\ holds (given ++ todo) tree.
Proof.
  revert given. induction todo as [|g todo IH]; intros given cur Hcur Hsafe Hap.
  - exists cur. rewrite app_nil_r. auto.
  - inversion_clear Hsafe as [|? ? Hg Htodo].
    pose proof (ForallOrdPairs_before _ _ _ Hap) as Hbefore.
    rewrite Forall_forall in Hbefore.
    destruct Hcur as [Hin Hout].
    destruct (@addParts_effect (content g) (partsOf g) cur)
      as (cur' & Hadd & Ha & Hb & Hc & Hd).
    + apply split_not_nil.
    + exact Hg.
    + intros r more c' Heq Hm Hat.
      destruct (Hout r c' Hat) as (f & Hf & Hparts & _).
      destruct (Hbefore f Hf) as [Hn _]. apply Hn.
      exists more. rewrite Hparts. exact Heq.
    + cbn [fold_left addFile]. fold (partsOf g). rewrite Hadd.
      replace (given ++ g :: todo) with ((given ++ [g]) ++ todo) in *
        by (rewrite <- app_assoc; reflexivity).
      apply IH; [|exact Htodo | exact Hap].
      split.
      * intros f Hf. apply in_app_or in Hf as [Hf|[<-|[]]]; [|exact Ha].
        rewrite Hd; [apply Hin; exact Hf|].
        apply Hbefore. exact Hf.
      * intros qs c Hat.
        destruct (isPrefix_dec qs (partsOf g)) as [[more Hp]|Hn1].
        -- destruct more as [|m more].
           ++ rewrite app_nil_r in Hp. subst qs. rewrite Ha in Hat.
              injection Hat as <-. exists g. split; [|auto].
              apply in_or_app. right. left. reflexivity.
           ++ destruct (Hc qs (m :: more) Hp) as [d Hfolder]; [discriminate|].
              congruence.
        -- destruct (isPrefix_dec (partsOf g) qs) as [[more Hp]|Hn2].
           ++ destruct more as [|m more].
              ** exfalso. apply Hn1. exists []. rewrite Hp, !app_nil_r.
                 reflexivity.
              ** rewrite Hp, Hb in Hat; discriminate.
           ++ rewrite Hd in Hat by (split; assumption).
              destruct (Hout qs c Hat) as (f & Hf & Hparts).
              exists f. split; [|exact Hparts].
              apply in_or_app. left. exact Hf.
Qed.

(** X20: when no path of the files is the beginning of another, part
    by part, and no part before the last is a name objects inherit,
    [buildFileTree] returns a tree that holds every file under its path
    with its content, and no other file. *)
Theorem buildFileTree_holds_files (files : list FileEntry) :
  Forall (fun file => safeParts (partsOf file) = true) files ->
  ForallOrdPairs (fun f g => apart (partsOf f) (partsOf g)) files ->
  exists tree,
    buildFileTree files = Some tree
    /\ (forall file, In file files ->
                     previewAt (partsOf file) tree
                     = Some (FFile (content file)))
    /\ (forall qs c, previewAt qs tree = Some (FFile c) ->
                     exists file, In file files
                                  /\ partsOf file = qs /\ content file = c).
Proof.
  intros Hsafe Hap.
  destruct (@addFile_holds [] files [])
    as (tree & Hfold & Hin & Hout); [|exact Hsafe | exact Hap |].
  - split; [intros f []|].
    intros qs c H. exfalso. exact (previewAt_nil_children _ H).
  - exists tree. auto.
Qed.

Lemma buildFileTree_holds_files_witness :
  let files := generateFileStructure
                 (JObj [(str "a", JObj [(str "b", JNum 1)]);
                        (str "c", JArr [JBool true])]) [] in
  files = [mkFile (str "a/b.json") (str "1");
           mkFile (str "c/item_0.txt") (str "true")]
  /\ exists tree,
       buildFileTree files = Some tree
       /\ (forall file, In file files ->
                        previewAt (partsOf file) tree
                        = Some (FFile (content file)))
       /\ (forall qs c, previewAt qs tree = Some (FFile c) ->
                        exists file, In file files
                                     /\ partsOf file = qs /\ content file = c).
Proof.
  intros files. split; [reflexivity|].
  apply (@buildFileTree_holds_files files).
  - repeat constructor.
  - repeat constructor; intros [more H]; vm_compute in H; discriminate.
Defined.

End Preview.

(** ** From the files to the preview *)

Section Generated.
Import JsString JsStringFacts JsValue JsObjectFacts FileConverter.
Import Spec Measures.

Lemma stem_plain (name : jsstr) : ~ In dot name -> stem name = name.
Proof.
  induction name as [|c r IH]; simpl; intros H; [reflexivity|].
  destruct (N.eqb_spec c dot) as [->|_]; [tauto|].
  rewrite IH by tauto. reflexivity.
Qed.

Lemma stem_extension (name extension : jsstr) :
  ~ In dot name -> stem (name ++ dot :: extension) = name.
Proof.
  induction name as [|c r IH]; simpl; intros H.
  - reflexivity.
  - destruct (N.eqb_spec c dot) as [->|_]; [tauto|].
    rewrite IH by tauto. reflexivity.
Qed.

Lemma uint_units_digits (d : Decimal.uint) :
  Forall (fun c => is_digit c = true) (uint_units d).
Proof. induction d; simpl; constructor; auto. Qed.

Lemma digits_without (c : N) (s : jsstr) :
  is_digit c = false ->
  Forall (fun c => is_digit c = true) s -> ~ In c s.
Proof.
  intros Hc H Hin. rewrite Forall_forall in H. apply H in Hin. congruence.
Qed.

Lemma itemName_without (c : N) (index : nat) :
  is_digit c = false -> existsb (N.eqb c) (str "item_") = false ->
  ~ In c (itemName index).
Proof.
  intros Hd Hc Hin. unfold itemName in Hin.
  apply in_app_or in Hin as [Hin|Hin].
  - assert (E : existsb (N.eqb c) (str "item_") = true).
    { apply existsb_exists. exists c. split; [exact Hin | apply N.eqb_refl]. }
    congruence.
  - revert Hin. apply digits_without; [exact Hd|]. apply uint_units_digits.
Qed.

Lemma itemName_inj (i j : nat) : itemName i = itemName j -> i = j.
Proof.
  unfold itemName. intros H. apply app_inv_head in H.
  apply decimal_inj in H. lia.
Qed.

Lemma itemName_inherited (index : nat) : inherited (itemName index) = false.
Proof.
  destruct (inherited (itemName index)) eqn:E; [|reflexivity].
  unfold inherited in E. apply existsb_exists in E as (x & Hx & E).
  apply eqb_eq in E. unfold itemName in E.
  unfold inheritedNames in Hx. simpl in Hx.
  repeat (destruct Hx as [<-|Hx]; [vm_compute in E; discriminate E|]).
  destruct Hx.
Qed.

Lemma extensionOf_cases (p : Prim) :
  extensionOf p = str "txt" \/ extensionOf p = str "json".
Proof.
  destruct p; simpl; auto.
  destruct (Nat.ltb 100 (List.length s)); auto.
Qed.

Lemma split_child (basePath name : jsstr) :
  ~ In slash name ->
  split slash (basePath ++ slash :: name) = split slash basePath ++ [name].
Proof.
  intros H. rewrite split_app, (split_without_separator slash name H).
  reflexivity.
Qed.

Lemma not_In_app (c : N) (a b : jsstr) :
  ~ In c a -> ~ In c b -> ~ In c (a ++ b).
Proof. intros Ha Hb H. apply in_app_or in H. tauto. Qed.

Lemma apart_heads (base : list jsstr) (h h' : jsstr) (tl tl' : list jsstr) :
  h <> h' -> apart (base ++ h :: tl) (base ++ h' :: tl').
Proof.
  intros Hne. split; intros [more H]; rewrite <- app_assoc in H;
    apply app_inv_head in H; injection H as H _; congruence.
Qed.

Lemma ForallOrdPairs_app (A : Type) (R : A -> A -> Prop) (a b : list A) :
  ForallOrdPairs R a -> ForallOrdPairs R b ->
  (forall x y, In x a -> In y b -> R x y) ->
  ForallOrdPairs R (a ++ b).
Proof.
  induction a as [|x a IH]; simpl; intros Ha Hb Hab; [exact Hb|].
  inversion_clear Ha as [|? ? Hx Ha']. constructor.
  - apply Forall_app. split; [exact Hx|].
    apply Forall_forall. intros y Hy. apply Hab; auto.
  - apply IH; auto.
Qed.

Lemma safeParts_app (base rel : list jsstr) :
  Forall (fun p => inherited p = false) base ->
  rel <> [] ->
  safeParts (base ++ rel) = safeParts rel.
Proof.
  intros Hbase Hrel. induction Hbase as [|p base Hp _ IH]; [reflexivity|].
  simpl app. destruct (base ++ rel) as [|x tl] eqn:E.
  - apply app_eq_nil in E. tauto.
  - change (safeParts (p :: x :: tl))
      with (negb (inherited p) && safeParts (x :: tl)).
    rewrite Hp, IH. reflexivity.
Qed.

Lemma childBase_truthy (v : JSValue) (currentPath : jsstr) :
  JsString.truthy currentPath = true ->
  childBase v currentPath = split slash currentPath.
Proof. intros H. destruct v; simpl; try rewrite H; reflexivity. Qed.

Lemma plainKeys_JArr items : plainKeys (JArr items) <-> Forall plainKeys items.
Proof.
  simpl. induction items as [|x r IH]; simpl.
  - split; [constructor | trivial].
  - rewrite IH. split.
    + intros [Hx Hr]; constructor; assumption.
    + intros H; inversion_clear H; split; assumption.
Qed.

Lemma plainKeys_JObj props :
  plainKeys (JObj props) <->
  NoDup (JsObject.keys props)
  /\ Forall (fun kv => plainKey (fst kv) (snd kv) /\ plainKeys (snd kv)) props.
Proof.
  simpl. apply and_iff_compat_l.
  induction props as [|[k x] r IH]; simpl.
  - split; [constructor | trivial].
  - rewrite IH. split.
    + intros (Hk & Hx & Hr); constructor; [split|]; assumption.
    + intros H; inversion_clear H as [|? ? [Hk Hx] Hr]. auto.
Qed.

(** The file of a scalar under its name. *)
Lemma filedUnder_file (base : list jsstr) (name extension : jsstr)
    (file : FileEntry) :
  ~ In dot name ->
  partsOf file = base ++ [name ++ dot :: extension] ->
  filedUnder base [name] file.
Proof.
  intros Hdot Hparts. exists (name ++ dot :: extension), [].
  split; [rewrite stem_extension by exact Hdot; left; reflexivity|].
  split; [exact Hparts|].
  simpl. apply negb_true_iff, eqb_neq. intros E.
  assert (Hin : In dot TreeUtils.protoKey).
  { rewrite <- E. apply in_or_app. right. left. reflexivity. }
  vm_compute in Hin. intuition discriminate.
Qed.

(** The files of a folder under its name. *)
Lemma filedUnder_folder (base : list jsstr) (name : jsstr)
    (new : list FileEntry) :
  ~ In dot name ->
  inherited name = false ->
  Forall (fun file => exists rel,
              rel <> [] /\ partsOf file = (base ++ [name]) ++ rel
              /\ safeParts rel = true) new ->
  Forall (filedUnder base [name]) new.
Proof.
  intros Hdot Hname. apply Forall_impl.
  intros file (rel & Hrel & Hparts & Hsafe). exists name, rel.
  split; [rewrite stem_plain by exact Hdot; left; reflexivity|].
  split; [rewrite Hparts, <- app_assoc; reflexivity|].
  destruct rel as [|x tl]; [congruence|].
  change (safeParts (name :: x :: tl))
    with (negb (inherited name) && safeParts (x :: tl)).
  rewrite Hname, Hsafe. reflexivity.
Qed.

(** The files of one child, then those of the children after it. *)
Lemma filedUnder_groups (base : list jsstr) (name : jsstr)
    (names : list jsstr) (group new : list FileEntry) :
  ~ In name names ->
  Forall (filedUnder base [name]) group ->
  ForallOrdPairs (fun f g => apart (partsOf f) (partsOf g)) group ->
  Forall (filedUnder base names) new ->
  ForallOrdPairs (fun f g => apart (partsOf f) (partsOf g)) new ->
  Forall (filedUnder base (name :: names)) (group ++ new)
  /\ ForallOrdPairs (fun f g => apart (partsOf f) (partsOf g)) (group ++ new).
Proof.
  intros Hname Hgroup Hg Hnew Hn. split.
  - apply Forall_app. split.
    + revert Hgroup. apply Forall_impl.
      intros f (h & tl & [Hh|[]] & Hrest). exists h, tl.
      split; [left; exact Hh | exact Hrest].
    + revert Hnew. apply Forall_impl.
      intros f (h & tl & Hin & Hrest). exists h, tl.
      split; [right; exact Hin | exact Hrest].
  - apply ForallOrdPairs_app; [exact Hg | exact Hn|].
    intros f g Hf Hg'. rewrite Forall_forall in Hgroup, Hnew.
    destruct (Hgroup f Hf) as (h & tl & [Hh|[]] & Hparts & _).
    destruct (Hnew g Hg') as (h' & tl' & Hh' & Hparts' & _).
    rewrite Hparts, Hparts'. apply apart_heads.
    intros <-. rewrite <- Hh in Hh'. tauto.
Qed.

Lemma filedUnder_rel (base names : list jsstr) (new : list FileEntry) :
  Forall (filedUnder base names) new ->
  Forall (fun file => exists rel,
              rel <> [] /\ partsOf file = base ++ rel
              /\ safeParts rel = true) new.
Proof.
  apply Forall_impl. intros file (h & tl & _ & Hparts & Hsafe).
  exists (h :: tl). split; [discriminate | auto].
Qed.

(** The files [processObject] adds for an array or an object with
    plain keys: each under the parts of the current path, no path the
    beginning of another. *)
Lemma processObject_apart (data : JSValue) :
  forall currentPath files,
    plainKeys data ->
    (forall p, data <> JPrim p) ->
    Forall (fun p => inherited p = false) (childBase data currentPath) ->
    exists new,
      processObject data currentPath files = files ++ new
      /\ Forall (fun file => exists rel,
                     rel <> [] /\ partsOf file = childBase data currentPath ++ rel
                     /\ safeParts rel = true) new
      /\ ForallOrdPairs (fun f g => apart (partsOf f) (partsOf g)) new.
Proof.
  induction data as [p|items IH|props IH] using JSValue_ind;
    intros currentPath files Hplain Hdir Hbase.
  - exfalso. exact (Hdir p eq_refl).
  - change (childBase (JArr items) currentPath)
      with (split slash currentPath) in *.
    set (base := split slash currentPath) in *.
    cbn [processObject].
    apply plainKeys_JArr in Hplain.
    match goal with
    | |- exists new, ?each items 0%nat files = _ /\ _ =>
        assert (Hloop : forall index files, exists new,
                   each items index files = files ++ new
                   /\ Forall (filedUnder base
                                (map itemName (seq index (List.length items))))
                             new
                   /\ ForallOrdPairs
                        (fun f g => apart (partsOf f) (partsOf g)) new)
    end.
    { clear files Hdir. revert Hplain.
      induction IH as [|item r Hitem _ IHr]; intros Hplain index files.
      - exists []. rewrite app_nil_r. repeat constructor.
      - inversion_clear Hplain as [|? ? Hitem_plain Hr].
        set (name := itemName index).
        assert (Hslash : ~ In slash name)
          by (apply itemName_without; reflexivity).
        assert (Hdot : ~ In dot name)
          by (apply itemName_without; reflexivity).
        assert (Hfresh : ~ In name
                           (map itemName (seq (S index) (List.length r)))).
        { intros Hin. apply in_map_iff in Hin as (j & Hj & Hin).
          apply itemName_inj in Hj. apply in_seq in Hin. lia. }
        change (str "/item_" ++ decimal (N.of_nat index))
          with (slash :: name).
        cbn [List.length seq map].
        assert (Hchild :
                  forall new,
                    (forall p, item <> JPrim p) ->
                    Forall (fun file => exists rel,
                                rel <> []
                                /\ partsOf file
                                   = childBase item
                                       (currentPath ++ slash :: name) ++ rel
                                /\ safeParts rel = true) new ->
                    Forall (filedUnder base [name]) new).
        { intros new Hnot Hnew.
          apply filedUnder_folder;
            [exact Hdot | apply itemName_inherited|].
          rewrite childBase_truthy, split_child in Hnew;
            [exact Hnew | exact Hslash|].
          destruct currentPath; reflexivity. }
        assert (Hchild_base :
                  Forall (fun p => inherited p = false)
                         (childBase item (currentPath ++ slash :: name))).
        { rewrite childBase_truthy, split_child;
            [|exact Hslash | destruct currentPath; reflexivity].
          apply Forall_app. split; [exact Hbase|].
          repeat constructor. }
        destruct item as [p|sub|sub].
        + destruct (IHr Hr (S index)
                        (files ++
                         [{| path := (currentPath ++ slash :: name)
                                     ++ str ".txt";
                             content := toString p |}]))
            as (new & E & HF & HP).
          eexists. split; [rewrite E, <- app_assoc; reflexivity|].
          apply filedUnder_groups; try assumption.
          * repeat constructor.
            apply (@filedUnder_file base name (str "txt")); [exact Hdot|].
            unfold partsOf. cbn [path].
            change (str ".txt") with (dot :: str "txt").
            rewrite <- app_assoc.
            apply split_child.
            apply not_In_app; [exact Hslash|].
            vm_compute. intuition discriminate.
          * repeat constructor.
        + destruct (Hitem (currentPath ++ slash :: name) files Hitem_plain)
            as (group & Eg & HFg & HPg);
            [discriminate | exact Hchild_base|].
          rewrite Eg.
          destruct (IHr Hr (S index) (files ++ group)) as (new & E & HF & HP).
          eexists. split; [rewrite E, <- app_assoc; reflexivity|].
          apply filedUnder_groups; try assumption.
          apply Hchild; [discriminate | exact HFg].
        + destruct (Hitem (currentPath ++ slash :: name) files Hitem_plain)
            as (group & Eg & HFg & HPg);
            [discriminate | exact Hchild_base|].
          rewrite Eg.
          destruct (IHr Hr (S index) (files ++ group)) as (new & E & HF & HP).
          eexists. split; [rewrite E, <- app_assoc; reflexivity|].
          apply filedUnder_groups; try assumption.
          apply Hchild; [discriminate | exact HFg]. }
    destruct (Hloop 0%nat files) as (new & E & HF & HP).
    exists new. split; [exact E|]. split; [|exact HP].
    eapply filedUnder_rel. exact HF.
  - change (childBase (JObj props) currentPath)
      with (if JsString.truthy currentPath
            then split slash currentPath else []) in *.
    set (base := if JsString.truthy currentPath
                 then split slash currentPath else []) in *.
    cbn [processObject].
    apply plainKeys_JObj in Hplain.
    set (newPath := fun key : jsstr =>
                      if JsString.truthy currentPath
                      then currentPath ++ slash :: key else key).
    assert (Hparts : forall name, ~ In slash name ->
                       split slash (newPath name) = base ++ [name]).
    { intros name Hname. subst base newPath. cbn beta.
      destruct (JsString.truthy currentPath).
      - apply split_child. exact Hname.
      - apply split_without_separator. exact Hname. }
    assert (Hfile : forall key extension,
               newPath key ++ dot :: extension
               = newPath (key ++ dot :: extension)).
    { intros key extension. subst newPath. cbn beta.
      destruct (JsString.truthy currentPath); [|reflexivity].
      rewrite <- app_assoc. reflexivity. }
    assert (Htruthy : forall key, key <> [] ->
                        JsString.truthy (newPath key) = true).
    { intros key Hkey. subst newPath. cbn beta.
      destruct currentPath; [destruct key; [congruence|]|]; reflexivity. }
    match goal with
    | |- exists new, ?each props files = _ /\ _ =>
        assert (Hloop : forall files, exists new,
                   each props files = files ++ new
                   /\ Forall (filedUnder base (JsObject.keys props)) new
                   /\ ForallOrdPairs
                        (fun f g => apart (partsOf f) (partsOf g)) new)
    end.
    { clear files Hdir. destruct Hplain as [Hkeys Hplain].
      revert Hkeys Hplain.
      induction IH as [|[key value] r Hvalue _ IHr];
        intros Hkeys Hplain files.
      - exists []. rewrite app_nil_r. repeat constructor.
      - inversion_clear Hplain as [|? ? [Hkey Hvalue_plain] Hr].
        cbn [fst snd] in Hkey, Hvalue_plain, Hvalue.
        destruct Hkey as (Hne & Hslash & Hdot & Hinherited).
        cbn [JsObject.keys map fst] in Hkeys |- *.
        inversion_clear Hkeys as [|? ? Hfresh Hkeys_r].
        fold (JsObject.keys r) in Hfresh, Hkeys_r |- *.
        fold (newPath key).
        assert (Hchild_base : childBase value (newPath key) = base ++ [key]).
        { rewrite childBase_truthy by (apply Htruthy; exact Hne).
          apply Hparts. exact Hslash. }
        destruct value as [p|sub|sub].
        + destruct (IHr Hkeys_r Hr
                        (files ++
                         [{| path := newPath key ++ str "." ++ extensionOf p;
                             content := contentOf (extensionOf p) p |}]))
            as (new & E & HF & HP).
          eexists. split; [rewrite E, <- app_assoc; reflexivity|].
          apply filedUnder_groups; try assumption.
          * repeat constructor.
            apply (@filedUnder_file base key (extensionOf p)); [exact Hdot|].
            unfold partsOf. cbn [path].
            change (str "." ++ extensionOf p) with (dot :: extensionOf p).
            rewrite Hfile. apply Hparts.
            apply not_In_app; [exact Hslash|].
            destruct (extensionOf_cases p) as [-> | ->];
              vm_compute; intuition discriminate.
          * repeat constructor.
        + destruct (Hvalue (newPath key) files Hvalue_plain)
            as (group & Eg & HFg & HPg);
            [discriminate
            |rewrite Hchild_base; apply Forall_app; split;
             [exact Hbase | repeat constructor; exact Hinherited]|].
          rewrite Eg.
          destruct (IHr Hkeys_r Hr (files ++ group)) as (new & E & HF & HP).
          eexists. split; [rewrite E, <- app_assoc; reflexivity|].
          apply filedUnder_groups; try assumption.
          apply filedUnder_folder; [exact Hdot | exact Hinherited|].
          rewrite Hchild_base in HFg. exact HFg.
        + destruct (Hvalue (newPath key) files Hvalue_plain)
            as (group & Eg & HFg & HPg);
            [discriminate
            |rewrite Hchild_base; apply Forall_app; split;
             [exact Hbase | repeat constructor; exact Hinherited]|].
          rewrite Eg.
          destruct (IHr Hkeys_r Hr (files ++ group)) as (new & E & HF & HP).
          eexists. split; [rewrite E, <- app_assoc; reflexivity|].
          apply filedUnder_groups; try assumption.
          apply filedUnder_folder; [exact Hdot | exact Hinherited|].
          rewrite Hchild_base in HFg. exact HFg.
    }
    destruct (Hloop files) as (new & E & HF & HP).
    exists new. split; [exact E|]. split; [|exact HP].
    eapply filedUnder_rel. exact HF.
Qed.

(** The paths [generateFileStructure] gives a value with plain keys:
    fit for the preview, none the beginning of another. *)
Lemma generated_apart (v : JSValue) :
  plainKeys v ->
  Forall (fun file => safeParts (partsOf file) = true)
         (generateFileStructure v [])
  /\ ForallOrdPairs (fun f g => apart (partsOf f) (partsOf g))
                    (generateFileStructure v []).
Proof.
  intros Hplain. unfold generateFileStructure.
  destruct v as [p|items|props].
  - split; repeat constructor.
  - destruct (@processObject_apart (JArr items) [] [] Hplain)
      as (new & E & HF & HP); [discriminate | repeat constructor|].
    rewrite E. simpl app. split; [|exact HP].
    revert HF. apply Forall_impl. intros file (rel & Hrel & -> & Hsafe).
    rewrite safeParts_app; [exact Hsafe | repeat constructor | exact Hrel].
  - destruct (@processObject_apart (JObj props) [] [] Hplain)
      as (new & E & HF & HP); [discriminate | repeat constructor|].
    rewrite E. simpl app. split; [|exact HP].
    revert HF. apply Forall_impl. intros file (rel & Hrel & -> & Hsafe).
    exact Hsafe.
Qed.

Lemma apart_distinct (files : list FileEntry) :
  ForallOrdPairs (fun f g => apart (partsOf f) (partsOf g)) files ->
  NoDup (map path files).
Proof.
  induction 1 as [|f files Hf _ IH]; simpl; constructor; [|exact IH].
  intros Hin. apply in_map_iff in Hin as (g & Hpath & Hg).
  rewrite Forall_forall in Hf. destruct (Hf g Hg) as [Hn _].
  apply Hn. exists []. unfold partsOf. rewrite Hpath, app_nil_r. reflexivity.
Qed.

(** X21: the files [generateFileStructure] makes of a value whose
    objects have distinct keys, not empty and without slash or dot,
    have pairwise distinct paths. *)
Theorem generateFileStructure_paths_distinct (v : JSValue) :
  plainKeys v ->
  NoDup (map path (generateFileStructure v [])).
Proof.
  intros Hplain. apply apart_distinct. apply generated_apart. exact Hplain.
Qed.

Lemma generateFileStructure_paths_distinct_witness :
  let v := JObj [(str "a", JObj [(str "b", JNum 1)]);
                 (str "c", JArr [JBool true; JStr (str "x")])] in
  map path (generateFileStructure v [])
  = [str "a/b.json"; str "c/item_0.txt"; str "c/item_1.txt"]
  /\ NoDup (map path (generateFileStructure v [])).
Proof.
  intros v. split; [reflexivity|].
  apply (@generateFileStructure_paths_distinct v).
  simpl. unfold plainKey.
  repeat split; try discriminate; try reflexivity;
    try (repeat constructor; vm_compute; intuition discriminate);
    vm_compute; intuition discriminate.
Defined.

(** X22: for such a value [buildFileTree] returns on the files of
    [generateFileStructure], and the tree holds every one of them under
    the parts of its path, with its content, and no other file. *)
Theorem generated_files_previewed (v : JSValue) :
  plainKeys v ->
  exists tree,
    buildFileTree (generateFileStructure v []) = Some tree
    /\ (forall file, In file (generateFileStructure v []) ->
                     previewAt (partsOf file) tree
                     = Some (FFile (content file)))
    /\ (forall qs c, previewAt qs tree = Some (FFile c) ->
                     exists file, In file (generateFileStructure v [])
                                  /\ partsOf file = qs /\ content file = c).
Proof.
  intros Hplain. destruct (generated_apart v Hplain) as [Hsafe Hap].
  destruct (@addFile_holds [] (generateFileStructure v []) [])
    as (tree & Hfold & Hin & Hout); [|exact Hsafe | exact Hap |].
  - split; [intros f []|].
    intros qs c H. exfalso. exact (previewAt_nil_children _ H).
  - exists tree. auto.
Qed.

Lemma generated_files_previewed_witness :
  let v := JArr [JNum 1; JObj [(str "x", JNum 3)]] in
  buildFileTree (generateFileStructure v [])
  = Some [([], FFolder [(str "item_0.txt", FFile (str "1"));
                        (str "item_1",
                         FFolder [(str "x.json", FFile (str "3"))])])]
  /\ exists tree,
       buildFileTree (generateFileStructure v []) = Some tree
       /\ (forall file, In file (generateFileStructure v []) ->
                        previewAt (partsOf file) tree
                        = Some (FFile (content file)))
       /\ (forall qs c, previewAt qs tree = Some (FFile c) ->
                        exists file, In file (generateFileStructure v [])
                                     /\ partsOf file = qs /\ content file = c).
Proof.
  intros v. split; [reflexivity|].
  apply (@generated_files_previewed v).
  simpl. unfold plainKey.
  repeat split; try discriminate; try reflexivity;
    try (repeat constructor; vm_compute; intuition discriminate);
    vm_compute; intuition discriminate.
Defined.

End Generated.

(** ** What the display tree holds *)

Section Display.
Import JsString JsStringFacts JsValue JsonUtils.
Import Spec Measures.

Lemma findNamed_cons (q : jsstr) (node : HNode) (level : list HNode) :
  findNamed q (node :: level)
  = if eqb (nodeName node) q then Some node else findNamed q level.
Proof. reflexivity. Qed.

Lemma findNamed_hasName (q : jsstr) (level : list HNode) :
  findNamed q level = None <-> hasName q level = false.
Proof.
  unfold hasName. induction level as [|node r IH].
  - simpl. tauto.
  - rewrite findNamed_cons. cbn [existsb].
    destruct (eqb (nodeName node) q); simpl; [|exact IH].
    split; discriminate.
Qed.

Lemma findNamed_push (q : jsstr) (level : list HNode) (node : HNode) :
  findNamed q (level ++ [node])
  = match findNamed q level with
    | Some n => Some n
    | None => if eqb (nodeName node) q then Some node else None
    end.
Proof.
  induction level as [|x r IH]; [reflexivity|].
  simpl app. rewrite !findNamed_cons.
  destruct (eqb (nodeName x) q); [reflexivity | exact IH].
Qed.

Lemma displayAt_cons (q : jsstr) (qs : list jsstr) (level : list HNode) :
  displayAt (q :: qs) level
  = match findNamed q level with
    | None => None
    | Some node =>
        match qs with
        | [] => Some node
        | _ :: _ =>
            match node with
            | HFolder _ _ children => displayAt qs children
            | HFile _ _ _ => None
            end
        end
    end.
Proof. reflexivity. Qed.

Lemma displayAt_empty (qs : list jsstr) : displayAt qs [] = None.
Proof. destruct qs; reflexivity. Qed.

(** A round at a file throws. *)
Lemma enter_at_file part currentPath continue level name path content :
  findNamed part level = Some (HFile name path content) ->
  enter part currentPath continue level = None.
Proof.
  induction level as [|node r IH]; [discriminate|].
  rewrite findNamed_cons. simpl.
  destruct (eqb (nodeName node) part).
  - intros [= ->]. reflexivity.
  - intros H. rewrite (IH H). reflexivity.
Qed.

(** A round at a folder throws when the rounds that follow do. *)
Lemma enter_at_folder part currentPath continue level name path children :
  findNamed part level = Some (HFolder name path children) ->
  continue children = None ->
  enter part currentPath continue level = None.
Proof.
  intros Hfind Hnone. induction level as [|node r IH]; [discriminate|].
  rewrite findNamed_cons in Hfind. simpl.
  destruct (eqb (nodeName node) part).
  - injection Hfind as ->. rewrite Hnone. reflexivity.
  - rewrite (IH Hfind). reflexivity.
Qed.

(** A round that meets no file: the folder of the part holds what the
    rounds that follow make of its children, and the other names lead
    where they led. *)
Lemma enter_effect part currentPath continue level children' :
  (forall name path content,
      findNamed part level <> Some (HFile name path content)) ->
  continue (childrenOf part level) = Some children' ->
  exists level' name path,
    enter part currentPath continue level = Some level'
    /\ findNamed part level' = Some (HFolder name path children')
    /\ (forall q, q <> part -> findNamed q level' = findNamed q level)
    /\ filesOf level' + filesOf (childrenOf part level)
       = filesOf level + filesOf children'.
Proof.
  induction level as [|node r IH]; intros Hfile Hcont.
  - exists [HFolder part currentPath children'], part, currentPath.
    unfold childrenOf in Hcont. cbn [findNamed find] in Hcont.
    cbn [enter]. rewrite Hcont.
    split; [reflexivity|]. split; [|split].
    + rewrite findNamed_cons. cbn [nodeName]. rewrite eqb_refl. reflexivity.
    + intros q Hq. rewrite findNamed_cons. cbn [nodeName].
      assert (E : eqb part q = false) by (apply eqb_neq; congruence).
      rewrite E. reflexivity.
    + unfold childrenOf, filesOf. simpl. lia.
  - unfold childrenOf in Hcont, IH |- *.
    rewrite findNamed_cons in Hcont, Hfile |- *.
    simpl enter. destruct (eqb (nodeName node) part) eqn:E.
    + destruct node as [n p c|n p ch].
      * exfalso. exact (Hfile n p c eq_refl).
      * rewrite Hcont. exists (HFolder n p children' :: r), n, p.
        split; [reflexivity|]. simpl in E. split; [|split].
        -- rewrite findNamed_cons. simpl. rewrite E. reflexivity.
        -- intros q Hq. rewrite !findNamed_cons. simpl.
           apply eqb_eq in E. subst n.
           assert (E : eqb part q = false) by (apply eqb_neq; congruence).
           rewrite E. reflexivity.
        -- unfold filesOf. simpl.
           fold (filesOf children'). fold (filesOf ch). fold (filesOf r).
           lia.
    + destruct (IH Hfile Hcont)
        as (r' & n & p & Henter & Hfound & Hother & Hcount).
      rewrite Henter. exists (node :: r'), n, p.
      split; [reflexivity|]. split; [|split].
      * rewrite findNamed_cons, E. exact Hfound.
      * intros q Hq. rewrite !findNamed_cons.
        destruct (eqb (nodeName node) q); [reflexivity|].
        apply Hother. exact Hq.
      * unfold filesOf in Hcount |- *. simpl. lia.
Qed.

(** A key whose path goes through a file: the round throws. *)
Lemma placeParts_below_file (content : JSValue) (names rest : list jsstr)
    (n : HNode) :
  forall currentPath cur,
    displayAt names cur = Some n ->
    isFileNode n = true ->
    rest <> [] ->
    placeParts content (names ++ rest) currentPath cur = None.
Proof.
  induction names as [|q qs IH]; intros currentPath cur Hat Hfile Hrest;
    [discriminate|].
  rewrite displayAt_cons in Hat.
  destruct (findNamed q cur) as [node|] eqn:Hfind; [|discriminate].
  destruct (qs ++ rest) as [|p2 tl] eqn:Etl.
  { apply app_eq_nil in Etl. tauto. }
  rewrite <- app_comm_cons, Etl.
  change (placeParts content (q :: p2 :: tl) currentPath cur)
    with (enter q (extendPath currentPath q)
                (placeParts content (p2 :: tl) (extendPath currentPath q))
                cur).
  destruct qs as [|q2 qs'].
  - injection Hat as ->. destruct n as [name path c|]; [|discriminate].
    eapply enter_at_file. exact Hfind.
  - destruct node as [|name path children]; [discriminate|].
    eapply enter_at_folder; [exact Hfind|].
    apply IH; assumption.
Qed.

(** What one key does to the display tree, when its path meets no file
    and leads nowhere yet. *)
Lemma placeParts_display (content : JSValue) (parts : list jsstr) :
  forall currentPath cur,
    parts <> [] ->
    (forall r more n, parts = r ++ more -> more <> [] ->
                      displayAt r cur = Some n -> isFileNode n = false) ->
    displayAt parts cur = None ->
    exists cur',
      placeParts content parts currentPath cur = Some cur'
      /\ (exists name path,
             displayAt parts cur' = Some (HFile name path content))
      /\ (forall more, more <> [] -> displayAt (parts ++ more) cur' = None)
      /\ (forall r more n, parts = r ++ more -> more <> [] ->
                           displayAt r cur' = Some n -> isFileNode n = false)
      /\ (forall qs, apart qs parts ->
                     displayAt qs cur' = displayAt qs cur)
      /\ filesOf cur' = S (filesOf cur).
Proof.
  induction parts as [|p rest IH]; intros currentPath cur Hne Hfree Hnew;
    [congruence|].
  destruct rest as [|p2 rest'].
  - rewrite displayAt_cons in Hnew.
    assert (Hnone : findNamed p cur = None)
      by (destruct (findNamed p cur); [discriminate | reflexivity]).
    exists (cur ++ [HFile p (extendPath currentPath p) content]).
    split.
    { simpl. fold (hasName p cur).
      apply findNamed_hasName in Hnone. rewrite Hnone. reflexivity. }
    assert (Hfound : findNamed p
                       (cur ++ [HFile p (extendPath currentPath p) content])
                     = Some (HFile p (extendPath currentPath p) content)).
    { rewrite findNamed_push, Hnone. simpl. rewrite eqb_refl. reflexivity. }
    split; [|split; [|split; [|split]]].
    + exists p, (extendPath currentPath p).
      rewrite displayAt_cons, Hfound. reflexivity.
    + intros [|m more] Hm; [congruence|].
      simpl app. rewrite displayAt_cons, Hfound. reflexivity.
    + intros [|x r] more n Heq Hm Hat; [discriminate|].
      injection Heq as _ Heq. destruct r; [|discriminate].
      simpl in Heq. congruence.
    + intros [|q qs] [Hn1 Hn2].
      * exfalso. apply Hn1. exists [p]. reflexivity.
      * assert (Hq : q <> p).
        { intros ->. apply Hn2. exists qs. reflexivity. }
        rewrite !displayAt_cons, findNamed_push.
        destruct (findNamed q cur); [reflexivity|].
        simpl. assert (E : eqb p q = false) by (apply eqb_neq; congruence).
        rewrite E. reflexivity.
    + unfold filesOf. rewrite map_app, list_sum_app. simpl. lia.
  - change (placeParts content (p :: p2 :: rest') currentPath cur)
      with (enter p (extendPath currentPath p)
                  (placeParts content (p2 :: rest') (extendPath currentPath p))
                  cur).
    assert (Hfile : forall name path c,
               findNamed p cur <> Some (HFile name path c)).
    { intros name path c E.
      assert (H : isFileNode (HFile name path c) = false).
      { apply (Hfree [p] (p2 :: rest')); [reflexivity | discriminate|].
        rewrite displayAt_cons, E. reflexivity. }
      discriminate. }
    assert (Hsub : forall qs, qs <> [] ->
                     displayAt (p :: qs) cur
                     = displayAt qs (childrenOf p cur)).
    { intros qs Hqs. rewrite displayAt_cons. unfold childrenOf.
      destruct (findNamed p cur) as [[name path c|name path ch]|] eqn:E.
      - exfalso. exact (Hfile name path c eq_refl).
      - destruct qs; [congruence | reflexivity].
      - rewrite displayAt_empty. reflexivity. }
    destruct (IH (extendPath currentPath p) (childrenOf p cur))
      as (sub' & Hins & Ha & Hb & Hc & Hd & Hfiles).
    + discriminate.
    + intros r more n Heq Hm Hat.
      destruct r as [|x r']; [discriminate|].
      rewrite <- Hsub in Hat by discriminate.
      apply (Hfree (p :: x :: r') more n); [|exact Hm | exact Hat].
      simpl. f_equal. exact Heq.
    + rewrite <- Hsub by discriminate. exact Hnew.
    + destruct (@enter_effect p (extendPath currentPath p)
                  (placeParts content (p2 :: rest') (extendPath currentPath p))
                  cur sub' Hfile Hins)
        as (cur' & name & path & Henter & Hfound & Hother & Hcount).
      exists cur'. split; [exact Henter|].
      assert (Hlook : forall qs, qs <> [] ->
                        displayAt (p :: qs) cur' = displayAt qs sub').
      { intros qs Hqs. rewrite displayAt_cons, Hfound.
        destruct qs; [congruence | reflexivity]. }
      split; [|split; [|split; [|split]]].
      * rewrite Hlook by discriminate. exact Ha.
      * intros more Hm. rewrite <- app_comm_cons, Hlook by discriminate.
        apply Hb. exact Hm.
      * intros [|x r] more n Heq Hm Hat; [discriminate|].
        injection Heq as <- Heq.
        destruct r as [|x' r'].
        -- rewrite displayAt_cons, Hfound in Hat. injection Hat as <-.
           reflexivity.
        -- rewrite Hlook in Hat by discriminate.
           apply (Hc (x' :: r') more n Heq Hm Hat).
      * intros [|q qs] [Hn1 Hn2].
        -- exfalso. apply Hn1. eexists. reflexivity.
        -- destruct (eq_dec q p) as [->|Hq].
           ++ assert (Hqs : qs <> []).
              { intros ->. apply Hn1. exists (p2 :: rest'). reflexivity. }
              rewrite Hlook, Hsub by exact Hqs. apply Hd. split.
              ** intros [m Hm]. apply Hn1. exists m. simpl. now f_equal.
              ** intros [m Hm]. apply Hn2. exists m. simpl. now f_equal.
           ++ rewrite !displayAt_cons, (Hother q Hq). reflexivity.
      * lia.
Qed.

(** One entry more, its key apart from the keys before it. *)
Lemma placeFile_step (given : list (jsstr * JSValue)) (g : jsstr * JSValue)
    (cur : list HNode) :
  displays given cur ->
  (forall e, In e given ->
             apart (split slash (fst e)) (split slash (fst g))) ->
  exists cur',
    placeParts (snd g) (split slash (fst g)) [] cur = Some cur'
    /\ displays (given ++ [g]) cur'
    /\ filesOf cur' = S (filesOf cur).
Proof.
  intros [Hin Hout] Hbefore.
  destruct (@placeParts_display (snd g) (split slash (fst g)) [] cur)
    as (cur' & Hadd & Ha & Hb & Hc & Hd & Hfiles).
  - apply split_not_nil.
  - intros r more n Heq Hm Hat.
    destruct (isFileNode n) eqn:Hn; [|reflexivity].
    destruct (Hout r n Hat) as (e & He & _ & Hfile).
    destruct (Hfile Hn) as [Hparts _].
    destruct (Hbefore e He) as [Hn1 _]. exfalso. apply Hn1.
    exists more. rewrite <- Hparts. exact Heq.
  - destruct (displayAt (split slash (fst g)) cur) as [n|] eqn:Hat;
      [|reflexivity].
    destruct (Hout _ n Hat) as (e & He & Hpre & _).
    destruct (Hbefore e He) as [_ Hn2]. exfalso. exact (Hn2 Hpre).
  - exists cur'. split; [exact Hadd|]. split; [|exact Hfiles].
    split.
    + intros e He. apply in_app_or in He as [He|[<-|[]]].
      * rewrite Hd; [apply Hin; exact He|].
        apply Hbefore. exact He.
      * destruct Ha as (name & path & Ha).
        eexists. split; [exact Ha|]. exists name, path. reflexivity.
    + intros qs n Hat.
      destruct (isPrefix_dec qs (split slash (fst g))) as [[more Hp]|Hn1].
      * exists g. split; [apply in_or_app; right; left; reflexivity|].
        split; [exists more; exact Hp|].
        intros Hn. destruct more as [|m more].
        -- rewrite app_nil_r in Hp. subst qs.
           destruct Ha as (name & path & Ha). rewrite Ha in Hat.
           injection Hat as <-. split; [reflexivity|].
           exists name, path. reflexivity.
        -- assert (Hfolder : isFileNode n = false).
           { apply (Hc qs (m :: more) n Hp); [discriminate | exact Hat]. }
           congruence.
      * destruct (isPrefix_dec (split slash (fst g)) qs)
          as [[more Hp]|Hn2].
        -- destruct more as [|m more].
           ++ exfalso. apply Hn1. exists []. rewrite Hp, !app_nil_r.
              reflexivity.
           ++ rewrite Hp, Hb in Hat; discriminate.
        -- rewrite Hd in Hat by (split; assumption).
           destruct (Hout qs n Hat) as (e & He & Hrest).
           exists e. split; [|exact Hrest].
           apply in_or_app. left. exact He.
Qed.

Lemma placeFile_displays (given todo : list (jsstr * JSValue)) :
  forall cur,
    displays given cur ->
    ForallOrdPairs
      (fun e e' => apart (split slash (fst e)) (split slash (fst e')))
      (given ++ todo) ->
    exists tree,
      fold_left placeFile todo (Some cur) = Some tree
      /\ displays (given ++ todo) tree
      /\ filesOf tree = filesOf cur + List.length todo.
Proof.
  revert given. induction todo as [|g todo IH]; intros given cur Hcur Hap.
  - exists cur. rewrite app_nil_r. simpl. auto.
  - pose proof (ForallOrdPairs_before _ _ _ Hap) as Hbefore.
    rewrite Forall_forall in Hbefore.
    destruct (placeFile_step g Hcur Hbefore) as (cur' & Hadd & Hcur' & Hfiles).
    cbn [fold_left placeFile]. rewrite Hadd.
    replace (given ++ g :: todo) with ((given ++ [g]) ++ todo) in *
      by (rewrite <- app_assoc; reflexivity).
    destruct (IH (given ++ [g]) cur' Hcur' Hap) as (tree & Hfold & Htree & Hn).
    exists tree. split; [exact Hfold|]. split; [exact Htree|].
    rewrite Hn, Hfiles. simpl. lia.
Qed.

(** X23: when no key of the flat map is, part by part, the beginning
    of another, [createHierarchicalTree] returns a tree that shows
    every entry as a file under the parts of its key, with its value as
    content; every node of the tree lies on the way to such a file, and
    every file node is the file of an entry. *)
Theorem createHierarchicalTree_displays
    (fileTree : JSValue) (entries : list (jsstr * JSValue)) :
  keysAndValues fileTree = Some entries ->
  ForallOrdPairs
    (fun e e' => apart (split slash (fst e)) (split slash (fst e')))
    entries ->
  exists tree,
    createHierarchicalTree fileTree = Some tree
    /\ displays entries tree.
Proof.
  intros Hentries Hap. unfold createHierarchicalTree. rewrite Hentries.
  destruct (@placeFile_displays [] entries [])
    as (tree & Hfold & Htree & _); [|exact Hap|].
  - split; [intros e []|].
    intros qs n H. rewrite displayAt_empty in H. discriminate.
  - exists tree. auto.
Qed.

Lemma createHierarchicalTree_displays_witness :
  let fileTree := createFileTree
                    (JObj [(str "a", JObj [(str "b", JNum 1)]);
                           (str "c", JBool true)]) [] in
  fileTree = JObj [(str "a/b.txt", JStr (str "1"));
                   (str "c.txt", JStr (str "true"))]
  /\ exists tree,
       createHierarchicalTree fileTree = Some tree
       /\ displays (ownProps fileTree) tree.
Proof.
  intros fileTree. split; [reflexivity|].
  apply (@createHierarchicalTree_displays fileTree (ownProps fileTree)).
  - reflexivity.
  - repeat constructor; intros [more H]; vm_compute in H; discriminate.
Defined.

(** X24: a key whose path goes through the path of a file of the tree
    makes [createHierarchicalTree] throw. *)
Theorem createHierarchicalTree_file_as_folder
    (props : list (jsstr * JSValue)) (key : jsstr) (value : JSValue)
    (tree : list HNode) (names rest : list jsstr) (n : HNode) :
  createHierarchicalTree (JObj props) = Some tree ->
  displayAt names tree = Some n ->
  isFileNode n = true ->
  rest <> [] ->
  split slash key = names ++ rest ->
  createHierarchicalTree (JObj (props ++ [(key, value)])) = None.
Proof.
  unfold createHierarchicalTree. cbn [keysAndValues ownProps].
  intros Htree Hat Hfile Hrest Hparts.
  rewrite fold_left_app, Htree. cbn [fold_left placeFile fst snd].
  rewrite Hparts. eapply placeParts_below_file; eassumption.
Qed.

Lemma createHierarchicalTree_file_as_folder_witness :
  let fileTree := createFileTree
                    (JObj [(str "a", JNum 2);
                           (str "a.txt", JObj [(str "b", JNum 1)])]) [] in
  fileTree = JObj ([(str "a.txt", JStr (str "2"))]
                   ++ [(str "a.txt/b.txt", JStr (str "1"))])
  /\ createHierarchicalTree
       (JObj ([(str "a.txt", JStr (str "2"))]
              ++ [(str "a.txt/b.txt", JStr (str "1"))])) = None.
Proof.
  intros fileTree. split; [reflexivity|].
  apply (@createHierarchicalTree_file_as_folder
           [(str "a.txt", JStr (str "2"))]
           (str "a.txt/b.txt") (JStr (str "1"))
           [HFile (str "a.txt") (str "a.txt") (JStr (str "2"))]
           [str "a.txt"] [str "b.txt"]
           (HFile (str "a.txt") (str "a.txt") (JStr (str "2"))));
    try reflexivity; discriminate.
Defined.

End Display.

(** ** From the flat map to the display tree *)

Section Shown.
Import JsString JsStringFacts JsValue JsObjectFacts JsonUtils.
Import Spec Measures.

Lemma digits_value_None (c : N) (k : jsstr) :
  In c k -> is_digit c = false -> forall acc, digits_value acc k = None.
Proof.
  intros Hin Hc. induction k as [|d k IH]; intros acc; [destruct Hin|].
  simpl. destruct Hin as [->|Hin].
  - rewrite Hc. reflexivity.
  - destruct (is_digit d); [apply IH; exact Hin | reflexivity].
Qed.

Lemma array_index_dot (k : jsstr) : In dot k -> array_index k = None.
Proof.
  intros Hin. unfold array_index. destruct k as [|c k]; [reflexivity|].
  rewrite (@digits_value_None dot (c :: k) Hin eq_refl). reflexivity.
Qed.

Lemma set_new (V : Type) (o : JsObject.props V) (k : jsstr) (v : V) :
  ~ In k (JsObject.keys o) -> array_index k = None ->
  JsObject.set o k v = o ++ [(k, v)].
Proof.
  intros Hk Hindex. unfold JsObject.set.
  destruct (JsObject.has o k) eqn:E.
  - apply has_In in E. tauto.
  - rewrite Hindex. reflexivity.
Qed.

Lemma cleanKey_slash (key : jsstr) :
  sanitizeFilename key = key -> ~ In slash key.
Proof.
  intros Hfixed Hin. pose proof (sanitizeFilename_units key) as H.
  rewrite Hfixed, Forall_forall in H. destruct (H slash Hin) as [Hres _].
  discriminate Hres.
Qed.

Lemma cleanKeys_JArr items : cleanKeys (JArr items) <-> Forall cleanKeys items.
Proof.
  simpl. induction items as [|x r IH]; simpl.
  - split; [constructor | trivial].
  - rewrite IH. split.
    + intros [Hx Hr]; constructor; assumption.
    + intros H; inversion_clear H; split; assumption.
Qed.

Lemma cleanKeys_JObj props :
  cleanKeys (JObj props) <->
  NoDup (JsObject.keys props)
  /\ Forall (fun kv => cleanKey (fst kv) /\ cleanKeys (snd kv)) props.
Proof.
  simpl. apply and_iff_compat_l.
  induction props as [|[k x] r IH]; simpl.
  - split; [constructor | trivial].
  - rewrite IH. split.
    + intros (Hk & Hx & Hr); constructor; [split|]; assumption.
    + intros H; inversion_clear H as [|? ? [Hk Hx] Hr]. auto.
Qed.

Lemma under_more (base names names' parts : list jsstr) :
  incl names names' -> under base names parts -> under base names' parts.
Proof.
  intros Hincl (h & tl & Hh & Hparts). exists h, tl. auto.
Qed.

Lemma under_one (base names : list jsstr) (name : jsstr)
    (parts : list jsstr) :
  under base [name] parts -> under base names parts -> In name names.
Proof.
  intros (h & tl & [Hh|[]] & Hparts) (h' & tl' & Hh' & Hparts').
  rewrite Hparts in Hparts'. apply app_inv_head in Hparts'.
  injection Hparts' as <- _. rewrite <- Hh in Hh'. exact Hh'.
Qed.

Lemma under_file (base : list jsstr) (name extension : jsstr) :
  ~ In dot name ->
  under base [name] (base ++ [name ++ dot :: extension]).
Proof.
  intros Hdot. exists (name ++ dot :: extension), [].
  rewrite stem_extension by exact Hdot. split; [left|]; reflexivity.
Qed.

Lemma under_folder (base : list jsstr) (name : jsstr)
    (new : list (jsstr * JSValue)) :
  ~ In dot name ->
  Forall (fun e => exists rel,
              rel <> [] /\ entryParts e = (base ++ [name]) ++ rel) new ->
  Forall (fun e => under base [name] (entryParts e)) new.
Proof.
  intros Hdot. apply Forall_impl.
  intros e (rel & Hrel & Hparts). exists name, rel.
  rewrite stem_plain by exact Hdot. split; [left; reflexivity|].
  rewrite Hparts, <- app_assoc. reflexivity.
Qed.

(** The map so far has nothing under the names to come. *)
Lemma fresh_folder (base names : list jsstr) (name : jsstr)
    (fileTree : list (jsstr * JSValue)) :
  ~ In dot name ->
  In name names ->
  Forall (fun e => ~ under base names (entryParts e)) fileTree ->
  Forall (fun e => forall rel, rel <> [] ->
                               entryParts e <> (base ++ [name]) ++ rel)
         fileTree.
Proof.
  intros Hdot Hname. apply Forall_impl. intros e Hfresh rel Hrel Hparts.
  apply Hfresh. exists name, rel.
  rewrite stem_plain by exact Hdot. split; [exact Hname|].
  rewrite Hparts, <- app_assoc. reflexivity.
Qed.

Lemma fresh_after (base names : list jsstr) (name : jsstr)
    (fileTree group : list (jsstr * JSValue)) :
  ~ In name names ->
  Forall (fun e => ~ under base (name :: names) (entryParts e)) fileTree ->
  Forall (fun e => under base [name] (entryParts e)) group ->
  Forall (fun e => ~ under base names (entryParts e)) (fileTree ++ group).
Proof.
  intros Hname Hfresh Hgroup. apply Forall_app. split.
  - revert Hfresh. apply Forall_impl. intros e He Hunder. apply He.
    revert Hunder. apply under_more. apply incl_tl, incl_refl.
  - revert Hgroup. apply Forall_impl. intros e He Hunder.
    apply Hname. exact (under_one He Hunder).
Qed.

Lemma set_fresh (base names : list jsstr) (key : jsstr) (value : JSValue)
    (fileTree : list (jsstr * JSValue)) :
  Forall (fun e => ~ under base names (entryParts e)) fileTree ->
  under base names (split slash key) ->
  In dot key ->
  JsObject.set fileTree key value = fileTree ++ [(key, value)].
Proof.
  intros Hfresh Hunder Hdot. apply set_new; [|apply array_index_dot, Hdot].
  intros Hin. apply in_map_iff in Hin as (e & He & Hin).
  rewrite Forall_forall in Hfresh. apply (Hfresh e Hin).
  unfold entryParts. rewrite He. exact Hunder.
Qed.

(** The entries of one child, then those of the children after it. *)
Lemma under_groups (base : list jsstr) (name : jsstr) (names : list jsstr)
    (group new : list (jsstr * JSValue)) :
  ~ In name names ->
  Forall (fun e => under base [name] (entryParts e)) group ->
  ForallOrdPairs (fun e e' => apart (entryParts e) (entryParts e')) group ->
  Forall (fun e => under base names (entryParts e)) new ->
  ForallOrdPairs (fun e e' => apart (entryParts e) (entryParts e')) new ->
  Forall (fun e => under base (name :: names) (entryParts e)) (group ++ new)
  /\ ForallOrdPairs (fun e e' => apart (entryParts e) (entryParts e'))
                    (group ++ new).
Proof.
  intros Hname Hgroup Hg Hnew Hn. split.
  - apply Forall_app. split.
    + revert Hgroup. apply Forall_impl. intros e. apply under_more.
      intros x [<-|[]]. left. reflexivity.
    + revert Hnew. apply Forall_impl. intros e. apply under_more.
      apply incl_tl, incl_refl.
  - apply ForallOrdPairs_app; [exact Hg | exact Hn|].
    intros e e' He He'. rewrite Forall_forall in Hgroup, Hnew.
    destruct (Hgroup e He) as (h & tl & [Hh|[]] & Hparts).
    destruct (Hnew e' He') as (h' & tl' & Hh' & Hparts').
    rewrite Hparts, Hparts'. apply apart_heads.
    intros <-. rewrite <- Hh in Hh'. tauto.
Qed.

Lemma under_rel (base names : list jsstr) (new : list (jsstr * JSValue)) :
  Forall (fun e => under base names (entryParts e)) new ->
  Forall (fun e => exists rel, rel <> [] /\ entryParts e = base ++ rel) new.
Proof.
  apply Forall_impl. intros e (h & tl & _ & Hparts).
  exists (h :: tl). split; [discriminate | exact Hparts].
Qed.

Lemma fresh_rel (base names : list jsstr)
    (fileTree : list (jsstr * JSValue)) :
  Forall (fun e => forall rel, rel <> [] -> entryParts e <> base ++ rel)
         fileTree ->
  Forall (fun e => ~ under base names (entryParts e)) fileTree.
Proof.
  apply Forall_impl. intros e He (h & tl & _ & Hparts).
  apply (He (h :: tl)); [discriminate | exact Hparts].
Qed.

Lemma txt_dot : txt = dot :: str "txt".
Proof. reflexivity. Qed.

(** The entries [processNode] adds for an array or an object with
    clean keys: one for each primitive value, each under the parts of
    the current path, no key the beginning of another. *)
Lemma processNode_apart (obj : JSValue) :
  forall currentPath fileTree,
    cleanKeys obj ->
    (forall p, obj <> JPrim p) ->
    Forall (fun e => forall rel,
                rel <> [] ->
                entryParts e <> childBase obj currentPath ++ rel) fileTree ->
    exists new,
      processNode obj currentPath fileTree = fileTree ++ new
      /\ Forall (fun e => exists rel,
                    rel <> []
                    /\ entryParts e = childBase obj currentPath ++ rel) new
      /\ ForallOrdPairs (fun e e' => apart (entryParts e) (entryParts e')) new
      /\ List.length new = leaves obj.
Proof.
  induction obj as [p|items IH|props IH] using JSValue_ind;
    intros currentPath fileTree Hclean Hdir Hfresh.
  - exfalso. exact (Hdir p eq_refl).
  - change (childBase (JArr items) currentPath)
      with (split slash currentPath) in *.
    set (base := split slash currentPath) in *.
    cbn [processNode].
    apply cleanKeys_JArr in Hclean.
    match goal with
    | |- exists new, ?each items 0%nat fileTree = _ /\ _ =>
        assert (Hloop : forall index fileTree,
                   Forall (fun e =>
                             ~ under base
                                 (map itemName
                                      (seq index (List.length items)))
                                 (entryParts e)) fileTree ->
                   exists new,
                     each items index fileTree = fileTree ++ new
                     /\ Forall (fun e =>
                                  under base
                                    (map itemName
                                         (seq index (List.length items)))
                                    (entryParts e)) new
                     /\ ForallOrdPairs
                          (fun e e' => apart (entryParts e) (entryParts e'))
                          new
                     /\ List.length new = leaves (JArr items))
    end.
    { clear fileTree Hdir Hfresh. revert Hclean.
      induction IH as [|item r Hitem _ IHr];
        intros Hclean index fileTree Hfresh.
      - exists []. rewrite app_nil_r. repeat constructor.
      - inversion_clear Hclean as [|? ? Hitem_clean Hr].
        set (name := itemName index) in *.
        assert (Hslash : ~ In slash name)
          by (apply itemName_without; reflexivity).
        assert (Hdot : ~ In dot name)
          by (apply itemName_without; reflexivity).
        assert (Hnew_name : ~ In name
                              (map itemName (seq (S index) (List.length r)))).
        { intros Hin. apply in_map_iff in Hin as (j & Hj & Hin).
          apply itemName_inj in Hj. apply in_seq in Hin. lia. }
        change (str "/item_" ++ decimal (N.of_nat index))
          with (slash :: name).
        cbn [List.length seq map] in Hfresh |- *. fold name in Hfresh |- *.
        rewrite leaves_JArr_cons.
        assert (Hchild : childBase item (currentPath ++ slash :: name)
                         = base ++ [name]).
        { rewrite childBase_truthy, split_child;
            [reflexivity | exact Hslash|].
          destruct currentPath; reflexivity. }
        destruct item as [p|sub|sub].
        + assert (Hparts : split slash ((currentPath ++ slash :: name) ++ txt)
                           = base ++ [name ++ dot :: str "txt"]).
          { rewrite txt_dot, <- app_assoc. apply split_child.
            apply not_In_app; [exact Hslash|].
            vm_compute. intuition discriminate. }
          rewrite (@set_fresh base
                     (name :: map itemName (seq (S index) (List.length r))));
            [|exact Hfresh
             |rewrite Hparts; eapply under_more;
              [|apply under_file; exact Hdot];
              intros ? [<-|[]]; left; reflexivity
             |apply in_or_app; right; left; reflexivity].
          assert (Hgroup :
                    Forall (fun e => under base [name] (entryParts e))
                           [((currentPath ++ slash :: name) ++ txt,
                             JStr (toString p))]).
          { repeat constructor. unfold entryParts. cbn [fst].
            rewrite Hparts. apply under_file. exact Hdot. }
          destruct (IHr Hr (S index) _
                        (fresh_after Hnew_name Hfresh Hgroup))
            as (new & E & HF & HP & HL).
          eexists. split;
            [etransitivity; [exact E|]; rewrite <- app_assoc; reflexivity|].
          assert (Hone : ForallOrdPairs
                           (fun e e' => apart (entryParts e) (entryParts e'))
                           [((currentPath ++ slash :: name) ++ txt,
                             JStr (toString p))])
            by repeat constructor.
          destruct (under_groups Hnew_name Hgroup Hone HF HP) as [H1 H2].
          split; [exact H1|]. split; [exact H2|].
          rewrite length_app, HL. reflexivity.
        + destruct (Hitem (currentPath ++ slash :: name) fileTree Hitem_clean)
            as (group & Eg & HFg & HPg & HLg); [discriminate| |].
          { rewrite Hchild. eapply fresh_folder; [exact Hdot| |exact Hfresh].
            left. reflexivity. }
          rewrite Eg. rewrite Hchild in HFg.
          apply under_folder in HFg; [|exact Hdot].
          destruct (IHr Hr (S index) _ (fresh_after Hnew_name Hfresh HFg))
            as (new & E & HF & HP & HL).
          eexists. split;
            [etransitivity; [exact E|]; rewrite <- app_assoc; reflexivity|].
          destruct (under_groups Hnew_name HFg HPg HF HP) as [H1 H2].
          split; [exact H1|]. split; [exact H2|].
          rewrite length_app, HL, HLg. reflexivity.
        + destruct (Hitem (currentPath ++ slash :: name) fileTree Hitem_clean)
            as (group & Eg & HFg & HPg & HLg); [discriminate| |].
          { rewrite Hchild. eapply fresh_folder; [exact Hdot| |exact Hfresh].
            left. reflexivity. }
          rewrite Eg. rewrite Hchild in HFg.
          apply under_folder in HFg; [|exact Hdot].
          destruct (IHr Hr (S index) _ (fresh_after Hnew_name Hfresh HFg))
            as (new & E & HF & HP & HL).
          eexists. split;
            [etransitivity; [exact E|]; rewrite <- app_assoc; reflexivity|].
          destruct (under_groups Hnew_name HFg HPg HF HP) as [H1 H2].
          split; [exact H1|]. split; [exact H2|].
          rewrite length_app, HL, HLg. reflexivity. }
    destruct (Hloop 0%nat fileTree) as (new & E & HF & HP & HL).
    { eapply fresh_rel. exact Hfresh. }
    exists new. split; [exact E|]. split; [|split; assumption].
    eapply under_rel. exact HF.
  - change (childBase (JObj props) currentPath)
      with (if JsString.truthy currentPath
            then split slash currentPath else []) in *.
    set (base := if JsString.truthy currentPath
                 then split slash currentPath else []) in *.
    cbn [processNode].
    apply cleanKeys_JObj in Hclean.
    set (newPath := fun key : jsstr =>
                      if JsString.truthy currentPath
                      then currentPath ++ slash :: key else key).
    assert (Hparts : forall name, ~ In slash name ->
                       split slash (newPath name) = base ++ [name]).
    { intros name Hname. subst base newPath. cbn beta.
      destruct (JsString.truthy currentPath).
      - apply split_child. exact Hname.
      - apply split_without_separator. exact Hname. }
    assert (Hfile : forall key extension,
               newPath key ++ dot :: extension
               = newPath (key ++ dot :: extension)).
    { intros key extension. subst newPath. cbn beta.
      destruct (JsString.truthy currentPath); [|reflexivity].
      rewrite <- app_assoc. reflexivity. }
    assert (Htruthy : forall key, key <> [] ->
                        JsString.truthy (newPath key) = true).
    { intros key Hkey. subst newPath. cbn beta.
      destruct currentPath; [destruct key; [congruence|]|]; reflexivity. }
    match goal with
    | |- exists new, ?each props fileTree = _ /\ _ =>
        assert (Hloop : forall fileTree,
                   Forall (fun e =>
                             ~ under base (JsObject.keys props)
                                 (entryParts e)) fileTree ->
                   exists new,
                     each props fileTree = fileTree ++ new
                     /\ Forall (fun e =>
                                  under base (JsObject.keys props)
                                        (entryParts e)) new
                     /\ ForallOrdPairs
                          (fun e e' => apart (entryParts e) (entryParts e'))
                          new
                     /\ List.length new = leaves (JObj props))
    end.
    { clear fileTree Hdir Hfresh. destruct Hclean as [Hkeys Hclean].
      revert Hkeys Hclean.
      induction IH as [|[key value] r Hvalue _ IHr];
        intros Hkeys Hclean fileTree Hfresh.
      - exists []. rewrite app_nil_r. repeat constructor.
      - inversion_clear Hclean as [|? ? [Hkey Hvalue_clean] Hr].
        cbn [fst snd] in Hkey, Hvalue_clean, Hvalue.
        destruct Hkey as (Hne & Hdot & Hfixed).
        pose proof (cleanKey_slash Hfixed) as Hslash.
        cbn [JsObject.keys map fst] in Hkeys, Hfresh |- *.
        inversion_clear Hkeys as [|? ? Hnew_name Hkeys_r].
        fold (JsObject.keys r) in Hnew_name, Hkeys_r, Hfresh |- *.
        rewrite leaves_JObj_cons.
        assert (Hchild : childBase value (newPath key) = base ++ [key]).
        { rewrite childBase_truthy by (apply Htruthy; exact Hne).
          apply Hparts. exact Hslash. }
        change (if JsString.truthy currentPath
                then currentPath ++ slash :: sanitizeFilename key
                else sanitizeFilename key)
          with (newPath (sanitizeFilename key)).
        rewrite Hfixed.
        destruct value as [p|sub|sub].
        + assert (Hkey_parts : split slash (newPath key ++ txt)
                               = base ++ [key ++ dot :: str "txt"]).
          { rewrite txt_dot, Hfile. apply Hparts.
            apply not_In_app; [exact Hslash|].
            vm_compute. intuition discriminate. }
          rewrite (@set_fresh base (key :: JsObject.keys r));
            [|exact Hfresh
             |rewrite Hkey_parts; eapply under_more;
              [|apply under_file; exact Hdot];
              intros ? [<-|[]]; left; reflexivity
             |apply in_or_app; right; left; reflexivity].
          assert (Hgroup :
                    Forall (fun e => under base [key] (entryParts e))
                           [(newPath key ++ txt, JStr (toString p))]).
          { repeat constructor. unfold entryParts. cbn [fst].
            rewrite Hkey_parts. apply under_file. exact Hdot. }
          destruct (IHr Hkeys_r Hr _ (fresh_after Hnew_name Hfresh Hgroup))
            as (new & E & HF & HP & HL).
          eexists. split;
            [etransitivity; [exact E|]; rewrite <- app_assoc; reflexivity|].
          assert (Hone : ForallOrdPairs
                           (fun e e' => apart (entryParts e) (entryParts e'))
                           [(newPath key ++ txt, JStr (toString p))])
            by repeat constructor.
          destruct (under_groups Hnew_name Hgroup Hone HF HP) as [H1 H2].
          split; [exact H1|]. split; [exact H2|].
          rewrite length_app, HL. reflexivity.
        + destruct (Hvalue (newPath key) fileTree Hvalue_clean)
            as (group & Eg & HFg & HPg & HLg); [discriminate| |].
          { rewrite Hchild. eapply fresh_folder; [exact Hdot| |exact Hfresh].
            left. reflexivity. }
          rewrite Hchild in HFg.
          apply under_folder in HFg; [|exact Hdot].
          destruct (IHr Hkeys_r Hr _ (fresh_after Hnew_name Hfresh HFg))
            as (new & E & HF & HP & HL).
          eexists. split;
            [etransitivity; [rewrite Eg; exact E|];
             rewrite <- app_assoc; reflexivity|].
          destruct (under_groups Hnew_name HFg HPg HF HP) as [H1 H2].
          split; [exact H1|]. split; [exact H2|].
          rewrite length_app, HL, HLg. reflexivity.
        + destruct (Hvalue (newPath key) fileTree Hvalue_clean)
            as (group & Eg & HFg & HPg & HLg); [discriminate| |].
          { rewrite Hchild. eapply fresh_folder; [exact Hdot| |exact Hfresh].
            left. reflexivity. }
          rewrite Hchild in HFg.
          apply under_folder in HFg; [|exact Hdot].
          destruct (IHr Hkeys_r Hr _ (fresh_after Hnew_name Hfresh HFg))
            as (new & E & HF & HP & HL).
          eexists. split;
            [etransitivity; [rewrite Eg; exact E|];
             rewrite <- app_assoc; reflexivity|].
          destruct (under_groups Hnew_name HFg HPg HF HP) as [H1 H2].
          split; [exact H1|]. split; [exact H2|].
          rewrite length_app, HL, HLg. reflexivity.
    }
    destruct (Hloop fileTree) as (new & E & HF & HP & HL).
    { eapply fresh_rel. exact Hfresh. }
    exists new. split; [exact E|]. split; [|split; assumption].
    eapply under_rel. exact HF.
Qed.

(** X25: for a value whose objects have distinct keys that are not
    empty, have no dot and are left as they are by [sanitizeFilename],
    the flat map of [createFileTree] has one entry for each primitive
    value, and [createHierarchicalTree] returns on it a tree that shows
    every entry as a file under the parts of its key, and no other
    file. *)
Theorem createFileTree_displayed (v : JSValue) :
  cleanKeys v ->
  countFiles (createFileTree v []) = leaves v
  /\ exists tree,
       createHierarchicalTree (createFileTree v []) = Some tree
       /\ displays (ownProps (createFileTree v [])) tree.
Proof.
  intros Hclean.
  assert (Hempty : displays [] []).
  { split; [intros e []|].
    intros qs n H. rewrite displayAt_empty in H. discriminate. }
  assert (H : exists new,
             processNode v [] [] = new
             /\ ForallOrdPairs
                  (fun e e' => apart (entryParts e) (entryParts e')) new
             /\ List.length new = leaves v).
  { destruct v as [p|items|props].
    - eexists. split; [reflexivity|]. split; repeat constructor.
    - destruct (@processNode_apart (JArr items) [] [] Hclean)
        as (new & E & _ & HP & HL); [discriminate | constructor|].
      exists new. auto.
    - destruct (@processNode_apart (JObj props) [] [] Hclean)
        as (new & E & _ & HP & HL); [discriminate | constructor|].
      exists new. auto. }
  destruct H as (new & E & HP & HL).
  unfold createFileTree, countFiles, createHierarchicalTree.
  rewrite E. cbn [ownProps keysAndValues]. split.
  - unfold JsObject.keys. rewrite length_map. exact HL.
  - destruct (@placeFile_displays [] new [] Hempty HP)
      as (tree & Hfold & Htree & _).
    exists tree. auto.
Qed.

Lemma createFileTree_displayed_witness :
  let v := JArr [JNum 1; JObj [(str "x", JNum 3)]] in
  createHierarchicalTree (createFileTree v [])
  = Some [HFolder [] []
            [HFile (str "item_0.txt") (str "item_0.txt") (JStr (str "1"));
             HFolder (str "item_1") (str "item_1")
               [HFile (str "x.txt") (str "item_1/x.txt") (JStr (str "3"))]]]
  /\ countFiles (createFileTree v []) = leaves v
  /\ exists tree,
       createHierarchicalTree (createFileTree v []) = Some tree
       /\ displays (ownProps (createFileTree v [])) tree.
Proof.
  intros v. split; [reflexivity|].
  apply (@createFileTree_displayed v).
  simpl. unfold cleanKey.
  repeat split; try discriminate; try reflexivity;
    try (repeat constructor; vm_compute; intuition discriminate);
    vm_compute; intuition discriminate.
Defined.

End Shown.

(** ** The file tree component on the display tree *)

Section Component.
Import JsString JsStringFacts JsValue JsonUtils FileTree.
Import Spec Measures.

Lemma populated_HFolder name path children :
  populated (HFolder name path children) <->
  children <> [] /\ Forall populated children.
Proof.
  simpl. apply and_iff_compat_l.
  induction children as [|c r IH]; simpl.
  - split; [constructor | trivial].
  - rewrite IH. split.
    + intros [Hc Hr]; constructor; assumption.
    + intros H; inversion_clear H; split; assumption.
Qed.

Lemma enter_populated part currentPath continue level level' :
  (forall children children',
      Forall populated children ->
      continue children = Some children' ->
      children' <> [] /\ Forall populated children') ->
  Forall populated level ->
  enter part currentPath continue level = Some level' ->
  level' <> [] /\ Forall populated level'.
Proof.
  intros Hcont. revert level'.
  induction level as [|node r IH]; intros level' Hlevel H; simpl in H.
  - destruct (continue []) as [ch|] eqn:E; [|discriminate].
    injection H as <-. split; [discriminate|].
    constructor; [|constructor]. apply populated_HFolder.
    apply (Hcont [] ch); [constructor | exact E].
  - inversion_clear Hlevel as [|? ? Hnode Hr].
    destruct (eqb (nodeName node) part).
    + destruct node as [n p c|n p ch]; [discriminate|].
      destruct (continue ch) as [ch'|] eqn:E; [|discriminate].
      injection H as <-. split; [discriminate|].
      constructor; [|exact Hr]. apply populated_HFolder.
      apply populated_HFolder in Hnode as [_ Hch].
      apply (Hcont ch ch'); assumption.
    + destruct (enter part currentPath continue r) as [r'|] eqn:E;
        [|discriminate].
      injection H as <-. split; [discriminate|].
      constructor; [exact Hnode|]. apply (IH r' Hr eq_refl).
Qed.

(** A key leaves no folder without a child. *)
Lemma placeParts_populated (content : JSValue) (parts : list jsstr) :
  forall currentPath level level',
    parts <> [] ->
    Forall populated level ->
    placeParts content parts currentPath level = Some level' ->
    level' <> [] /\ Forall populated level'.
Proof.
  induction parts as [|part rest IH];
    intros currentPath level level' Hne Hlevel H; [congruence|].
  destruct rest as [|part2 rest'].
  - simpl in H. fold (hasName part level) in H.
    destruct (hasName part level) eqn:Hn; injection H as <-.
    + split; [|exact Hlevel]. intros ->. discriminate Hn.
    + split; [destruct level; discriminate|].
      apply Forall_app. split; [exact Hlevel|]. repeat constructor.
  - change (placeParts content (part :: part2 :: rest') currentPath level)
      with (enter part (extendPath currentPath part)
                  (placeParts content (part2 :: rest')
                              (extendPath currentPath part)) level) in H.
    eapply enter_populated; [|exact Hlevel | exact H].
    intros children children' Hch Hc.
    eapply IH; [discriminate | exact Hch | exact Hc].
Qed.

Lemma createHierarchicalTree_populated (fileTree : JSValue)
    (tree : list HNode) :
  createHierarchicalTree fileTree = Some tree -> Forall populated tree.
Proof.
  unfold createHierarchicalTree.
  destruct (keysAndValues fileTree) as [entries|]; [|discriminate].
  assert (H : forall acc,
             (forall level, acc = Some level -> Forall populated level) ->
             fold_left placeFile entries acc = Some tree ->
             Forall populated tree).
  { induction entries as [|entry entries IH]; intros acc Hacc; simpl.
    - intros E. exact (Hacc _ E).
    - apply IH. intros level Hlevel.
      destruct acc as [level0|]; [|discriminate].
      eapply placeParts_populated;
        [apply split_not_nil | exact (Hacc level0 eq_refl) | exact Hlevel]. }
  apply H. intros level [= <-]. constructor.
Qed.

Lemma collect_each (l : list HNode) :
  forall acc,
    (fix each (l : list HNode) (allPaths : Expanded.PathSet)
       : Expanded.PathSet :=
       match l with
       | [] => allPaths
       | child :: r => each r (collectPaths child allPaths)
       end) l acc
    = fold_left (fun allPaths node => collectPaths node allPaths) l acc.
Proof.
  induction l as [|c r IH]; intros acc; [reflexivity|].
  simpl. apply IH.
Qed.

Lemma collectPaths_folder name path child children allPaths :
  collectPaths (HFolder name path (child :: children)) allPaths
  = fold_left (fun allPaths node => collectPaths node allPaths)
              (child :: children) (Expanded.add allPaths path).
Proof. exact (collect_each (child :: children) _). Qed.

Lemma In_add (s : Expanded.PathSet) (p q : jsstr) :
  In q (Expanded.add s p) <-> q = p \/ In q s.
Proof.
  unfold Expanded.add. destruct (Expanded.has s p) eqn:E.
  - apply expanded_has_In in E. split; [tauto|]. intros [->|H]; assumption.
  - rewrite in_app_iff. simpl. intuition congruence.
Qed.

Lemma collect_all_In (level : list HNode) :
  Forall (fun node => forall allPaths q,
              In q (collectPaths node allPaths)
              <-> In q allPaths \/ In q (folderPaths node)) level ->
  forall allPaths q,
    In q (fold_left (fun allPaths node => collectPaths node allPaths)
                    level allPaths)
    <-> In q allPaths \/ In q (flat_map folderPaths level).
Proof.
  induction 1 as [|c l Hc _ IH]; intros allPaths q; simpl; [tauto|].
  rewrite IH, Hc, in_app_iff. tauto.
Qed.

(** What [collectPaths] adds for a node all of whose folders have a
    child: the paths of its folders. *)
Lemma collectPaths_In (node : HNode) :
  populated node ->
  forall allPaths q,
    In q (collectPaths node allPaths)
    <-> In q allPaths \/ In q (folderPaths node).
Proof.
  induction node as [name path content|name path children IH]
    using HNode_ind; intros Hnode allPaths q; [simpl; tauto|].
  apply populated_HFolder in Hnode as [Hne Hch].
  destruct children as [|child r]; [congruence|].
  rewrite collectPaths_folder, collect_all_In.
  - rewrite In_add. cbn [folderPaths]. simpl In. intuition congruence.
  - rewrite Forall_forall in IH, Hch |- *.
    intros c Hc. apply IH; [exact Hc | apply Hch; exact Hc].
Qed.

(** X26: in the tree [createHierarchicalTree] returns every folder has a
    child, so that [expandAll] expands every folder: the set it makes
    holds the paths of the folders of the tree, and nothing else. *)
Theorem expandAll_every_folder (fileTree : JSValue) (tree : list HNode) :
  createHierarchicalTree fileTree = Some tree ->
  Forall populated tree
  /\ (forall path,
         Expanded.has (expandAll tree) path = true
         <-> In path (flat_map folderPaths tree)).
Proof.
  intros Htree. apply createHierarchicalTree_populated in Htree.
  split; [exact Htree|]. intros path.
  rewrite expanded_has_In. unfold expandAll. rewrite collect_all_In.
  - simpl. tauto.
  - revert Htree. apply Forall_impl. intros node. apply collectPaths_In.
Qed.

Lemma expandAll_every_folder_witness :
  let fileTree := JObj [(str "a/b/c.txt", JStr (str "1"))] in
  let tree := [HFolder (str "a") (str "a")
                 [HFolder (str "b") (str "a/b")
                    [HFile (str "c.txt") (str "a/b/c.txt")
                           (JStr (str "1"))]]] in
  expandAll tree = [str "a"; str "a/b"]
  /\ Forall populated tree
  /\ (forall path,
         Expanded.has (expandAll tree) path = true
         <-> In path (flat_map folderPaths tree)).
Proof.
  intros fileTree tree. split; [reflexivity|].
  apply (@expandAll_every_folder fileTree tree). reflexivity.
Defined.

Lemma countNodes_adds (node : HNode) :
  forall counters,
    countNodes node counters
    = {| fileCount := fileCount counters + fileNodes node;
         folderCount := folderCount counters + folderNodes node;
         totalSize := totalSize counters |}.
Proof.
  induction node as [name path content|name path children IH]
    using HNode_ind; intros counters.
  - simpl. f_equal; lia.
  - cbn [countNodes fileNodes folderNodes].
    match goal with
    | |- ?each children ?start = _ =>
        assert (Hloop : forall counters,
                   each children counters
                   = {| fileCount := fileCount counters
                                     + list_sum (map fileNodes children);
                        folderCount := folderCount counters
                                       + list_sum (map folderNodes children);
                        totalSize := totalSize counters |})
    end.
    { induction IH as [|c l Hc _ IHl]; intros acc.
      - simpl. destruct acc. simpl. f_equal; lia.
      - simpl. rewrite Hc.
        etransitivity; [apply IHl|]. simpl. f_equal; lia. }
    rewrite Hloop. simpl. f_equal; lia.
Qed.

Lemma getTotalStats_adds (data : list HNode) :
  getTotalStats data
  = {| fileCount := filesOf data;
       folderCount := list_sum (map folderNodes data);
       totalSize := 0 |}.
Proof.
  unfold getTotalStats, filesOf.
  assert (H : forall counters,
             fold_left (fun counters node => countNodes node counters)
                       data counters
             = {| fileCount := fileCount counters
                               + list_sum (map fileNodes data);
                  folderCount := folderCount counters
                                 + list_sum (map folderNodes data);
                  totalSize := totalSize counters |}).
  { induction data as [|c l IH]; intros acc.
    - simpl. destruct acc. simpl. f_equal; lia.
    - simpl. rewrite IH, countNodes_adds. simpl. f_equal; lia. }
  rewrite H. reflexivity.
Qed.

(** X27: when no key of the flat map is, part by part, the beginning
    of another, [getTotalStats] counts in the tree of
    [createHierarchicalTree] as many files as the map has entries; the
    total size is 0, the nodes having no size. *)
Theorem getTotalStats_counts_entries
    (fileTree : JSValue) (entries : list (jsstr * JSValue))
    (tree : list HNode) :
  keysAndValues fileTree = Some entries ->
  ForallOrdPairs
    (fun e e' => apart (split slash (fst e)) (split slash (fst e')))
    entries ->
  createHierarchicalTree fileTree = Some tree ->
  fileCount (getTotalStats tree) = List.length entries
  /\ totalSize (getTotalStats tree) = 0.
Proof.
  intros Hentries Hap. unfold createHierarchicalTree. rewrite Hentries.
  destruct (@placeFile_displays [] entries [])
    as (tree' & Hfold & _ & Hfiles); [|exact Hap|].
  - split; [intros e []|].
    intros qs n H. rewrite displayAt_empty in H. discriminate.
  - rewrite Hfold. intros [= <-]. rewrite getTotalStats_adds.
    split; [exact Hfiles | reflexivity].
Qed.

Lemma getTotalStats_counts_entries_witness :
  let fileTree := createFileTree
                    (JObj [(str "a", JObj [(str "b", JNum 1)]);
                           (str "c", JBool true)]) [] in
  getTotalStats
    [HFolder (str "a") (str "a")
       [HFile (str "b.txt") (str "a/b.txt") (JStr (str "1"))];
     HFile (str "c.txt") (str "c.txt") (JStr (str "true"))]
  = {| fileCount := 2; folderCount := 1; totalSize := 0 |}
  /\ fileCount
       (getTotalStats
          [HFolder (str "a") (str "a")
             [HFile (str "b.txt") (str "a/b.txt") (JStr (str "1"))];
           HFile (str "c.txt") (str "c.txt") (JStr (str "true"))])
     = List.length (ownProps fileTree)
  /\ totalSize
       (getTotalStats
          [HFolder (str "a") (str "a")
             [HFile (str "b.txt") (str "a/b.txt") (JStr (str "1"))];
           HFile (str "c.txt") (str "c.txt") (JStr (str "true"))])
     = 0.
Proof.
  intros fileTree. split; [reflexivity|].
  apply (@getTotalStats_counts_entries fileTree (ownProps fileTree)).
  - reflexivity.
  - repeat constructor; intros [more H]; vm_compute in H; discriminate.
  - reflexivity.
Defined.

End Component.
